(** * TenXSingleAligner: a shallow embedding of the paired-end intersection core

    The development follows [SNAPLib/TenXSingleAligner.cpp].  Member variables of
    the aligner become record fields, pointers into the arenas become indices,
    every array access is checked, and the three ways a call can fail to return
    ([soft_exit], an access outside an allocated array, a loop that was given
    too little fuel) are results of their own. *)

From Stdlib Require Import ZArith Bool List Lia PrimFloat Ascii.
From stdpp Require Import base list.
Import ListNotations.
Open Scope Z_scope.

(** ** Machine integers *)

(** [unsigned] arithmetic is arithmetic modulo 2^32; [-1] and [-2] stored in an
    [unsigned] are the two largest values. *)
Definition wrap32 (z : Z) : Z := z mod 2 ^ 32.

(** The value an [int] takes when an [unsigned] is assigned to it. *)
Definition int32 (z : Z) : Z :=
  let w := wrap32 z in if w <? 2 ^ 31 then w else w - 2 ^ 32.

(** [_uint8] arithmetic, for the cluster counters. *)
Definition wrap8 (z : Z) : Z := z mod 2 ^ 8.

Definition UINT8_MAX : Z := 255.
Definition NEG1 : Z := wrap32 (-1).
Definition NEG2 : Z := wrap32 (-2).

(** ** Results of a call *)

Inductive Res (A : Type) : Type :=
| Ok (a : A)
| SoftExit        (* soft_exit(1) was called *)
| OutOfBounds     (* an array was indexed outside its allocation *)
| OutOfFuel.      (* the loop bound given to the model was too small *)
Arguments Ok {A} a.
Arguments SoftExit {A}.
Arguments OutOfBounds {A}.
Arguments OutOfFuel {A}.

Definition bind {A B : Type} (m : Res A) (k : A -> Res B) : Res B :=
  match m with
  | Ok a => k a
  | SoftExit => SoftExit
  | OutOfBounds => OutOfBounds
  | OutOfFuel => OutOfFuel
  end.

Notation "'do' x <- m ; k" := (bind m (fun x => k))
  (at level 10, x pattern, m at level 100, k at level 200).

Definition readArray {A : Type} (a : list A) (i : Z) : Res A :=
  if i <? 0 then OutOfBounds
  else match a !! Z.to_nat i with
       | Some x => Ok x
       | None => OutOfBounds
       end.

Definition writeArray {A : Type} (a : list A) (i : Z) (x : A) : Res (list A) :=
  if i <? 0 then OutOfBounds
  else if (Z.to_nat i <? length a)%nat then Ok (<[Z.to_nat i := x]> a)
  else OutOfBounds.

(** ** Genome locations *)

(** A [GenomeLocation] is a 64-bit coordinate in the linear genome address
    space; the model keeps it in [Z]. *)
Definition GenomeLocation : Type := Z.

Definition DistanceBetweenGenomeLocations (a b : GenomeLocation) : Z :=
  if b <? a then a - b else b - a.

(** Modelled from the spec: [genomeLocationIsWithin] is declared in a header
    that is not part of the sources.  The spec reads "within maxSpacing" as the
    closed interval [C.locus - maxSpacing, C.locus + maxSpacing]. *)
Definition genomeLocationIsWithin (a b : GenomeLocation) (distance : Z) : bool :=
  DistanceBetweenGenomeLocations a b <=? distance.

(** ** HashTableHitSet *)

Module Lookup.
(** One [HashTableLookup]: the hit array returned by the index for one seed,
    sorted from the largest location to the smallest. *)
Record t : Type := mk {
  seedOffset : Z;
  nHits : Z;
  hits : list GenomeLocation;
  whichDisjointHitSet : Z;
  currentHitForIntersection : Z
}.

Definition set_currentHitForIntersection (c : Z) (l : t) : t :=
  mk (seedOffset l) (nHits l) (hits l) (whichDisjointHitSet l) c.

Definition set_nHits (n : Z) (l : t) : t :=
  mk (seedOffset l) n (hits l) (whichDisjointHitSet l) (currentHitForIntersection l).
End Lookup.

Module Disjoint.
Record t : Type := mk {
  countOfExhaustedHits : Z;
  missCount : Z
}.
End Disjoint.

Module HitSet.
(** The lookups are kept in recording order; only the [nLookupsUsed] entries
    in use are listed, [maxSeeds] is the size of the allocation.  Lookups are
    never unlinked from the list of lookups with remaining members, so that
    list is the recorded lookups, most recent first. *)
Record t : Type := mk {
  maxSeeds : Z;
  maxMergeDistance : Z;
  lookups : list Lookup.t;
  disjointHitSets : list Disjoint.t;
  currentDisjointHitSet : Z;
  mostRecentLocationReturned : GenomeLocation
}.

Definition nLookupsUsed (h : t) : Z := Z.of_nat (length (lookups h)).

Definition set_lookups (ls : list Lookup.t) (h : t) : t :=
  mk (maxSeeds h) (maxMergeDistance h) ls (disjointHitSets h)
     (currentDisjointHitSet h) (mostRecentLocationReturned h).

Definition set_mostRecentLocationReturned (g : GenomeLocation) (h : t) : t :=
  mk (maxSeeds h) (maxMergeDistance h) (lookups h) (disjointHitSets h)
     (currentDisjointHitSet h) g.

Definition set_disjointHitSets (ds : list Disjoint.t) (h : t) : t :=
  mk (maxSeeds h) (maxMergeDistance h) (lookups h) ds
     (currentDisjointHitSet h) (mostRecentLocationReturned h).

Definition set_currentDisjointHitSet (c : Z) (h : t) : t :=
  mk (maxSeeds h) (maxMergeDistance h) (lookups h) (disjointHitSets h)
     c (mostRecentLocationReturned h).
End HitSet.

(** The locals and out-parameters that [getNextHitLessThanOrEqualTo] and its
    siblings thread through the loop over the lookups. *)
Record Found : Type := mkFound {
  anyFound : bool;
  bestLocationFound : GenomeLocation;
  actualGenomeLocationFound : GenomeLocation;   (* *actualGenomeLocationFound *)
  seedOffsetFound : Z;                          (* *seedOffsetFound *)
  mostRecent : GenomeLocation                   (* mostRecentLocationReturned *)
}.

(** The binary search of one lookup, lines 1586-1641.  [probeHit] and
    [probeMinusOneHit] are both read at the top of every iteration, before
    [clause2] is looked at.  The prefetches have no effect on the state. *)
Fixpoint searchLookup (fuel : nat) (maxGenomeLocationToFindThisSeed : GenomeLocation)
    (lk : Lookup.t) (limit0 limit1 : Z) (acc : Found)
    : Res (Lookup.t * (Z * Z) * Found) :=
  match fuel with
  | O => OutOfFuel
  | S fuel' =>
    if limit0 <=? limit1 then
      let probe := (limit0 + limit1) ÷ 2 in
      do probeHit <- readArray (Lookup.hits lk) probe;
      do probeMinusOneHit <- readArray (Lookup.hits lk) (probe - 1);
      let seedOffset := Lookup.seedOffset lk in
      let clause1 := probeHit <=? maxGenomeLocationToFindThisSeed in
      let clause2 := probe =? 0 in
      if clause1 && (clause2 || (maxGenomeLocationToFindThisSeed <? probeMinusOneHit)) then
        let acc' :=
          if bestLocationFound acc <? probeHit - seedOffset then
            mkFound true (probeHit - seedOffset) (probeHit - seedOffset) seedOffset
                    (probeHit - seedOffset)
          else acc in
        Ok (Lookup.set_currentHitForIntersection probe lk, (limit0, limit1), acc')
      else if maxGenomeLocationToFindThisSeed <? probeHit then
        searchLookup fuel' maxGenomeLocationToFindThisSeed lk (probe + 1) limit1 acc
      else
        searchLookup fuel' maxGenomeLocationToFindThisSeed lk limit0 (probe - 1) acc
    else Ok (lk, (limit0, limit1), acc)
  end.

(** One pass of the [for] loop over the lookups, lines 1568-1652. *)
Definition searchOneLookup (maxGenomeLocationToFind : GenomeLocation)
    (lk : Lookup.t) (acc : Found) : Res (Lookup.t * Found) :=
  let limit0 := Lookup.currentHitForIntersection lk in
  let limit1 := Lookup.nHits lk - 1 in
  let maxGenomeLocationToFindThisSeed := maxGenomeLocationToFind + Lookup.seedOffset lk in
  do (lk', (l0, l1), acc') <-
    searchLookup (Z.to_nat (limit1 - limit0 + 2)) maxGenomeLocationToFindThisSeed
                 lk limit0 limit1 acc;
  if l1 <? l0 then Ok (Lookup.set_currentHitForIntersection (Lookup.nHits lk') lk', acc')
  else Ok (lk', acc').

(** The [for] loop over the lookups in use, shared by the three cursor moves. *)
Fixpoint mapLookups {S : Type} (f : Lookup.t -> S -> Res (Lookup.t * S))
    (ls : list Lookup.t) (acc : S) : Res (list Lookup.t * S) :=
  match ls with
  | [] => Ok ([], acc)
  | lk :: rest =>
    do (lk', acc') <- f lk acc;
    do (rest', acc'') <- mapLookups f rest acc';
    Ok (lk' :: rest', acc'')
  end.

(** [getNextHitLessThanOrEqualTo]: the caller's two out-variables are passed in
    and handed back, since they are written only when a hit is found. *)
Definition getNextHitLessThanOrEqualTo (h : HitSet.t)
    (maxGenomeLocationToFind : GenomeLocation)
    (actualGenomeLocationFound0 : GenomeLocation) (seedOffsetFound0 : Z)
    : Res (bool * HitSet.t * GenomeLocation * Z) :=
  let acc0 := mkFound false 0 actualGenomeLocationFound0 seedOffsetFound0
                      (HitSet.mostRecentLocationReturned h) in
  do (ls, acc) <- mapLookups (searchOneLookup maxGenomeLocationToFind) (HitSet.lookups h) acc0;
  Ok (anyFound acc,
      HitSet.set_mostRecentLocationReturned (mostRecent acc) (HitSet.set_lookups ls h),
      actualGenomeLocationFound acc, seedOffsetFound acc).

(** [HashTableHitSet::init]. *)
Definition HitSet_init (h : HitSet.t) : HitSet.t :=
  HitSet.set_currentDisjointHitSet (-1) (HitSet.set_lookups [] h).

(** The trimming loop of [recordLookup]: drop trailing hits below the seed
    offset. *)
Fixpoint trimHits (fuel : nat) (hits : list GenomeLocation) (seedOffset nHits : Z)
    : Res Z :=
  match fuel with
  | O => OutOfFuel
  | S fuel' =>
    if 0 <? nHits then
      do last <- readArray hits (nHits - 1);
      if last <? seedOffset then trimHits fuel' hits seedOffset (nHits - 1)
      else Ok nHits
    else Ok nHits
  end.

(** [HashTableHitSet::recordLookup] (the macro [RL], one body for both widths). *)
Definition recordLookup (h : HitSet.t) (seedOffset nHits : Z)
    (hits : list GenomeLocation) (beginsDisjointHitSet : bool) : Res HitSet.t :=
  do h1 <-
    (if beginsDisjointHitSet then
       let c := HitSet.currentDisjointHitSet h + 1 in
       do d <- readArray (HitSet.disjointHitSets h) c;
       do ds <- writeArray (HitSet.disjointHitSets h) c
                  (Disjoint.mk 0 (Disjoint.missCount d));
       Ok (HitSet.set_disjointHitSets ds (HitSet.set_currentDisjointHitSet c h))
     else Ok h);
  let c := HitSet.currentDisjointHitSet h1 in
  if nHits =? 0 then
    do d <- readArray (HitSet.disjointHitSets h1) c;
    do ds <- writeArray (HitSet.disjointHitSets h1) c
               (Disjoint.mk (Disjoint.countOfExhaustedHits d + 1) (Disjoint.missCount d));
    Ok (HitSet.set_disjointHitSets ds h1)
  else
    if HitSet.maxSeeds h1 <=? HitSet.nLookupsUsed h1 then OutOfBounds
    else
      do n <- trimHits (S (Z.to_nat nHits)) hits seedOffset nHits;
      Ok (HitSet.set_lookups (HitSet.lookups h1 ++ [Lookup.mk seedOffset n hits c 0]) h1).

(** The test of [computeBestPossibleScoreForCurrentHit] on one lookup: is its
    current hit, or the one before it, within [maxMergeDistance] of the most
    recent location?  [&&] and [||] read their right operand only when needed. *)
Definition lookupIsClose (h : HitSet.t) (lk : Lookup.t) : Res bool :=
  let target := HitSet.mostRecentLocationReturned h + Lookup.seedOffset lk in
  let cur := Lookup.currentHitForIntersection lk in
  do first <-
    (if negb (cur =? Lookup.nHits lk) then
       do hit <- readArray (Lookup.hits lk) cur;
       Ok (genomeLocationIsWithin hit target (HitSet.maxMergeDistance h))
     else Ok false);
  if first then Ok true
  else if negb (cur =? 0) then
    do hit <- readArray (Lookup.hits lk) (cur - 1);
    Ok (genomeLocationIsWithin hit target (HitSet.maxMergeDistance h))
  else Ok false.

Fixpoint resetMissCounts (n : nat) (ds : list Disjoint.t) : list Disjoint.t :=
  match n, ds with
  | S n', d :: rest =>
    Disjoint.mk (Disjoint.countOfExhaustedHits d) (Disjoint.countOfExhaustedHits d)
      :: resetMissCounts n' rest
  | _, _ => ds
  end.

Fixpoint countMisses (h : HitSet.t) (ls : list Lookup.t) (ds : list Disjoint.t)
    : Res (list Disjoint.t) :=
  match ls with
  | [] => Ok ds
  | lk :: rest =>
    do close <- lookupIsClose h lk;
    if close then countMisses h rest ds
    else
      do d <- readArray ds (Lookup.whichDisjointHitSet lk);
      do ds' <- writeArray ds (Lookup.whichDisjointHitSet lk)
                  (Disjoint.mk (Disjoint.countOfExhaustedHits d) (Disjoint.missCount d + 1));
      countMisses h rest ds'
  end.

Fixpoint maxMissCount (n : nat) (ds : list Disjoint.t) (bestPossibleScoreSoFar : Z) : Z :=
  match n, ds with
  | S n', d :: rest =>
    maxMissCount n' rest (Z.max bestPossibleScoreSoFar (Disjoint.missCount d))
  | _, _ => bestPossibleScoreSoFar
  end.

(** [HashTableHitSet::computeBestPossibleScoreForCurrentHit]. *)
Definition computeBestPossibleScoreForCurrentHit (h : HitSet.t) : Res (Z * HitSet.t) :=
  let used := Z.to_nat (HitSet.currentDisjointHitSet h + 1) in
  if (length (HitSet.disjointHitSets h) <? used)%nat then OutOfBounds
  else
    let ds0 := resetMissCounts used (HitSet.disjointHitSets h) in
    do ds <- countMisses h (rev (HitSet.lookups h)) ds0;
    Ok (maxMissCount used ds 0, HitSet.set_disjointHitSets ds h).

(** [HashTableHitSet::getFirstHit]; it returns [true] when there is no hit. *)
Definition getFirstHit (h : HitSet.t) (seedOffsetFound0 : Z)
    : Res (bool * HitSet.t * GenomeLocation * Z) :=
  let step (lk : Lookup.t) (acc : Found) : Res (Lookup.t * Found) :=
    if 0 <? Lookup.nHits lk then
      do hit0 <- readArray (Lookup.hits lk) 0;
      if actualGenomeLocationFound acc <? hit0 - Lookup.seedOffset lk then
        Ok (lk, mkFound true (bestLocationFound acc) (hit0 - Lookup.seedOffset lk)
                        (Lookup.seedOffset lk) (hit0 - Lookup.seedOffset lk))
      else Ok (lk, acc)
    else Ok (lk, acc) in
  let acc0 := mkFound false 0 0 seedOffsetFound0 (HitSet.mostRecentLocationReturned h) in
  do (ls, acc) <- mapLookups step (HitSet.lookups h) acc0;
  Ok (negb (anyFound acc),
      HitSet.set_mostRecentLocationReturned (mostRecent acc) h,
      actualGenomeLocationFound acc, seedOffsetFound acc).

(** One pass of the loop of [getNextLowerHit]; [bestLocationFound] holds the
    local [foundLocation]. *)
Definition nextLowerStep (mostRecentLocationReturned : GenomeLocation)
    (lk : Lookup.t) (acc : Found) : Res (Lookup.t * Found) :=
  let nHits := Lookup.nHits lk in
  let seedOffset := Lookup.seedOffset lk in
  let cur := Lookup.currentHitForIntersection lk in
  let consider (lk' : Lookup.t) (hitLocation : GenomeLocation) : Res (Lookup.t * Found) :=
    if (bestLocationFound acc <? hitLocation - seedOffset) && (seedOffset <=? hitLocation) then
      Ok (lk', mkFound true (hitLocation - seedOffset) (hitLocation - seedOffset)
                       seedOffset (mostRecent acc))
    else Ok (lk', acc) in
  if nHits =? cur then Ok (lk, acc)
  else
    do hitLocation <- readArray (Lookup.hits lk) cur;
    if hitLocation - seedOffset =? mostRecentLocationReturned then
      let lk' := Lookup.set_currentHitForIntersection (cur + 1) lk in
      if cur + 1 =? nHits then Ok (lk', acc)
      else
        do hitLocation' <- readArray (Lookup.hits lk) (cur + 1);
        consider lk' hitLocation'
    else consider lk hitLocation.

(** [HashTableHitSet::getNextLowerHit]. *)
Definition getNextLowerHit (h : HitSet.t) (genomeLocation0 : GenomeLocation)
    (seedOffsetFound0 : Z) : Res (bool * HitSet.t * GenomeLocation * Z) :=
  let acc0 := mkFound false 0 genomeLocation0 seedOffsetFound0
                      (HitSet.mostRecentLocationReturned h) in
  do (ls, acc) <- mapLookups (nextLowerStep (HitSet.mostRecentLocationReturned h))
                             (HitSet.lookups h) acc0;
  let h' := HitSet.set_lookups ls h in
  Ok (anyFound acc,
      (if anyFound acc then HitSet.set_mostRecentLocationReturned (bestLocationFound acc) h'
       else h'),
      actualGenomeLocationFound acc, seedOffsetFound acc).

(** ** Candidates, mates, merge anchors and results *)

Definition FORWARD : Z := 0.
Definition RC : Z := 1.

Inductive AlignmentResult : Type := NotFound | SingleHit | MultipleHits | UnknownAlignment.

(** Arrays of size two, indexed by read or by set pair (0 or 1). *)
Definition get2 {A : Type} (a : A * A) (i : Z) : A := if i =? 0 then fst a else snd a.
Definition set2 {A : Type} (a : A * A) (i : Z) (x : A) : A * A :=
  if i =? 0 then (x, snd a) else (fst a, x).

Module Mate.
(** [ScoringMateCandidate]; [score] and [scoreLimit] are [unsigned]. *)
Record t : Type := mk {
  matchProbability : float;
  readWithMoreHitsGenomeLocation : GenomeLocation;
  bestPossibleScore : Z;
  score : Z;
  scoreLimit : Z;
  seedOffset : Z;
  genomeOffset : Z
}.

(** Modelled from the spec: [ScoringMateCandidate::init] is in the class
    header, which is not part of the sources.  A fresh mate is "not yet
    scored", which [align_phase_3_score] recognises as [score == -2]. *)
Definition init (readWithMoreHitsGenomeLocation_ : GenomeLocation)
    (bestPossibleScore_ seedOffset_ : Z) : t :=
  mk 0%float readWithMoreHitsGenomeLocation_ bestPossibleScore_ NEG2 NEG1 seedOffset_ 0.

Definition set_scored (score_ : Z) (matchProbability_ : float) (genomeOffset_ scoreLimit_ : Z)
    (m : t) : t :=
  mk matchProbability_ (readWithMoreHitsGenomeLocation m) (bestPossibleScore m)
     score_ scoreLimit_ (seedOffset m) genomeOffset_.
End Mate.

Module Cand.
(** [ScoringCandidate]; [mergeAnchor] and [scoreListNext] are pointers into
    the anchor pool and the candidate pool, [None] for [NULL]. *)
Record t : Type := mk {
  mergeAnchor : option nat;
  scoringMateCandidateIndex : Z;
  readWithFewerHitsGenomeLocation : GenomeLocation;
  scoreListNext : option nat;
  fewerEndScore : Z;
  fewerEndGenomeLocationOffset : Z;
  bestPossibleScore : Z;
  whichSetPair : Z;
  seedOffset : Z;
  clusterIdx : Z
}.

(** Modelled from the spec: [ScoringCandidate::init] is in the class header,
    which is not part of the sources.  It stores its arguments and clears the
    merge anchor; the two scoring fields are written by [scoreLocation]
    before they are read. *)
Definition init (readWithFewerHitsGenomeLocation_ : GenomeLocation)
    (whichSetPair_ scoringMateCandidateIndex_ seedOffset_ bestPossibleScore_ : Z)
    (scoreListNext_ : option nat) (clusterIdx_ : Z) : t :=
  mk None scoringMateCandidateIndex_ readWithFewerHitsGenomeLocation_ scoreListNext_
     0 0 bestPossibleScore_ whichSetPair_ seedOffset_ clusterIdx_.

Definition set_mergeAnchor (a : option nat) (c : t) : t :=
  mk a (scoringMateCandidateIndex c) (readWithFewerHitsGenomeLocation c) (scoreListNext c)
     (fewerEndScore c) (fewerEndGenomeLocationOffset c) (bestPossibleScore c)
     (whichSetPair c) (seedOffset c) (clusterIdx c).

Definition set_scored (fewerEndScore_ fewerEndGenomeLocationOffset_ : Z) (c : t) : t :=
  mk (mergeAnchor c) (scoringMateCandidateIndex c) (readWithFewerHitsGenomeLocation c)
     (scoreListNext c) fewerEndScore_ fewerEndGenomeLocationOffset_ (bestPossibleScore c)
     (whichSetPair c) (seedOffset c) (clusterIdx c).
End Cand.

Module Anchor.
(** [MergeAnchor]; [candidate] and [mate] are pointers into the pools: an
    index, and a set pair with an index. *)
Record t : Type := mk {
  locationForReadWithMoreHits : GenomeLocation;
  locationForReadWithFewerHits : GenomeLocation;
  matchProbability : float;
  pairScore : Z;
  clusterIdx : Z;
  candidate : nat;
  mate : Z * Z
}.

(** Modelled from the spec: [MergeAnchor::init] is in the class header, which
    is not part of the sources; it installs its arguments. *)
Definition init (locationForReadWithMoreHits_ locationForReadWithFewerHits_ : GenomeLocation)
    (matchProbability_ : float) (pairScore_ clusterIdx_ : Z) (candidate_ : nat)
    (mate_ : Z * Z) : t :=
  mk locationForReadWithMoreHits_ locationForReadWithFewerHits_ matchProbability_
     pairScore_ clusterIdx_ candidate_ mate_.
End Anchor.

Module Result.
(** The fields of [PairedAlignmentResult] that the core writes. *)
Record t : Type := mk {
  alignedAsPair : bool;
  compensatedScore : Z;
  direction : Z * Z;
  fromAlignTogether : bool;
  location : GenomeLocation * GenomeLocation;
  mapq : Z * Z;
  score : Z * Z;
  status : AlignmentResult * AlignmentResult;
  probability : float;
  clusterIdx : Z;
  clippingForReadAdjustment : Z * Z;
  scorePriorToClipping : Z * Z;
  nLVCalls : Z;
  nSmallHits : Z
}.
End Result.

Module Read.
(** A [Read]: its identifier and its bases, each with its quality, so that
    [getData] and [getQuality] have the one length [getDataLength]. *)
Record t : Type := mk {
  id : list ascii;
  bases : list (ascii * ascii)
}.
Definition getData (r : t) : list ascii := map fst (bases r).
Definition getQuality (r : t) : list ascii := map snd (bases r).
Definition getDataLength (r : t) : Z := Z.of_nat (length (bases r)).
End Read.

(** The constructor's arguments and what it derives from them. *)
Record Config : Type := mkConfig {
  maxReadSize : Z;
  maxK : Z;
  numSeedsFromCommandLine : Z;
  minSpacing : Z;
  maxSpacing : Z;
  maxBigHits : Z;
  extraSearchDepth : Z;
  noUkkonen : bool;
  noOrderedEvaluation : bool;
  noTruncation : bool;
  clusterEDCompensation : Z;
  unclusteredPenalty : float;
  seedLen : Z;
  scoringCandidatePoolSize : Z;
  mergeAnchorPoolSize : Z;
  (* what rcTranslationTable holds at the entries the constructor does not assign *)
  rcTranslationTableRest : ascii -> ascii
}.

(** What the core calls but does not define: the genome, the index, the two
    Landau-Vishkin scorers and a few helpers from headers that are not part of
    the sources.  The scorers' text, pattern and quality arguments are fixed by
    the read, its direction, the location and the seed offset, which are the
    keys here. *)
Record Externals : Type := mkExternals {
  InvalidGenomeLocation : GenomeLocation;
  MAX_K : Z;
  (* pow(1 - SNP_PROB, seedLen) *)
  seedMatchProbability : float;
  (* genome->getSubstring(location, length) == NULL *)
  getSubstringIsNull : GenomeLocation -> Z -> bool;
  (* landauVishkin->computeEditDistance: (whichRead, direction, location, seedOffset, k) *)
  landauVishkin : Z -> Z -> GenomeLocation -> Z -> Z -> Z * float;
  (* reverseLandauVishkin->computeEditDistance, with the location offset it reports *)
  reverseLandauVishkin : Z -> Z -> GenomeLocation -> Z -> Z -> Z * float * Z;
  (* MergeAnchor::doesRangeMatch *)
  doesRangeMatch : Anchor.t -> GenomeLocation -> GenomeLocation -> bool;
  (* (int)(readLength * seedCoverage / index->getSeedLength()), computed in double *)
  maxSeedsFromCoverage : Z -> Z;
  (* Seed::DoesTextRepresentASeed on the seedLen bases at an offset *)
  DoesTextRepresentASeed : list ascii -> bool;
  (* GetWrappedNextSeedToTest(seedLen, wrapCount) *)
  GetWrappedNextSeedToTest : Z -> Z -> Z;
  (* index->lookupSeed: the forward and the reverse-complement hit list of a seed *)
  lookupSeed : list ascii -> (Z * list GenomeLocation) * (Z * list GenomeLocation)
}.

(** The arenas.  Each pool lists its entries in use, so its length is the
    pool's free index ([lowestFreeScoringCandidatePoolEntry],
    [lowestFreeScoringMateCandidate[s]], [firstFreeMergeAnchor]);
    [scoringCandidates] is the array of list heads, allocated with
    [maxK + extraSearchDepth + 1] entries. *)
Record Pools : Type := mkPools {
  scoringCandidatePool : list Cand.t;
  scoringMateCandidates : list Mate.t * list Mate.t;
  mergeAnchorPool : list Anchor.t;
  scoringCandidates : list (option nat);
  maxUsedBestPossibleScoreList : Z;
  nLocationsScored : Z
}.

Definition set_scoringCandidatePool (x : list Cand.t) (p : Pools) : Pools :=
  mkPools x (scoringMateCandidates p) (mergeAnchorPool p) (scoringCandidates p)
          (maxUsedBestPossibleScoreList p) (nLocationsScored p).
Definition set_scoringMateCandidates (x : list Mate.t * list Mate.t) (p : Pools) : Pools :=
  mkPools (scoringCandidatePool p) x (mergeAnchorPool p) (scoringCandidates p)
          (maxUsedBestPossibleScoreList p) (nLocationsScored p).
Definition set_mergeAnchorPool (x : list Anchor.t) (p : Pools) : Pools :=
  mkPools (scoringCandidatePool p) (scoringMateCandidates p) x (scoringCandidates p)
          (maxUsedBestPossibleScoreList p) (nLocationsScored p).
Definition set_scoringCandidates (x : list (option nat)) (p : Pools) : Pools :=
  mkPools (scoringCandidatePool p) (scoringMateCandidates p) (mergeAnchorPool p) x
          (maxUsedBestPossibleScoreList p) (nLocationsScored p).
Definition set_maxUsedBestPossibleScoreList (x : Z) (p : Pools) : Pools :=
  mkPools (scoringCandidatePool p) (scoringMateCandidates p) (mergeAnchorPool p)
          (scoringCandidates p) x (nLocationsScored p).
Definition set_nLocationsScored (x : Z) (p : Pools) : Pools :=
  mkPools (scoringCandidatePool p) (scoringMateCandidates p) (mergeAnchorPool p)
          (scoringCandidates p) (maxUsedBestPossibleScoreList p) x.

(** ** Phase 3: the cluster counters and the best score *)

Section Core.
Context (cfg : Config) (E : Externals).

(** The shared cluster counters ([_uint8]) and this pair's toggles. *)
Definition Clusters : Type := (list Z * list bool)%type.

Fixpoint forAnchors {S : Type} (body : Anchor.t -> S -> Res S)
    (anchors : list Anchor.t) (s : S) : Res S :=
  match anchors with
  | [] => Ok s
  | a :: rest => do s' <- body a s; forAnchors body rest s'
  end.

(** The body of the loop of [align_phase_3_increment_cluster]. *)
Definition increment_cluster_body (bestCompensatedScore : Z) (anchor : Anchor.t)
    (cl : Clusters) : Res Clusters :=
  let '(clusterCounterAry, clusterToggle) := cl in
  let astrayEDPenalty :=
    if Anchor.clusterIdx anchor =? -1 then clusterEDCompensation cfg else 0 in
  if wrap32 (Anchor.pairScore anchor + astrayEDPenalty)
       <=? wrap32 (bestCompensatedScore + extraSearchDepth cfg) then
    let clusterIdx := Anchor.clusterIdx anchor in
    if clusterIdx =? -1 then Ok cl
    else
      do toggled <- readArray clusterToggle clusterIdx;
      if toggled then Ok cl
      else
        do count <- readArray clusterCounterAry clusterIdx;
        do clusterCounterAry' <-
          (if count =? UINT8_MAX then Ok clusterCounterAry
           else writeArray clusterCounterAry clusterIdx (wrap8 (count + 1)));
        do clusterToggle' <- writeArray clusterToggle clusterIdx true;
        Ok (clusterCounterAry', clusterToggle')
  else Ok cl.

(** [align_phase_3_increment_cluster]. *)
Definition align_phase_3_increment_cluster (mergeAnchorPool_ : list Anchor.t)
    (bestCompensatedScore : Z) (cl : Clusters) : Res Clusters :=
  forAnchors (increment_cluster_body bestCompensatedScore) mergeAnchorPool_ cl.

(** Is the anchor's cluster a valid one: [clusterIdx != -1 &&
    clusterCounterAry[clusterIdx] >= minClusterSize]; the counter is read only
    when the index is not -1. *)
Definition isValidCluster (clusterCounterAry : list Z) (minClusterSize clusterIdx : Z)
    : Res bool :=
  if clusterIdx =? -1 then Ok false
  else do count <- readArray clusterCounterAry clusterIdx; Ok (minClusterSize <=? count).

Definition correct_best_score_body (clusterCounterAry : list Z) (minClusterSize : Z)
    (anchor : Anchor.t) (newBestCompensatedScore : Z) : Res Z :=
  do valid <- isValidCluster clusterCounterAry minClusterSize (Anchor.clusterIdx anchor);
  let astrayEDPenalty := if valid then 0 else clusterEDCompensation cfg in
  if wrap32 (Anchor.pairScore anchor + astrayEDPenalty) <? newBestCompensatedScore then
    Ok (wrap32 (Anchor.pairScore anchor + astrayEDPenalty))
  else Ok newBestCompensatedScore.

(** [align_phase_3_correct_best_score]: the new value of the reference
    argument and the returned flag. *)
Definition align_phase_3_correct_best_score (mergeAnchorPool_ : list Anchor.t)
    (clusterCounterAry : list Z) (bestCompensatedScore minClusterSize : Z)
    : Res (Z * bool) :=
  let newBestCompensatedScore0 :=
    wrap32 (maxK cfg + extraSearchDepth cfg + clusterEDCompensation cfg + 1) in
  do newBestCompensatedScore <-
    forAnchors (correct_best_score_body clusterCounterAry minClusterSize)
               mergeAnchorPool_ newBestCompensatedScore0;
  if negb (wrap32 bestCompensatedScore =? newBestCompensatedScore) then
    Ok (int32 newBestCompensatedScore, true)
  else Ok (bestCompensatedScore, false).

(** ** Phase 3: counting and generating the results *)

Definition count_results_body (clusterCounterAry : list Z) (minClusterSize : Z)
    (EDMapQCutOff EDResultCutOff : Z) (anchor : Anchor.t) (acc : float * Z)
    : Res (float * Z) :=
  let '(probabilityOfAllPairs, nSecondaryResults) := acc in
  do valid <- isValidCluster clusterCounterAry minClusterSize (Anchor.clusterIdx anchor);
  let astrayEDPenalty := if valid then 0 else clusterEDCompensation cfg in
  let astrayProbabilityPenalty := if valid then 1%float else unclusteredPenalty cfg in
  let compensatedScore := wrap32 (Anchor.pairScore anchor + astrayEDPenalty) in
  let probabilityOfAllPairs' :=
    if compensatedScore <=? EDMapQCutOff then
      PrimFloat.add probabilityOfAllPairs
        (PrimFloat.mul (Anchor.matchProbability anchor) astrayProbabilityPenalty)
    else probabilityOfAllPairs in
  let nSecondaryResults' :=
    if compensatedScore <=? EDResultCutOff then nSecondaryResults + 1
    else nSecondaryResults in
  Ok (probabilityOfAllPairs', nSecondaryResults').

(** [align_phase_3_count_results]: the returned flag, [*nSecondaryResults] and
    [probabilityOfAllPairs]. *)
Definition align_phase_3_count_results (mergeAnchorPool_ : list Anchor.t)
    (clusterCounterAry : list Z)
    (maxEditDistanceForSecondaryResults bestCompensatedScore minClusterSize : Z)
    (secondaryResultBufferSize : Z) : Res (bool * Z * float) :=
  let EDMapQCutOff := wrap32 (bestCompensatedScore + extraSearchDepth cfg) in
  let EDResultCutOff := wrap32 (bestCompensatedScore + maxEditDistanceForSecondaryResults) in
  do (probabilityOfAllPairs, nSecondaryResults) <-
    forAnchors (count_results_body clusterCounterAry minClusterSize EDMapQCutOff EDResultCutOff)
               mergeAnchorPool_ (0%float, 0);
  Ok (secondaryResultBufferSize <? nSecondaryResults, nSecondaryResults, probabilityOfAllPairs).

(** The locals of [align_phase_3_generate_results] that its loop changes,
    together with the reference argument and the caller's buffer. *)
Record Generate : Type := mkGenerate {
  nextResultIdx : Z;
  bestResultIdx : Z;
  probabilityOfBestPair : float;
  genBestCompensatedScore : Z;
  secondaryResults : list Result.t
}.

(** In this function the table reads [{FORWARD, RC}, {65, FORWARD}]. *)
Definition setPairDirection_generate (whichSetPair whichRead : Z) : Z :=
  get2 (get2 ((FORWARD, RC), (65, FORWARD)) whichSetPair) whichRead.

Definition generate_results_body (pools : Pools) (clusterCounterAry : list Z)
    (readWithMoreHits readWithFewerHits minClusterSize EDResultCutOff : Z)
    (anchor : Anchor.t) (g : Generate) : Res Generate :=
  do valid <- isValidCluster clusterCounterAry minClusterSize (Anchor.clusterIdx anchor);
  let clusterIdx := if valid then Anchor.clusterIdx anchor else -1 in
  let astrayEDPenalty := if valid then 0 else clusterEDCompensation cfg in
  let astrayProbabilityPenalty := if valid then 1%float else unclusteredPenalty cfg in
  let compensatedScore := wrap32 (Anchor.pairScore anchor + astrayEDPenalty) in
  if compensatedScore <=? EDResultCutOff then
    let compensatedProbability :=
      PrimFloat.mul (Anchor.matchProbability anchor) astrayProbabilityPenalty in
    do candidatePtr <- readArray (scoringCandidatePool pools) (Z.of_nat (Anchor.candidate anchor));
    do matePtr <- readArray (get2 (scoringMateCandidates pools) (fst (Anchor.mate anchor)))
                            (snd (Anchor.mate anchor));
    do old <- readArray (secondaryResults g) (nextResultIdx g);
    let direction' :=
      set2 (set2 (Result.direction old) readWithMoreHits
                 (setPairDirection_generate (Cand.whichSetPair candidatePtr) readWithMoreHits))
           readWithFewerHits
           (setPairDirection_generate (Cand.whichSetPair candidatePtr) readWithFewerHits) in
    let location' :=
      set2 (set2 (Result.location old) readWithMoreHits
                 (Mate.readWithMoreHitsGenomeLocation matePtr + Mate.genomeOffset matePtr))
           readWithFewerHits
           (Cand.readWithFewerHitsGenomeLocation candidatePtr
            + Cand.fewerEndGenomeLocationOffset candidatePtr) in
    let score' :=
      set2 (set2 (Result.score old) readWithMoreHits (int32 (Mate.score matePtr)))
           readWithFewerHits (int32 (Cand.fewerEndScore candidatePtr)) in
    let secondaryResult :=
      Result.mk true (int32 compensatedScore) direction' true location' (0, 0) score'
                (MultipleHits, MultipleHits) compensatedProbability clusterIdx
                (Result.clippingForReadAdjustment old) (Result.scorePriorToClipping old)
                (Result.nLVCalls old) (Result.nSmallHits old) in
    do secondaryResults' <- writeArray (secondaryResults g) (nextResultIdx g) secondaryResult;
    let nextResultIdx' := nextResultIdx g + 1 in
    if (compensatedScore <=? wrap32 (genBestCompensatedScore g))
       && PrimFloat.leb (probabilityOfBestPair g) compensatedProbability then
      Ok (mkGenerate nextResultIdx' nextResultIdx' compensatedProbability
                     (int32 compensatedScore) secondaryResults')
    else
      Ok (mkGenerate nextResultIdx' (bestResultIdx g) (probabilityOfBestPair g)
                     (genBestCompensatedScore g) secondaryResults')
  else Ok g.

(** What [align_phase_3_generate_results] hands back: its return value, the
    reference argument, [*nSecondaryResults], the buffer and [*bestResult]. *)
Record Generated : Type := mkGenerated {
  genReturn : bool;
  outBestCompensatedScore : Z;
  outNSecondaryResults : Z;
  outSecondaryResults : list Result.t;
  outBestResult : Result.t
}.

Definition align_phase_3_generate_results (pools : Pools) (clusterCounterAry : list Z)
    (readWithMoreHits readWithFewerHits : Z)
    (minClusterSize maxEditDistanceForSecondaryResults bestCompensatedScore : Z)
    (nSecondaryResults : Z) (secondaryResults_ : list Result.t) (bestResult : Result.t)
    : Res Generated :=
  let EDResultCutOff := wrap32 (bestCompensatedScore + maxEditDistanceForSecondaryResults) in
  do g <- forAnchors
            (generate_results_body pools clusterCounterAry readWithMoreHits readWithFewerHits
                                   minClusterSize EDResultCutOff)
            (mergeAnchorPool pools)
            (mkGenerate 0 (-1) 0%float bestCompensatedScore secondaryResults_);
  if negb (bestResultIdx g =? -1) then
    do bestResultPtr <- readArray (secondaryResults g) (bestResultIdx g);
    let bestResult' :=
      Result.mk (Result.alignedAsPair bestResultPtr) (Result.compensatedScore bestResultPtr)
        (set2 (set2 (Result.direction bestResult) readWithMoreHits
                    (get2 (Result.direction bestResultPtr) readWithMoreHits))
              readWithFewerHits (get2 (Result.direction bestResultPtr) readWithFewerHits))
        true
        (set2 (set2 (Result.location bestResult) readWithMoreHits
                    (get2 (Result.location bestResultPtr) readWithMoreHits))
              readWithFewerHits (get2 (Result.location bestResultPtr) readWithFewerHits))
        (Result.mapq bestResultPtr)
        (set2 (set2 (Result.score bestResult) readWithMoreHits
                    (get2 (Result.score bestResultPtr) readWithMoreHits))
              readWithFewerHits (get2 (Result.score bestResultPtr) readWithFewerHits))
        (set2 (set2 (Result.status bestResult) readWithFewerHits
                    (get2 (Result.status bestResultPtr) readWithFewerHits))
              readWithMoreHits (get2 (Result.status bestResultPtr) readWithMoreHits))
        (Result.probability bestResultPtr) (Result.clusterIdx bestResultPtr)
        (Result.clippingForReadAdjustment bestResult) (Result.scorePriorToClipping bestResult)
        (Result.nLVCalls bestResult) (Result.nSmallHits bestResult) in
    do last <- readArray (secondaryResults g) (nSecondaryResults - 1);
    do secondaryResults' <- writeArray (secondaryResults g) (bestResultIdx g) last;
    Ok (mkGenerated false (genBestCompensatedScore g) (nSecondaryResults - 1)
                    secondaryResults' bestResult')
  else
    let bestResult' :=
      Result.mk (Result.alignedAsPair bestResult) (-1) (Result.direction bestResult)
        (Result.fromAlignTogether bestResult)
        (InvalidGenomeLocation E, InvalidGenomeLocation E) (0, 0) (-1, -1)
        (NotFound, NotFound) (Result.probability bestResult) (-1)
        (Result.clippingForReadAdjustment bestResult) (Result.scorePriorToClipping bestResult)
        (Result.nLVCalls bestResult) (Result.nSmallHits bestResult) in
    Ok (mkGenerated false (genBestCompensatedScore g) nSecondaryResults
                    (secondaryResults g) bestResult').

(** ** Phase 3: scoring and merging *)

(** [scoreLocation]: the three out-parameters.  [genomeLocationOffset] is
    written only when the reverse scorer runs. *)
Definition scoreLocation (readLen : Z * Z) (whichRead direction : Z)
    (genomeLocation : GenomeLocation) (seedOffset scoreLimit : Z)
    (genomeLocationOffset0 : Z) : Z * float * Z :=
  let readDataLength := get2 readLen whichRead in
  let genomeDataLength := readDataLength + MAX_K E in
  if getSubstringIsNull E genomeLocation genomeDataLength then
    (NEG1, 0%float, genomeLocationOffset0)
  else
    let '(score1, matchProb1) :=
      landauVishkin E whichRead direction genomeLocation seedOffset (int32 scoreLimit) in
    let '(score, matchProbability, genomeLocationOffset) :=
      if score1 =? -1 then (NEG1, 0%float, genomeLocationOffset0)
      else
        let limitLeft := int32 (scoreLimit - score1) in
        let '(score2, matchProb2, offset) :=
          reverseLandauVishkin E whichRead direction genomeLocation seedOffset limitLeft in
        if score2 =? -1 then (NEG1, 0%float, offset)
        else (wrap32 (score1 + score2),
              PrimFloat.mul (PrimFloat.mul matchProb1 matchProb2) (seedMatchProbability E),
              offset) in
    if score =? NEG1 then (score, 0%float, genomeLocationOffset)
    else (score, matchProbability, genomeLocationOffset).

(** [MergeAnchor::checkMerge]: the anchor after the call and the value
    returned. *)
Definition checkMerge (anchor : Anchor.t)
    (newMoreHitLocation newFewerHitLocation : GenomeLocation) (newMatchProbability : float)
    (newPairScore newClusterIdx : Z) (newCandidate : nat) (newMate : Z * Z)
    : Anchor.t * bool :=
  let installed :=
    Anchor.mk newMoreHitLocation newFewerHitLocation newMatchProbability newPairScore
              newClusterIdx newCandidate newMate in
  if (Anchor.locationForReadWithMoreHits anchor =? InvalidGenomeLocation E)
     || negb (doesRangeMatch E anchor newMoreHitLocation newFewerHitLocation) then
    (installed, false)
  else if ((Anchor.clusterIdx anchor =? -1) && negb (newClusterIdx =? -1))
          || (negb (negb (Anchor.clusterIdx anchor =? -1) && (newClusterIdx =? -1))
              && ((newPairScore <? Anchor.pairScore anchor)
                  || ((newPairScore =? Anchor.pairScore anchor)
                      && PrimFloat.ltb (Anchor.matchProbability anchor) newMatchProbability)))
  then (installed, false)
  else (anchor, true).

Definition setPairDirection (whichSetPair whichRead : Z) : Z :=
  get2 (get2 ((FORWARD, RC), (RC, FORWARD)) whichSetPair) whichRead.

(** May [mergeCandidate] be looked at when searching a merge anchor for
    [candidate]: the loop condition of lines 820-821 and 834-835. *)
Definition mergeScanContinues (candidate mergeCandidate : Cand.t) : bool :=
  negb (Cand.whichSetPair mergeCandidate =? Cand.whichSetPair candidate)
  || genomeLocationIsWithin (Cand.readWithFewerHitsGenomeLocation mergeCandidate)
       (Cand.readWithFewerHitsGenomeLocation candidate
        + Cand.fewerEndGenomeLocationOffset candidate) 50.

Definition mergeScanFinds (candidate mergeCandidate : Cand.t) : option nat :=
  if Cand.whichSetPair mergeCandidate =? Cand.whichSetPair candidate
  then Cand.mergeAnchor mergeCandidate else None.

(** The downward scan, from [candidate - 1] to the start of the pool; [below]
    is the part of the pool under the candidate, nearest entry first. *)
Fixpoint mergeScan (candidate : Cand.t) (neighbours : list Cand.t) : option nat :=
  match neighbours with
  | [] => None
  | mergeCandidate :: rest =>
    if mergeScanContinues candidate mergeCandidate then
      match mergeScanFinds candidate mergeCandidate with
      | Some a => Some a
      | None => mergeScan candidate rest
      end
    else None
  end.

Definition findMergeAnchor (pool : list Cand.t) (candIdx : nat) (candidate : Cand.t)
    : option nat :=
  match Cand.mergeAnchor candidate with
  | Some a => Some a
  | None =>
    match mergeScan candidate (rev (take candIdx pool)) with
    | Some a => Some a
    | None => mergeScan candidate (drop (S candIdx) pool)
    end
  end.

(** The state [align_phase_3_score] works on: the arenas, the reference
    argument and the local [scoreLimit].  [matesScored] is not a variable of
    the function: it logs, oldest first, each mate handed to [scoreLocation]
    as the candidate it was scored for and the set pair and index of the
    mate. *)
Record Scoring : Type := mkScoring {
  pools : Pools;
  bestCompensatedScore : Z;
  scoreLimit : Z;
  matesScored : list (nat * (Z * Z))
}.

(** From forming [pairScore] to the update of the best score, lines 804-882,
    for a mate whose score is not -1. *)
Definition mergePair (inRevise : bool) (candIdx : nat) (candidate : Cand.t)
    (mateIndex : Z) (mate : Mate.t) (astrayEDPenalty : Z)
    (fewerEndMatchProbability : float) (st : Scoring) : Res Scoring :=
  let p := pools st in
  let pairProbability := PrimFloat.mul (Mate.matchProbability mate) fewerEndMatchProbability in
  let pairScore := wrap32 (Mate.score mate + Cand.fewerEndScore candidate) in
  let found := findMergeAnchor (scoringCandidatePool p) candIdx candidate in
  let newMore := Mate.readWithMoreHitsGenomeLocation mate + Mate.genomeOffset mate in
  let newFewer := Cand.readWithFewerHitsGenomeLocation candidate
                  + Cand.fewerEndGenomeLocationOffset candidate in
  let matePtr := (Cand.whichSetPair candidate, mateIndex) in
  let compensatedScore := wrap32 (pairScore + astrayEDPenalty) in
  do (p', anchorUpdate) <-
    match found with
    | None =>
      let firstFreeMergeAnchor := length (mergeAnchorPool p) in
      if mergeAnchorPoolSize cfg <=? Z.of_nat firstFreeMergeAnchor then SoftExit
      else
        let anchor := Anchor.init newMore newFewer pairProbability (int32 pairScore)
                                  (Cand.clusterIdx candidate) candIdx matePtr in
        do pool' <- writeArray (scoringCandidatePool p) (Z.of_nat candIdx)
                      (Cand.set_mergeAnchor (Some firstFreeMergeAnchor) candidate);
        Ok (set_scoringCandidatePool pool'
              (set_mergeAnchorPool (mergeAnchorPool p ++ [anchor]) p), true)
    | Some a =>
      do pool' <- writeArray (scoringCandidatePool p) (Z.of_nat candIdx)
                    (Cand.set_mergeAnchor (Some a) candidate);
      do anchor <- readArray (mergeAnchorPool p) (Z.of_nat a);
      let '(anchor', ignored) :=
        checkMerge anchor newMore newFewer pairProbability (int32 pairScore)
                   (Cand.clusterIdx candidate) candIdx matePtr in
      do anchors' <- writeArray (mergeAnchorPool p) (Z.of_nat a) anchor';
      Ok (set_scoringCandidatePool pool' (set_mergeAnchorPool anchors' p), ignored)
    end;
  if negb inRevise && anchorUpdate
     && (compensatedScore <=? wrap32 (maxK cfg + clusterEDCompensation cfg))
     && (compensatedScore <? wrap32 (bestCompensatedScore st)) then
    let best := int32 compensatedScore in
    Ok (mkScoring p' best
          (if negb (noUkkonen cfg) then wrap32 (best + extraSearchDepth cfg)
           else scoreLimit st)
          (matesScored st))
  else Ok (mkScoring p' (bestCompensatedScore st) (scoreLimit st) (matesScored st)).

(** The loop over the mates of one scored candidate, lines 774-894. *)
Fixpoint scoreMates (fuel : nat) (inRevise : bool) (readLen : Z * Z)
    (readWithMoreHits : Z) (candIdx : nat) (astrayEDPenalty compensatedScoreLimit : Z)
    (fewerEndMatchProbability : float) (mateIndex : Z) (st : Scoring) : Res Scoring :=
  match fuel with
  | O => OutOfFuel
  | S fuel' =>
    do candidate <- readArray (scoringCandidatePool (pools st)) (Z.of_nat candIdx);
    let whichSetPair := Cand.whichSetPair candidate in
    let mates := get2 (scoringMateCandidates (pools st)) whichSetPair in
    do mate <- readArray mates mateIndex;
    do st1 <-
      (if negb (genomeLocationIsWithin (Mate.readWithMoreHitsGenomeLocation mate)
                  (Cand.readWithFewerHitsGenomeLocation candidate) (minSpacing cfg))
          && (Mate.bestPossibleScore mate
                <=? wrap32 (scoreLimit st - Cand.fewerEndScore candidate)) then
         let mateLimit := wrap32 (compensatedScoreLimit - Cand.fewerEndScore candidate) in
         do (mate', p1, log1) <-
           (if (Mate.score mate =? NEG2)
               || ((Mate.score mate =? NEG1) && (Mate.scoreLimit mate <? mateLimit)) then
              let '(score, matchProbability, genomeOffset) :=
                scoreLocation readLen readWithMoreHits
                  (setPairDirection whichSetPair readWithMoreHits)
                  (Mate.readWithMoreHitsGenomeLocation mate) (Mate.seedOffset mate)
                  mateLimit (Mate.genomeOffset mate) in
              let mate' := Mate.set_scored score matchProbability genomeOffset mateLimit mate in
              do mates' <- writeArray mates mateIndex mate';
              Ok (mate',
                  set_nLocationsScored (nLocationsScored (pools st) + 1)
                    (set_scoringMateCandidates
                       (set2 (scoringMateCandidates (pools st)) whichSetPair mates')
                       (pools st)),
                  matesScored st ++ [(candIdx, (whichSetPair, mateIndex))])
            else Ok (mate, pools st, matesScored st));
         let st' := mkScoring p1 (bestCompensatedScore st) (scoreLimit st) log1 in
         if negb (Mate.score mate' =? NEG1) then
           mergePair inRevise candIdx candidate mateIndex mate' astrayEDPenalty
                     fewerEndMatchProbability st'
         else Ok st'
       else Ok st);
    if mateIndex =? 0 then Ok st1
    else
      do above <- readArray mates (mateIndex - 1);
      if negb (genomeLocationIsWithin (Mate.readWithMoreHitsGenomeLocation above)
                 (Cand.readWithFewerHitsGenomeLocation candidate) (maxSpacing cfg))
      then Ok st1
      else scoreMates fuel' inRevise readLen readWithMoreHits candIdx astrayEDPenalty
                      compensatedScoreLimit fewerEndMatchProbability (mateIndex - 1) st1
  end.

(** Scoring the candidate at the head of a list, lines 744-896. *)
Definition scoreCandidate (inRevise : bool) (readLen : Z * Z)
    (readWithMoreHits readWithFewerHits : Z) (currentBestPossibleScoreList : Z)
    (candIdx : nat) (st : Scoring) : Res Scoring :=
  do candidate <- readArray (scoringCandidatePool (pools st)) (Z.of_nat candIdx);
  let astrayEDPenalty :=
    if Cand.clusterIdx candidate =? -1 then clusterEDCompensation cfg else 0 in
  let compensatedScoreLimit := wrap32 (scoreLimit st - astrayEDPenalty) in
  let '(fewerEndScore, fewerEndMatchProbability, fewerEndGenomeLocationOffset) :=
    scoreLocation readLen readWithFewerHits
      (setPairDirection (Cand.whichSetPair candidate) readWithFewerHits)
      (Cand.readWithFewerHitsGenomeLocation candidate) (Cand.seedOffset candidate)
      compensatedScoreLimit (Cand.fewerEndGenomeLocationOffset candidate) in
  let candidate' := Cand.set_scored fewerEndScore fewerEndGenomeLocationOffset candidate in
  do pool' <- writeArray (scoringCandidatePool (pools st)) (Z.of_nat candIdx) candidate';
  let st1 :=
    mkScoring (set_nLocationsScored (nLocationsScored (pools st) + 1)
                 (set_scoringCandidatePool pool' (pools st)))
              (bestCompensatedScore st) (scoreLimit st) (matesScored st) in
  do st2 <-
    (if negb (fewerEndScore =? NEG1) then
       scoreMates (S (Z.to_nat (Cand.scoringMateCandidateIndex candidate))) inRevise readLen
                  readWithMoreHits candIdx astrayEDPenalty compensatedScoreLimit
                  fewerEndMatchProbability (Cand.scoringMateCandidateIndex candidate) st1
     else Ok st1);
  do heads' <- writeArray (scoringCandidates (pools st2)) currentBestPossibleScoreList
                 (Cand.scoreListNext candidate);
  Ok (mkScoring (set_scoringCandidates heads' (pools st2))
                (bestCompensatedScore st2) (scoreLimit st2) (matesScored st2)).

(** The [while] loop of [align_phase_3_score], lines 732-897. *)
Fixpoint scoreLoop (fuel : nat) (inRevise : bool) (readLen : Z * Z)
    (readWithMoreHits readWithFewerHits : Z) (currentBestPossibleScoreList : Z)
    (st : Scoring) : Res Scoring :=
  match fuel with
  | O => OutOfFuel
  | S fuel' =>
    if (currentBestPossibleScoreList <=? maxUsedBestPossibleScoreList (pools st))
       && (currentBestPossibleScoreList <=? scoreLimit st) then
      do head <- readArray (scoringCandidates (pools st)) currentBestPossibleScoreList;
      match head with
      | None =>
        scoreLoop fuel' inRevise readLen readWithMoreHits readWithFewerHits
                  (wrap32 (currentBestPossibleScoreList + 1)) st
      | Some candIdx =>
        do st' <- scoreCandidate inRevise readLen readWithMoreHits readWithFewerHits
                                 currentBestPossibleScoreList candIdx st;
        scoreLoop fuel' inRevise readLen readWithMoreHits readWithFewerHits
                  currentBestPossibleScoreList st'
      end
    else Ok st
  end.

(** The body of [align_phase_3_score], with the state it ends in.
    ([localBestPairProbability], which the function clears and nothing in this
    file reads, is left out.) *)
Definition scorePass (fuel : nat) (readLen : Z * Z)
    (readWithMoreHits readWithFewerHits : Z) (p : Pools)
    (bestCompensatedScore_ : Z) (inRevise : bool) : Res Scoring :=
  let scoreLimit0 :=
    if inRevise
    then wrap32 (bestCompensatedScore_ + extraSearchDepth cfg + clusterEDCompensation cfg)
    else wrap32 (maxK cfg + extraSearchDepth cfg + clusterEDCompensation cfg) in
  scoreLoop fuel inRevise readLen readWithMoreHits readWithFewerHits 0
            (mkScoring p bestCompensatedScore_ scoreLimit0 []).

(** [align_phase_3_score]: the arenas and the reference argument after the
    call. *)
Definition align_phase_3_score (fuel : nat) (readLen : Z * Z)
    (readWithMoreHits readWithFewerHits : Z) (p : Pools)
    (bestCompensatedScore_ : Z) (inRevise : bool) : Res (Pools * Z) :=
  do st <- scorePass fuel readLen readWithMoreHits readWithFewerHits p
                     bestCompensatedScore_ inRevise;
  Ok (pools st, bestCompensatedScore st).

(** ** Phase 2: candidate enumeration *)

(** The per-set-pair cursors of the coordinated descent. *)
Record Cursors : Type := mkCursors {
  lastGenomeLocationForReadWithFewerHits : GenomeLocation * GenomeLocation;
  lastGenomeLocationForReadWithMoreHits : GenomeLocation * GenomeLocation;
  lastSeedOffsetForReadWithFewerHits : Z * Z;
  lastSeedOffsetForReadWithMoreHits : Z * Z;
  outOfMoreHitsLocations : bool * bool;
  noMoreLocus : bool * bool
}.

(** What phase 1 keeps about the reads and the seeds.  [reads] and
    [reversedRead] are indexed by read, then by direction; [seedUsed] is the
    bitmap, one entry per bit; [seedLookups] is not a member variable: it logs
    the seeds handed to [index->lookupSeed], oldest first. *)
Record Seeding : Type := mkSeeding {
  reads : (Read.t * Read.t) * (Read.t * Read.t);
  reversedRead : (list ascii * list ascii) * (list ascii * list ascii);
  seedUsed : list bool;
  countOfHashTableLookups : Z * Z;
  totalHashTableHits : (Z * Z) * (Z * Z);
  largestHashTableHit : (Z * Z) * (Z * Z);
  seedLookups : list (list ascii)
}.

(** The member variables the four phases work on.  [hashTableHitSets] is
    indexed by read, then by direction. *)
Record Aligner : Type := mkAligner {
  hashTableHitSets : (HitSet.t * HitSet.t) * (HitSet.t * HitSet.t);
  readLen : Z * Z;
  readWithMoreHits : Z;
  readWithFewerHits : Z;
  cursors : Cursors;
  arenas : Pools;
  seeding : Seeding
}.

Definition set_hashTableHitSets (x : (HitSet.t * HitSet.t) * (HitSet.t * HitSet.t))
    (a : Aligner) : Aligner :=
  mkAligner x (readLen a) (readWithMoreHits a) (readWithFewerHits a) (cursors a) (arenas a)
            (seeding a).
Definition set_readLen (x : Z * Z) (a : Aligner) : Aligner :=
  mkAligner (hashTableHitSets a) x (readWithMoreHits a) (readWithFewerHits a) (cursors a)
            (arenas a) (seeding a).
Definition set_readWithMoreHits (more fewer : Z) (a : Aligner) : Aligner :=
  mkAligner (hashTableHitSets a) (readLen a) more fewer (cursors a) (arenas a) (seeding a).
Definition set_cursors (x : Cursors) (a : Aligner) : Aligner :=
  mkAligner (hashTableHitSets a) (readLen a) (readWithMoreHits a) (readWithFewerHits a)
            x (arenas a) (seeding a).
Definition set_arenas (x : Pools) (a : Aligner) : Aligner :=
  mkAligner (hashTableHitSets a) (readLen a) (readWithMoreHits a) (readWithFewerHits a)
            (cursors a) x (seeding a).
Definition set_seeding (x : Seeding) (a : Aligner) : Aligner :=
  mkAligner (hashTableHitSets a) (readLen a) (readWithMoreHits a) (readWithFewerHits a)
            (cursors a) (arenas a) x.

(** [setPair[whichSetPair][whichRead]] points at
    [hashTableHitSets[whichRead][setPairDirection whichSetPair whichRead]]. *)
Definition getSetPair (a : Aligner) (whichSetPair whichRead : Z) : HitSet.t :=
  get2 (get2 (hashTableHitSets a) whichRead) (setPairDirection whichSetPair whichRead).

Definition putSetPair (a : Aligner) (whichSetPair whichRead : Z) (h : HitSet.t) : Aligner :=
  set_hashTableHitSets
    (set2 (hashTableHitSets a) whichRead
          (set2 (get2 (hashTableHitSets a) whichRead)
                (setPairDirection whichSetPair whichRead) h)) a.

Definition set_lastMore (s : Z) (location seedOffset : Z) (c : Cursors) : Cursors :=
  mkCursors (lastGenomeLocationForReadWithFewerHits c)
            (set2 (lastGenomeLocationForReadWithMoreHits c) s location)
            (lastSeedOffsetForReadWithFewerHits c)
            (set2 (lastSeedOffsetForReadWithMoreHits c) s seedOffset)
            (outOfMoreHitsLocations c) (noMoreLocus c).
Definition set_lastFewer (s : Z) (location seedOffset : Z) (c : Cursors) : Cursors :=
  mkCursors (set2 (lastGenomeLocationForReadWithFewerHits c) s location)
            (lastGenomeLocationForReadWithMoreHits c)
            (set2 (lastSeedOffsetForReadWithFewerHits c) s seedOffset)
            (lastSeedOffsetForReadWithMoreHits c)
            (outOfMoreHitsLocations c) (noMoreLocus c).
Definition set_outOfMoreHitsLocations (s : Z) (b : bool) (c : Cursors) : Cursors :=
  mkCursors (lastGenomeLocationForReadWithFewerHits c)
            (lastGenomeLocationForReadWithMoreHits c)
            (lastSeedOffsetForReadWithFewerHits c) (lastSeedOffsetForReadWithMoreHits c)
            (set2 (outOfMoreHitsLocations c) s b) (noMoreLocus c).

(** Move the more-hits cursor of a set pair with one of the hit set's three
    cursor moves, writing the two out-variables back. *)
Definition moveMore (a : Aligner) (s : Z)
    (move : HitSet.t -> GenomeLocation -> Z -> Res (bool * HitSet.t * GenomeLocation * Z))
    : Res (bool * Aligner) :=
  do (found, h, location, seedOffset) <-
    move (getSetPair a s (readWithMoreHits a))
         (get2 (lastGenomeLocationForReadWithMoreHits (cursors a)) s)
         (get2 (lastSeedOffsetForReadWithMoreHits (cursors a)) s);
  let a' := putSetPair a s (readWithMoreHits a) h in
  Ok (found, set_cursors (set_lastMore s location seedOffset (cursors a')) a').

Definition moveFewer (a : Aligner) (s : Z)
    (move : HitSet.t -> GenomeLocation -> Z -> Res (bool * HitSet.t * GenomeLocation * Z))
    : Res (bool * Aligner) :=
  do (found, h, location, seedOffset) <-
    move (getSetPair a s (readWithFewerHits a))
         (get2 (lastGenomeLocationForReadWithFewerHits (cursors a)) s)
         (get2 (lastSeedOffsetForReadWithFewerHits (cursors a)) s);
  let a' := putSetPair a s (readWithFewerHits a) h in
  Ok (found, set_cursors (set_lastFewer s location seedOffset (cursors a')) a').


(** The first loop of [align_phase_2_single_step_add_candidate]: add the mate
    candidates for the current hit of the read with fewer hits. *)
Fixpoint addMateCandidates (fuel : nat) (a : Aligner) (s : Z) : Res Aligner :=
  match fuel with
  | O => OutOfFuel
  | S fuel' =>
    let c := cursors a in
    if (get2 (lastGenomeLocationForReadWithFewerHits c) s
          <=? get2 (lastGenomeLocationForReadWithMoreHits c) s + maxSpacing cfg)
       && negb (get2 (outOfMoreHitsLocations c) s) then
      do (bestPossibleScoreForReadWithMoreHits, a1) <-
        (if noTruncation cfg then Ok (0, a)
         else
           do (b, h) <- computeBestPossibleScoreForCurrentHit
                          (getSetPair a s (readWithMoreHits a));
           Ok (b, putSetPair a s (readWithMoreHits a) h));
      let mates := get2 (scoringMateCandidates (arenas a1)) s in
      if scoringCandidatePoolSize cfg ÷ 2 <=? Z.of_nat (length mates) then SoftExit
      else
        let mate := Mate.init (get2 (lastGenomeLocationForReadWithMoreHits c) s)
                              bestPossibleScoreForReadWithMoreHits
                              (get2 (lastSeedOffsetForReadWithMoreHits c) s) in
        let a2 := set_arenas
                    (set_scoringMateCandidates
                       (set2 (scoringMateCandidates (arenas a1)) s (mates ++ [mate]))
                       (arenas a1)) a1 in
        do (found, a3) <- moveMore a2 s getNextLowerHit;
        if found : bool then addMateCandidates fuel' a3 s
        else
          let c3 := cursors a3 in
          Ok (set_cursors
                (set_outOfMoreHitsLocations s true
                   (set_lastMore s 0 (get2 (lastSeedOffsetForReadWithMoreHits c3) s) c3))
                a3)
    else Ok a
  end.

(** The scan of lines 505-511 over the mates, newest first. *)
Fixpoint lowestBestPossibleScore (newestFirst : list Mate.t) (limit : GenomeLocation)
    (lowestBestPossibleScoreOfAnyPossibleMate : Z) : Z :=
  match newestFirst with
  | [] => lowestBestPossibleScoreOfAnyPossibleMate
  | mate :: rest =>
    if limit <? Mate.readWithMoreHitsGenomeLocation mate
    then lowestBestPossibleScoreOfAnyPossibleMate
    else lowestBestPossibleScore rest limit
           (Z.min lowestBestPossibleScoreOfAnyPossibleMate (Mate.bestPossibleScore mate))
  end.

(** [align_phase_2_single_step_add_candidate]. *)
Definition align_phase_2_single_step_add_candidate (fuel : nat) (a : Aligner)
    (whichSetPair clusterIdx : Z) : Res (bool * Aligner) :=
  let s := whichSetPair in
  do a1 <- addMateCandidates fuel a s;
  do (bestPossibleScoreForReadWithFewerHits, a2) <-
    (if noTruncation cfg then Ok (0, a1)
     else
       do (b, h) <- computeBestPossibleScoreForCurrentHit
                      (getSetPair a1 s (readWithFewerHits a1));
       Ok (b, putSetPair a1 s (readWithFewerHits a1) h));
  let lastFewer := get2 (lastGenomeLocationForReadWithFewerHits (cursors a2)) s in
  let mates := get2 (scoringMateCandidates (arenas a2)) s in
  let lowestBestPossibleScoreOfAnyPossibleMate :=
    lowestBestPossibleScore (rev mates) (lastFewer + maxSpacing cfg)
                            (wrap32 (maxK cfg + extraSearchDepth cfg)) in
  do a3 <-
    (if wrap32 (lowestBestPossibleScoreOfAnyPossibleMate + bestPossibleScoreForReadWithFewerHits)
          <=? wrap32 (maxK cfg + extraSearchDepth cfg) then
       let p := arenas a2 in
       let lowestFreeScoringCandidatePoolEntry := length (scoringCandidatePool p) in
       if scoringCandidatePoolSize cfg <=? Z.of_nat lowestFreeScoringCandidatePoolEntry
       then SoftExit
       else
         let clusterScorePenalty :=
           if clusterIdx =? -1 then clusterEDCompensation cfg else 0 in
         let bestPossibleScore :=
           if noOrderedEvaluation cfg then 0
           else wrap32 (lowestBestPossibleScoreOfAnyPossibleMate
                        + bestPossibleScoreForReadWithFewerHits + clusterScorePenalty) in
         do head <- readArray (scoringCandidates p) bestPossibleScore;
         let candidate :=
           Cand.init lastFewer s (wrap32 (Z.of_nat (length mates) - 1))
                     (get2 (lastSeedOffsetForReadWithFewerHits (cursors a2)) s)
                     bestPossibleScoreForReadWithFewerHits head clusterIdx in
         do heads' <- writeArray (scoringCandidates p) bestPossibleScore
                        (Some lowestFreeScoringCandidatePoolEntry);
         Ok (set_arenas
               (set_maxUsedBestPossibleScoreList
                  (Z.max (maxUsedBestPossibleScoreList p) bestPossibleScore)
                  (set_scoringCandidates heads'
                     (set_scoringCandidatePool (scoringCandidatePool p ++ [candidate]) p)))
               a2)
     else Ok a2);
  do (found, a4) <- moveFewer a3 s getNextLowerHit;
  Ok (negb found, a4).






(** ** Phase 1: seed lookups *)

Definition nTable (c : ascii) : Z := if Ascii.eqb c "N" then 1 else 0.

Definition rcTranslationTable (c : ascii) : ascii :=
  if Ascii.eqb c "A" then "T"%char
  else if Ascii.eqb c "G" then "C"%char
  else if Ascii.eqb c "C" then "G"%char
  else if Ascii.eqb c "T" then "A"%char
  else if Ascii.eqb c "N" then "N"%char
  else rcTranslationTableRest cfg c.

(** [countOfNs += nTable[read->getData()[i]]] over one read. *)
Definition countNs (data : list ascii) (countOfNs : Z) : Z :=
  fold_left (fun n c => wrap32 (n + nTable c)) data countOfNs.

(** The reverse complement that [reads[whichRead][RC]] is initialised with. *)
Definition rcRead (read : Read.t) : Read.t :=
  Read.mk (Read.id read)
          (map (fun bq => (rcTranslationTable (fst bq), snd bq)) (rev (Read.bases read))).

(** [scoringCandidates[k] = NULL] for [k] from [k] on, [n] times. *)
Fixpoint clearScoreLists (n : nat) (k : Z) (heads : list (option nat))
    : Res (list (option nat)) :=
  match n with
  | O => Ok heads
  | S n' => do heads' <- writeArray heads k None; clearScoreLists n' (k + 1) heads'
  end.

(** [memset(seedUsed, 0, nBytes)]. *)
Definition clearSeedUsed (nBytes : Z) (bits : list bool) : Res (list bool) :=
  let n := Z.to_nat (8 * nBytes) in
  if (length bits <? n)%nat then OutOfBounds
  else Ok (replicate n false ++ drop n bits).

(** Modelled from the spec: [IsSeedUsed] and [SetSeedUsed] are in the class
    header, which is not part of the sources; they test and set the bit of an
    offset in the bitmap of used offsets. *)
Definition IsSeedUsed (bits : list bool) (indexInRead : Z) : Res bool :=
  readArray bits indexInRead.
Definition SetSeedUsed (bits : list bool) (indexInRead : Z) : Res (list bool) :=
  writeArray bits indexInRead true.

(** The locals of the seed loop of one read, with the members it updates. *)
Record SeedLoop : Type := mkSeedLoop {
  nextSeedToTest : Z;
  wrapCount : Z;
  beginsDisjointHitSet : bool * bool;
  lookupsDone : Z;                         (* countOfHashTableLookups[whichRead] *)
  hitSetsOfRead : HitSet.t * HitSet.t;     (* hashTableHitSets[whichRead] *)
  hitsOfRead : Z * Z;                      (* totalHashTableHits[whichRead] *)
  popularSkipped : Z;                      (* popularSeedsSkipped[whichRead] *)
  usedBits : list bool;                    (* seedUsed *)
  lookupLog : list (list ascii)
}.

Definition set_nextSeedToTest (n : Z) (l : SeedLoop) : SeedLoop :=
  mkSeedLoop n (wrapCount l) (beginsDisjointHitSet l) (lookupsDone l) (hitSetsOfRead l)
             (hitsOfRead l) (popularSkipped l) (usedBits l) (lookupLog l).
Definition set_usedBits (b : list bool) (l : SeedLoop) : SeedLoop :=
  mkSeedLoop (nextSeedToTest l) (wrapCount l) (beginsDisjointHitSet l) (lookupsDone l)
             (hitSetsOfRead l) (hitsOfRead l) (popularSkipped l) b (lookupLog l).

(** [while (nextSeedToTest < nPossibleSeeds && IsSeedUsed(nextSeedToTest))
    nextSeedToTest++]. *)
Fixpoint skipUsedSeeds (fuel : nat) (bits : list bool) (nPossibleSeeds next : Z) : Res Z :=
  match fuel with
  | O => OutOfFuel
  | S fuel' =>
    if next <? nPossibleSeeds then
      do used <- IsSeedUsed bits next;
      if used : bool then skipUsedSeeds fuel' bits nPossibleSeeds (next + 1) else Ok next
    else Ok next
  end.

(** Lines 350-371 for one direction: record the lookup or count the seed as
    popular. *)
Definition recordDirection (readLen_ next : Z) (dir : Z)
    (found : Z * list GenomeLocation) (l : SeedLoop) : Res SeedLoop :=
  let '(nHits, hits) := found in
  let offset := if dir =? FORWARD then next else readLen_ - seedLen cfg - next in
  if nHits <? maxBigHits cfg then
    do h <- recordLookup (get2 (hitSetsOfRead l) dir) offset nHits hits
                         (get2 (beginsDisjointHitSet l) dir);
    Ok (mkSeedLoop (nextSeedToTest l) (wrapCount l)
                   (set2 (beginsDisjointHitSet l) dir false) (lookupsDone l)
                   (set2 (hitSetsOfRead l) dir h)
                   (set2 (hitsOfRead l) dir (get2 (hitsOfRead l) dir + nHits))
                   (popularSkipped l) (usedBits l) (lookupLog l))
  else
    Ok (mkSeedLoop (nextSeedToTest l) (wrapCount l) (beginsDisjointHitSet l) (lookupsDone l)
                   (hitSetsOfRead l) (hitsOfRead l) (wrap32 (popularSkipped l + 1))
                   (usedBits l) (lookupLog l)).

(** The seed loop of one read, lines 295-384.  The comparisons against
    [countOfHashTableLookups] are unsigned. *)
Fixpoint seedLoop (fuel : nat) (data : list ascii) (readLen_ maxSeeds nPossibleSeeds : Z)
    (l : SeedLoop) : Res SeedLoop :=
  match fuel with
  | O => OutOfFuel
  | S fuel' =>
    if (lookupsDone l <? wrap32 nPossibleSeeds) && (lookupsDone l <? wrap32 maxSeeds) then
      let wrapped :=
        if nPossibleSeeds <=? nextSeedToTest l then
          let wrapCount' := wrap32 (wrapCount l + 1) in
          let l' := mkSeedLoop (nextSeedToTest l) wrapCount' (true, true) (lookupsDone l)
                               (hitSetsOfRead l) (hitsOfRead l) (popularSkipped l)
                               (usedBits l) (lookupLog l) in
          if seedLen cfg <=? wrapCount' then (l', true)
          else (set_nextSeedToTest (GetWrappedNextSeedToTest E (seedLen cfg) wrapCount') l',
                false)
        else (l, false) in
      let '(l1, break) := wrapped in
      if break : bool then Ok l1
      else
        do next <- skipUsedSeeds (S (Z.to_nat (nPossibleSeeds - nextSeedToTest l1)))
                                 (usedBits l1) nPossibleSeeds (nextSeedToTest l1);
        if nPossibleSeeds <=? next then
          seedLoop fuel' data readLen_ maxSeeds nPossibleSeeds (set_nextSeedToTest next l1)
        else
          do bits <- SetSeedUsed (usedBits l1) next;
          let l2 := set_usedBits bits (set_nextSeedToTest next l1) in
          let text := take (Z.to_nat (seedLen cfg)) (drop (Z.to_nat next) data) in
          if negb (DoesTextRepresentASeed E text) then
            seedLoop fuel' data readLen_ maxSeeds nPossibleSeeds
                     (set_nextSeedToTest (next + 1) l2)
          else
            let '(forwardHits, rcHits) := lookupSeed E text in
            let count := wrap32 (lookupsDone l2 + 1) in
            let l3 := mkSeedLoop next (wrapCount l2) (beginsDisjointHitSet l2) count
                                 (hitSetsOfRead l2) (hitsOfRead l2) (popularSkipped l2)
                                 (usedBits l2) (lookupLog l2 ++ [text]) in
            do l4 <- recordDirection readLen_ next FORWARD forwardHits l3;
            do l5 <- recordDirection readLen_ next RC rcHits l4;
            let seedsLeft := wrap32 (maxSeeds - count + 1) in
            let next' :=
              if wrap32 (seedsLeft * seedLen cfg + next) <? wrap32 nPossibleSeeds then
                int32 (next + wrap32 (nPossibleSeeds - next - 1) ÷ seedsLeft)
              else next + seedLen cfg in
            seedLoop fuel' data readLen_ maxSeeds nPossibleSeeds (set_nextSeedToTest next' l5)
    else Ok l
  end.

(** Lines 235-264 for one read: reset its counters and hit sets, refuse a
    read that is too long, build the reverse complement and count the Ns. *)
Definition prepareRead (whichRead : Z) (st : Aligner * (Z * Z) * Z)
    : Res (Aligner * (Z * Z) * Z) :=
  let '(a, popularSeedsSkipped, countOfNs) := st in
  let sd := seeding a in
  let read := get2 (get2 (reads sd) whichRead) FORWARD in
  let len := Read.getDataLength read in
  let clearPair (x : (Z * Z) * (Z * Z)) := set2 x whichRead (0, 0) in
  let hs := get2 (hashTableHitSets a) whichRead in
  let a1 :=
    set_hashTableHitSets
      (set2 (hashTableHitSets a) whichRead (HitSet_init (fst hs), HitSet_init (snd hs)))
      (set_readLen (set2 (readLen a) whichRead len) a) in
  let sd1 := mkSeeding (reads sd) (reversedRead sd) (seedUsed sd)
                       (set2 (countOfHashTableLookups sd) whichRead 0)
                       (clearPair (totalHashTableHits sd)) (clearPair (largestHashTableHit sd))
                       (seedLookups sd) in
  if maxReadSize cfg <? len then SoftExit
  else
    let sd2 := mkSeeding (set2 (reads sd1) whichRead (read, rcRead read))
                         (reversedRead sd1) (seedUsed sd1) (countOfHashTableLookups sd1)
                         (totalHashTableHits sd1) (largestHashTableHit sd1) (seedLookups sd1) in
    Ok (set_seeding sd2 a1, set2 popularSeedsSkipped whichRead 0,
        countNs (Read.getData read) countOfNs).

(** Lines 273-281: the reversed data of both directions of one read. *)
Definition reverseRead (whichRead : Z) (a : Aligner) : Aligner :=
  let sd := seeding a in
  let r := get2 (reads sd) whichRead in
  set_seeding
    (mkSeeding (reads sd)
               (set2 (reversedRead sd) whichRead
                     (rev (Read.getData (fst r)), rev (Read.getData (snd r))))
               (seedUsed sd) (countOfHashTableLookups sd) (totalHashTableHits sd)
               (largestHashTableHit sd) (seedLookups sd)) a.

(** Lines 288-385 for one read. *)
Definition lookupSeeds (fuel : nat) (maxSeeds : Z) (whichRead : Z)
    (st : Aligner * (Z * Z)) : Res (Aligner * (Z * Z)) :=
  let '(a, popularSeedsSkipped) := st in
  let sd := seeding a in
  let len := get2 (readLen a) whichRead in
  let nPossibleSeeds := int32 (len - seedLen cfg + 1) in
  do bits <- clearSeedUsed ((Z.max (fst (readLen a)) (snd (readLen a)) + 7) ÷ 8) (seedUsed sd);
  let l0 := mkSeedLoop 0 0 (true, true) (get2 (countOfHashTableLookups sd) whichRead)
                       (get2 (hashTableHitSets a) whichRead)
                       (get2 (totalHashTableHits sd) whichRead)
                       (get2 popularSeedsSkipped whichRead) bits (seedLookups sd) in
  do l <- seedLoop fuel (Read.getData (get2 (get2 (reads sd) whichRead) FORWARD))
                   len maxSeeds nPossibleSeeds l0;
  let sd' := mkSeeding (reads sd) (reversedRead sd) (usedBits l)
                       (set2 (countOfHashTableLookups sd) whichRead (lookupsDone l))
                       (set2 (totalHashTableHits sd) whichRead (hitsOfRead l))
                       (largestHashTableHit sd) (lookupLog l) in
  Ok (set_seeding sd'
        (set_hashTableHitSets (set2 (hashTableHitSets a) whichRead (hitSetsOfRead l)) a),
      set2 popularSeedsSkipped whichRead (popularSkipped l)).

(** Lines 273-385: the reversed reads, then the seed lookups of read 0 and of
    read 1. *)
Definition lookupAllSeeds (fuel : nat) (maxSeeds : Z) (a : Aligner)
    (popularSeedsSkipped : Z * Z) : Res (Aligner * (Z * Z)) :=
  let a2 := reverseRead 1 (reverseRead 0 a) in
  do st1 <- lookupSeeds fuel maxSeeds 0 (a2, popularSeedsSkipped);
  lookupSeeds fuel maxSeeds 1 st1.

(** Line 387: the read with more hits is read 0 only when it has strictly
    more. *)
Definition chooseReadWithMoreHits (a : Aligner) : Aligner :=
  let total (r : Z) :=
    fst (get2 (totalHashTableHits (seeding a)) r)
    + snd (get2 (totalHashTableHits (seeding a)) r) in
  let more := if total 1 <? total 0 then 0 else 1 in
  set_readWithMoreHits more (1 - more) a.

(** [align_phase_1]: the value returned, the aligner and the caller's
    [popularSeedsSkipped] array.  ([probabilityForED], which is cleared next to
    [scoringCandidates] and which nothing in this file reads, is left out.) *)
Definition align_phase_1 (fuel : nat) (a : Aligner) (read0 read1 : Read.t)
    (popularSeedsSkipped : Z * Z) : Res (bool * Aligner * (Z * Z)) :=
  let maxSeeds :=
    if negb (numSeedsFromCommandLine cfg =? 0) then int32 (numSeedsFromCommandLine cfg)
    else maxSeedsFromCoverage E
           (Z.max (Read.getDataLength read0) (Read.getDataLength read1)) in
  do heads <- clearScoreLists (Z.to_nat (wrap32 (maxK cfg + extraSearchDepth cfg) + 1)) 0
                              (scoringCandidates (arenas a));
  let p := mkPools [] ([], []) [] heads (maxUsedBestPossibleScoreList (arenas a))
                   (nLocationsScored (arenas a)) in
  let sd := seeding a in
  let sd0 := mkSeeding ((read0, snd (fst (reads sd))), (read1, snd (snd (reads sd))))
                       (reversedRead sd) (seedUsed sd) (countOfHashTableLookups sd)
                       (totalHashTableHits sd) (largestHashTableHit sd) (seedLookups sd) in
  let a0 := set_seeding sd0 (set_arenas p a) in
  if (Read.getDataLength read0 <? seedLen cfg) || (Read.getDataLength read1 <? seedLen cfg)
  then Ok (true, a0, popularSeedsSkipped)
  else
    do st0 <- prepareRead 0 (a0, popularSeedsSkipped, 0);
    do (a1, popularSeedsSkipped1, countOfNs) <- prepareRead 1 st0;
    if maxK cfg <? countOfNs then Ok (true, a1, popularSeedsSkipped1)
    else
      do (a3, popularSeedsSkipped3) <- lookupAllSeeds fuel maxSeeds a1 popularSeedsSkipped1;
      Ok (false, chooseReadWithMoreHits a3, popularSeedsSkipped3).

(** ** The entry point *)

(** What a call of [align] can touch besides the aligner: the result record,
    the caller's buffer and its count. *)
Record Outputs : Type := mkOutputs {
  result : Result.t;
  nSecondaryResults : Z;
  secondaryResultBuffer : list Result.t
}.

(** [align]: its body is commented out down to the final [return true]. *)
Definition align (a : Aligner) (read0 read1 : Read.t) (out : Outputs)
    (maxEditDistanceForSecondaryResults secondaryResultBufferSize : Z)
    (maxSecondaryResultsToReturn : Z) : Res (bool * Aligner * Outputs) :=
  Ok (true, a, out).

End Core.

(** ** Sequences of calls *)

(** A sequence of [align_phase_3_increment_cluster] calls made for one pair:
    each call comes with the anchor pool and the best score of that moment,
    and all of them share the counters and the pair's toggles. *)
Fixpoint increment_cluster_calls (cfg : Config) (calls : list (list Anchor.t * Z))
    (cl : Clusters) : Res Clusters :=
  match calls with
  | [] => Ok cl
  | (anchors, bestCompensatedScore) :: rest =>
    do cl' <- align_phase_3_increment_cluster cfg anchors bestCompensatedScore cl;
    increment_cluster_calls cfg rest cl'
  end.

(** ** Invariants of the cluster counters *)

Definition countersBounded (clusterCounterAry : list Z) : Prop :=
  Forall (fun count => 0 <= count <= UINT8_MAX) clusterCounterAry.

(** What one pair may do to the counters between two moments: the arrays keep
    their sizes, a set toggle stays set and freezes its counter, and a counter
    that changed went up by one while its toggle went from clear to set. *)
Definition incrementedOnce (cl cl' : Clusters) : Prop :=
  length (fst cl') = length (fst cl) /\ length (snd cl') = length (snd cl) /\
  forall c : nat,
    (snd cl !! c = Some true -> snd cl' !! c = Some true /\ fst cl' !! c = fst cl !! c) /\
    (forall count count', fst cl !! c = Some count -> fst cl' !! c = Some count' ->
       count' = count \/
       (count' = count + 1 /\ snd cl !! c = Some false /\ snd cl' !! c = Some true)).

(** ** Invariants of the scoring pass *)

(** The mate a pointer (set pair, index) designates. *)
Definition mateAt (p : Pools) (ptr : Z * Z) : Res Mate.t :=
  readArray (get2 (scoringMateCandidates p) (fst ptr)) (snd ptr).

(** The spacing window of the spec: the mate's locus lies in
    [C - maxSpacing, C - minSpacing] or in [C + minSpacing, C + maxSpacing]. *)
Definition inSpacingWindow (cfg : Config) (candidateLocus mateLocus : GenomeLocation) : Prop :=
  (candidateLocus - maxSpacing cfg <= mateLocus <= candidateLocus - minSpacing cfg) \/
  (candidateLocus + minSpacing cfg <= mateLocus <= candidateLocus + maxSpacing cfg).

(** The candidate and the mate of a pair exist in the pools, the mate is a
    mate of the candidate's set pair, and their loci respect the window. *)
Definition pairInWindow (cfg : Config) (p : Pools) (candIdx : nat) (ptr : Z * Z) : Prop :=
  exists c m,
    scoringCandidatePool p !! candIdx = Some c /\ mateAt p ptr = Ok m /\
    fst ptr = Cand.whichSetPair c /\
    inSpacingWindow cfg (Cand.readWithFewerHitsGenomeLocation c)
                    (Mate.readWithMoreHitsGenomeLocation m).

(** Every pair held by a merge anchor, which is what
    [align_phase_3_generate_results] reports, respects the window. *)
Definition anchorsInWindow (cfg : Config) (p : Pools) : Prop :=
  forall i a, mergeAnchorPool p !! i = Some a ->
    pairInWindow cfg p (Anchor.candidate a) (Anchor.mate a).

(** Every mate that was scored was scored for a candidate whose window it is
    in. *)
Definition scoredInWindow (cfg : Config) (p : Pools) (log : list (nat * (Z * Z))) : Prop :=
  forall e, e ∈ log -> pairInWindow cfg p (fst e) (snd e).

(** The assertion of line 777 for the first mate of every candidate: the mate
    at [scoringMateCandidateIndex] is within [maxSpacing] of the candidate. *)
Definition firstMatesInRange (cfg : Config) (p : Pools) : Prop :=
  forall i c m,
    scoringCandidatePool p !! i = Some c ->
    mateAt p (Cand.whichSetPair c, Cand.scoringMateCandidateIndex c) = Ok m ->
    genomeLocationIsWithin (Mate.readWithMoreHitsGenomeLocation m)
                           (Cand.readWithFewerHitsGenomeLocation c) (maxSpacing cfg) = true.

(** What scoring never writes in a candidate. *)
Definition candidateKey (c : Cand.t) : GenomeLocation * Z * Z * option nat * Z :=
  (Cand.readWithFewerHitsGenomeLocation c, Cand.whichSetPair c,
   Cand.scoringMateCandidateIndex c, Cand.scoreListNext c, Cand.clusterIdx c).

(** Two states of the arenas with the same candidates and mates, up to what
    scoring writes. *)
Definition keysKept (p p' : Pools) : Prop :=
  candidateKey <$> scoringCandidatePool p' = candidateKey <$> scoringCandidatePool p /\
  Mate.readWithMoreHitsGenomeLocation <$> fst (scoringMateCandidates p')
  = Mate.readWithMoreHitsGenomeLocation <$> fst (scoringMateCandidates p) /\
  Mate.readWithMoreHitsGenomeLocation <$> snd (scoringMateCandidates p')
  = Mate.readWithMoreHitsGenomeLocation <$> snd (scoringMateCandidates p).

(** The spacing invariant of a scoring pass. *)
Definition spacingInvariant (cfg : Config) (st : Scoring) : Prop :=
  firstMatesInRange cfg (pools st) /\ anchorsInWindow cfg (pools st) /\
  scoredInWindow cfg (pools st) (matesScored st).


(** The penalty in edit distance of a candidate or anchor that has no
    cluster. *)
Definition astrayOf (cfg : Config) (clusterIdx : Z) : Z :=
  if clusterIdx =? -1 then clusterEDCompensation cfg else 0.

(** The score limit a pass that is not in revise mode starts from. *)
Definition fullLimit (cfg : Config) : Z :=
  maxK cfg + extraSearchDepth cfg + clusterEDCompensation cfg.

(** The three distances are not negative and small enough that no score
    computed from them wraps around. *)
Definition saneConfig (cfg : Config) : Prop :=
  0 <= maxK cfg /\ 0 <= extraSearchDepth cfg /\ 0 <= clusterEDCompensation cfg /\
  2 * fullLimit cfg < 2 ^ 31.

(** The contract of the scoring oracle (spec, 4.6): given a limit that is not
    negative, a scorer returns -1 or a score between 0 and the limit. *)
Definition scorerContract (E : Externals) : Prop :=
  (forall whichRead direction location seedOffset k, 0 <= k ->
     let score := fst (landauVishkin E whichRead direction location seedOffset k) in
     score = -1 \/ 0 <= score <= k) /\
  (forall whichRead direction location seedOffset k, 0 <= k ->
     let score := fst (fst (reverseLandauVishkin E whichRead direction location seedOffset k)) in
     score = -1 \/ 0 <= score <= k).

(** Every mate is unscored (-2), failed (-1) or has a score within the full
    limit. *)
Definition mateScoresBounded (cfg : Config) (p : Pools) : Prop :=
  forall ptr m, mateAt p ptr = Ok m ->
    Mate.score m = NEG2 \/ Mate.score m = NEG1 \/ 0 <= Mate.score m <= fullLimit cfg.

(** Every anchor's pair score, with its astray penalty, is within twice the
    full limit. *)
Definition anchorsBounded (cfg : Config) (p : Pools) : Prop :=
  forall i a, mergeAnchorPool p !! i = Some a ->
    0 <= Anchor.pairScore a /\
    Anchor.pairScore a + astrayOf cfg (Anchor.clusterIdx a) <= 2 * fullLimit cfg.

(** The list that starts at [head] runs through candidates of the pool whose
    astray penalty is at most the list's index [k], and ends: what
    [align_phase_2_single_step_add_candidate] builds when the evaluation is
    ordered. *)
Inductive listPenalised (cfg : Config) (pool : list Cand.t) (k : Z) : option nat -> Prop :=
| listPenalised_nil : listPenalised cfg pool k None
| listPenalised_cons (i : nat) (c : Cand.t) :
    pool !! i = Some c ->
    astrayOf cfg (Cand.clusterIdx c) <= k ->
    listPenalised cfg pool k (Cand.scoreListNext c) ->
    listPenalised cfg pool k (Some i).

Definition listsPenalised (cfg : Config) (p : Pools) : Prop :=
  forall k head, scoringCandidates p !! k = Some head ->
    listPenalised cfg (scoringCandidatePool p) (Z.of_nat k) head.

(** The score invariant of a pass that is not in revise mode. *)
Definition scoreInvariant (cfg : Config) (st : Scoring) : Prop :=
  0 <= scoreLimit st <= fullLimit cfg /\
  mateScoresBounded cfg (pools st) /\
  anchorsBounded cfg (pools st) /\
  listsPenalised cfg (pools st).


(** The value a cluster counter takes when a pair is counted for it. *)
Definition bumped (count : Z) : Z :=
  if count =? UINT8_MAX then count else wrap8 (count + 1).

(** How the counters and toggles stand after some anchors were looked at: a
    cluster whose toggle was set is as it was, and a cluster whose toggle was
    clear is either as it was or toggled with its counter bumped. *)
Definition toggledSince (cl cl' : Clusters) : Prop :=
  forall c : nat,
    (snd cl !! c = Some true -> snd cl' !! c = Some true /\ fst cl' !! c = fst cl !! c) /\
    (snd cl !! c = Some false ->
     (snd cl' !! c = Some false /\ fst cl' !! c = fst cl !! c) \/
     (snd cl' !! c = Some true /\ fst cl' !! c = bumped <$> fst cl !! c)).


(** ** Invariants of the hit sets *)

(** The hits of a lookup, as the index returns them: from the largest
    location to the smallest. *)
Definition hitsDescend (lk : Lookup.t) : Prop :=
  forall (i : nat) (x y : GenomeLocation),
    Lookup.hits lk !! i = Some x -> Lookup.hits lk !! S i = Some y -> y < x.

(** The assertion of line 1724 on one lookup: it is exhausted, or its current
    hit gives a location that is not above the most recent location returned,
    or lies before the seed offset. *)
Definition lookupBehind (mostRecentLocationReturned : GenomeLocation) (lk : Lookup.t) : Prop :=
  Lookup.currentHitForIntersection lk = Lookup.nHits lk \/
  exists hit,
    Lookup.hits lk !! Z.to_nat (Lookup.currentHitForIntersection lk) = Some hit /\
    (hit - Lookup.seedOffset lk <= mostRecentLocationReturned \/ hit < Lookup.seedOffset lk).




(** ** Invariants of phase 2 *)

(** Every candidate has its first mate, and that mate is within [maxSpacing]
    of it: the assertion of line 777 together with the validity of the index
    it reads. *)
Definition firstMatesAtHand (cfg : Config) (p : Pools) : Prop :=
  forall i c, scoringCandidatePool p !! i = Some c ->
    exists m,
      mateAt p (Cand.whichSetPair c, Cand.scoringMateCandidateIndex c) = Ok m /\
      genomeLocationIsWithin (Mate.readWithMoreHitsGenomeLocation m)
                             (Cand.readWithFewerHitsGenomeLocation c) (maxSpacing cfg) = true.

(** The more-hits cursor of a set pair follows its hit set: the hits descend,
    the assertion of [getNextLowerHit] holds, and while hits are left the
    cursor is the most recent location the hit set returned. *)
Definition moreCursorTracked (a : Aligner) (s : Z) : Prop :=
  let h := getSetPair a s (readWithMoreHits a) in
  Forall hitsDescend (HitSet.lookups h) /\
  Forall (lookupBehind (HitSet.mostRecentLocationReturned h)) (HitSet.lookups h) /\
  (get2 (outOfMoreHitsLocations (cursors a)) s = false ->
   HitSet.mostRecentLocationReturned h
   = get2 (lastGenomeLocationForReadWithMoreHits (cursors a)) s).

(** The mates and candidates that a step of phase 2 adds to the arenas [p] for
    the set pair [s]: both pools only grow at their ends, and nothing else
    changes but the score lists. *)
Definition poolsGrow (s : Z) (p p' : Pools) (newMates : list Mate.t)
    (newCandidates : list Cand.t) : Prop :=
  scoringMateCandidates p'
  = set2 (scoringMateCandidates p) s (get2 (scoringMateCandidates p) s ++ newMates) /\
  scoringCandidatePool p' = scoringCandidatePool p ++ newCandidates /\
  mergeAnchorPool p' = mergeAnchorPool p /\
  nLocationsScored p' = nLocationsScored p.


(** What scoring may do to its state between two moments, whatever the
    arenas hold: the candidates and mates keep what phase 2 recorded, merge
    anchors are only added, the count of scored locations does not go down,
    the score lists keep their number, and the best score is either as it was
    or strictly lower as an [unsigned] and then at most
    [maxK + clusterEDCompensation]; in revise mode it is as it was, and so is
    the score limit. *)
Definition scoringAdvances (cfg : Config) (inRevise : bool) (st st' : Scoring) : Prop :=
  keysKept (pools st) (pools st') /\
  (length (mergeAnchorPool (pools st)) <= length (mergeAnchorPool (pools st')))%nat /\
  nLocationsScored (pools st) <= nLocationsScored (pools st') /\
  maxUsedBestPossibleScoreList (pools st') = maxUsedBestPossibleScoreList (pools st) /\
  length (scoringCandidates (pools st')) = length (scoringCandidates (pools st)) /\
  (inRevise = true ->
   bestCompensatedScore st' = bestCompensatedScore st /\ scoreLimit st' = scoreLimit st) /\
  (bestCompensatedScore st' = bestCompensatedScore st \/
   (wrap32 (bestCompensatedScore st') < wrap32 (bestCompensatedScore st) /\
    wrap32 (bestCompensatedScore st') <= wrap32 (maxK cfg + clusterEDCompensation cfg))).


(** The score list that starts at [head] runs through [n] candidates of the
    pool and ends. *)
Inductive listFrom (pool : list Cand.t) : option nat -> nat -> Prop :=
| listFrom_nil : listFrom pool None 0
| listFrom_cons (i : nat) (c : Cand.t) (n : nat) :
    pool !! i = Some c -> listFrom pool (Cand.scoreListNext c) n ->
    listFrom pool (Some i) (S n).

(** Every score list of the arenas ends; [lens] gives their lengths. *)
Definition listsFrom (p : Pools) (lens : list nat) : Prop :=
  Forall2 (listFrom (scoringCandidatePool p)) (scoringCandidates p) lens.


(** The local [maxSeeds] of [align_phase_1]: the command-line value, or the
    one derived from the seed coverage when that is 0. *)
Definition maxSeedsToUse (cfg : Config) (E : Externals) (read0 read1 : Read.t) : Z :=
  if negb (numSeedsFromCommandLine cfg =? 0) then int32 (numSeedsFromCommandLine cfg)
  else maxSeedsFromCoverage E (Z.max (Read.getDataLength read0) (Read.getDataLength read1)).


(** ** Phase 4: finishing the results *)

(** What phase 4 calls but does not define, together with the members it reads
    that the constructor copies from its caller.  The two sorts stand for
    [qsort] with [PairedAlignmentResult::compareByContigAndScore] and with
    [PairedAlignmentResult::compareByScore]. *)
Record Finishing : Type := mkFinishing {
  (* computeMAPQ(probabilityOfAllPairs, probability of the pair, score, popularSeedsSkipped) *)
  computeMAPQ : float -> float -> Z -> Z -> Z;
  printStatsMapQLimit : Z;
  ignoreAlignmentAdjustmentsForOm : bool;
  (* alignmentAdjuster.AdjustAlignments(inputReads, result) *)
  AdjustAlignments : Read.t * Read.t -> Result.t -> Result.t;
  maxSecondaryAlignmentsPerContig : Z;
  (* genome->getContigNumAtLocation *)
  getContigNumAtLocation : GenomeLocation -> Z;
  compareByContigAndScore_qsort : list Result.t -> list Result.t;
  compareByScore_qsort : list Result.t -> list Result.t
}.

(** [hitsPerContigCounts], one (hits, epoch) entry per contig, and
    [contigCountEpoch]. *)
Record ContigCounts : Type := mkContigCounts {
  contigCountEpoch : Z;
  hitsPerContigCounts : list (Z * Z)
}.

(** What phase 4 leaves behind: its reference and pointer arguments and the
    contig counters. *)
Record Finished : Type := mkFinished {
  finBestCompensatedScore : Z;
  finNSecondaryResults : Z;
  finSecondaryResults : list Result.t;
  finBestResult : Result.t;
  finCounts : ContigCounts
}.

Definition isNotFound (s : AlignmentResult) : bool :=
  match s with NotFound => true | _ => false end.

(** [status[0] != NotFound && status[1] != NotFound]. *)
Definition bothFound (r : Result.t) : bool :=
  negb (isNotFound (fst (Result.status r))) && negb (isNotFound (snd (Result.status r))).

(** One turn of the loop that fills [mapq], [status] and
    [clippingForReadAdjustment] of the best result. *)
Definition setMapqAndStatus (X : Finishing) (probabilityOfAllPairs : float)
    (popularSeedsSkipped : Z * Z) (whichRead : Z) (r : Result.t) : Result.t :=
  let mapq :=
    computeMAPQ X probabilityOfAllPairs (Result.probability r)
                (get2 (Result.score r) whichRead)
                (wrap32 (fst popularSeedsSkipped + snd popularSeedsSkipped)) in
  Result.mk (Result.alignedAsPair r) (Result.compensatedScore r) (Result.direction r)
    (Result.fromAlignTogether r) (Result.location r)
    (set2 (Result.mapq r) whichRead mapq) (Result.score r)
    (set2 (Result.status r) whichRead
          (if printStatsMapQLimit X <? mapq then SingleHit else MultipleHits))
    (Result.probability r) (Result.clusterIdx r)
    (set2 (Result.clippingForReadAdjustment r) whichRead 0)
    (Result.scorePriorToClipping r) (Result.nLVCalls r) (Result.nSmallHits r).

(** [scorePriorToClipping[whichRead] = score[whichRead]] for both reads. *)
Definition recordScorePriorToClipping (r : Result.t) : Result.t :=
  Result.mk (Result.alignedAsPair r) (Result.compensatedScore r) (Result.direction r)
    (Result.fromAlignTogether r) (Result.location r) (Result.mapq r) (Result.score r)
    (Result.status r) (Result.probability r) (Result.clusterIdx r)
    (Result.clippingForReadAdjustment r)
    (set2 (set2 (Result.scorePriorToClipping r) 0 (get2 (Result.score r) 0))
          1 (get2 (Result.score r) 1))
    (Result.nLVCalls r) (Result.nSmallHits r).

(** [score[0] + score[1] + astrayEDPenalty], as stored in [compensatedScore]. *)
Definition adjustedCompensatedScore (cfg : Config) (r : Result.t) : Z :=
  let astrayEDPenalty :=
    if negb (Result.clusterIdx r =? -1) then 0 else clusterEDCompensation cfg in
  int32 (wrap32 (fst (Result.score r) + snd (Result.score r) + astrayEDPenalty)).

Definition setCompensatedScore (r : Result.t) (c : Z) : Result.t :=
  Result.mk (Result.alignedAsPair r) c (Result.direction r)
    (Result.fromAlignTogether r) (Result.location r) (Result.mapq r) (Result.score r)
    (Result.status r) (Result.probability r) (Result.clusterIdx r)
    (Result.clippingForReadAdjustment r) (Result.scorePriorToClipping r)
    (Result.nLVCalls r) (Result.nSmallHits r).

(** The loop over the secondary results when alignments are adjusted; [count]
    is the number of turns left and [i] the loop variable. *)
Fixpoint adjustSecondaryResults (cfg : Config) (X : Finishing) (inputReads : Read.t * Read.t)
    (count : nat) (i : Z) (bestCompensatedScore : Z) (secondaryResults : list Result.t)
    : Res (Z * list Result.t) :=
  match count with
  | O => Ok (bestCompensatedScore, secondaryResults)
  | S count' =>
    do r <- readArray secondaryResults i;
    let adjusted := AdjustAlignments X inputReads (recordScorePriorToClipping r) in
    if bothFound adjusted && negb (ignoreAlignmentAdjustmentsForOm X) then
      let r' := setCompensatedScore adjusted (adjustedCompensatedScore cfg adjusted) in
      do secondaryResults' <- writeArray secondaryResults i r';
      adjustSecondaryResults cfg X inputReads count' (i + 1)
        (Z.min bestCompensatedScore (Result.compensatedScore r')) secondaryResults'
    else
      do secondaryResults' <- writeArray secondaryResults i adjusted;
      adjustSecondaryResults cfg X inputReads count' (i + 1) bestCompensatedScore
                             secondaryResults'
  end.

(** The loop over the secondary results when alignments are not adjusted. *)
Fixpoint recordSecondaryScores (count : nat) (i : Z) (secondaryResults : list Result.t)
    : Res (list Result.t) :=
  match count with
  | O => Ok secondaryResults
  | S count' =>
    do r <- readArray secondaryResults i;
    do secondaryResults' <- writeArray secondaryResults i (recordScorePriorToClipping r);
    recordSecondaryScores count' (i + 1) secondaryResults'
  end.

(** The test of the clean-up loop: the result is too far from the best score,
    or one of its reads was not found. *)
Definition tooFarOrNotFound (bestCompensatedScore maxEditDistanceForSecondaryResults : Z)
    (r : Result.t) : bool :=
  (int32 (bestCompensatedScore + maxEditDistanceForSecondaryResults)
     <? Result.compensatedScore r)
  || isNotFound (fst (Result.status r)) || isNotFound (snd (Result.status r)).

(** The clean-up loop.  Each turn either drops a result or moves on, so
    [nSecondaryResults - i + 1] turns are enough. *)
Fixpoint cleanUpLoop (fuel : nat) (bestCompensatedScore maxEditDistanceForSecondaryResults : Z)
    (i nSecondaryResults : Z) (secondaryResults : list Result.t)
    : Res (Z * list Result.t) :=
  match fuel with
  | O => OutOfFuel
  | S fuel' =>
    if i <? nSecondaryResults then
      do r <- readArray secondaryResults i;
      if tooFarOrNotFound bestCompensatedScore maxEditDistanceForSecondaryResults r then
        do last <- readArray secondaryResults (nSecondaryResults - 1);
        do secondaryResults' <- writeArray secondaryResults i last;
        cleanUpLoop fuel' bestCompensatedScore maxEditDistanceForSecondaryResults
                    i (nSecondaryResults - 1) secondaryResults'
      else
        cleanUpLoop fuel' bestCompensatedScore maxEditDistanceForSecondaryResults
                    (i + 1) nSecondaryResults secondaryResults
    else Ok (nSecondaryResults, secondaryResults)
  end.

(** The counting loop of the per-contig limit; it stops at the first contig
    with too many results and says whether there was one. *)
Fixpoint countHitsPerContig (X : Finishing) (epoch : Z) (count : nat) (i : Z)
    (secondaryResults : list Result.t) (counts : list (Z * Z))
    : Res (bool * list (Z * Z)) :=
  match count with
  | O => Ok (false, counts)
  | S count' =>
    do r <- readArray secondaryResults i;
    let contigNum := getContigNumAtLocation X (fst (Result.location r)) in
    do entry <- readArray counts contigNum;
    let hits := if negb (snd entry =? epoch) then 0 else fst entry in
    let hits' := int32 (hits + 1) in
    do counts' <- writeArray counts contigNum (hits', epoch);
    if maxSecondaryAlignmentsPerContig X <? hits' then Ok (true, counts')
    else countHitsPerContig X epoch count' (i + 1) secondaryResults counts'
  end.

(** The copying loop of the per-contig limit, over the sorted results. *)
Fixpoint keepHitsPerContig (X : Finishing) (primaryContigNum : Z) (count : nat)
    (sourceResult currentContigNum currentContigCount destResult : Z)
    (secondaryResults : list Result.t) : Res (Z * list Result.t) :=
  match count with
  | O => Ok (destResult, secondaryResults)
  | S count' =>
    do r <- readArray secondaryResults sourceResult;
    let contigNum := getContigNumAtLocation X (fst (Result.location r)) in
    let restarted :=
      if negb (contigNum =? currentContigNum)
      then (if contigNum =? primaryContigNum then 1 else 0)
      else currentContigCount in
    let currentContigCount' := int32 (restarted + 1) in
    if currentContigCount' <=? maxSecondaryAlignmentsPerContig X then
      do secondaryResults' <- writeArray secondaryResults destResult r;
      keepHitsPerContig X primaryContigNum count' (sourceResult + 1) contigNum
                        currentContigCount' (destResult + 1) secondaryResults'
    else
      keepHitsPerContig X primaryContigNum count' (sourceResult + 1) contigNum
                        currentContigCount' destResult secondaryResults
  end.

(** [qsort] of the first [n] results in place. *)
Definition qsortResults (sort : list Result.t -> list Result.t) (n : Z)
    (secondaryResults : list Result.t) : list Result.t :=
  sort (take (Z.to_nat n) secondaryResults) ++ drop (Z.to_nat n) secondaryResults.

Definition align_phase_4 (cfg : Config) (X : Finishing) (counts : ContigCounts)
    (read0 read1 : Read.t)
    (maxEditDistanceForSecondaryResults maxSecondaryResultsToReturn : Z)
    (popularSeedsSkipped : Z * Z) (bestCompensatedScore : Z) (probabilityOfAllPairs : float)
    (nSecondaryResults : Z) (secondaryResults : list Result.t) (bestResult : Result.t)
    : Res Finished :=
  let bestResult1 :=
    if negb (bestCompensatedScore =? -1) then
      setMapqAndStatus X probabilityOfAllPairs popularSeedsSkipped 1
        (setMapqAndStatus X probabilityOfAllPairs popularSeedsSkipped 0 bestResult)
    else bestResult in
  let inputReads := (read0, read1) in
  let bestResult2 := recordScorePriorToClipping bestResult1 in
  do adjusted <-
    (if negb (ignoreAlignmentAdjustmentsForOm X) then
       let bestResult3 := AdjustAlignments X inputReads bestResult2 in
       let '(best, bestResult4) :=
         if bothFound bestResult3 && negb (ignoreAlignmentAdjustmentsForOm X) then
           let c := adjustedCompensatedScore cfg bestResult3 in
           (c, setCompensatedScore bestResult3 c)
         else (bestCompensatedScore, bestResult3) in
       do res <- adjustSecondaryResults cfg X inputReads (Z.to_nat nSecondaryResults) 0
                                        best secondaryResults;
       Ok (fst res, snd res, bestResult4)
     else
       do secondaryResults' <- recordSecondaryScores (Z.to_nat nSecondaryResults) 0
                                                     secondaryResults;
       Ok (bestCompensatedScore, secondaryResults', bestResult2));
  let '(best, secondaryResults1, bestResult') := adjusted in
  do cleaned <- cleanUpLoop (S (Z.to_nat nSecondaryResults)) best
                            maxEditDistanceForSecondaryResults 0 nSecondaryResults
                            secondaryResults1;
  let '(n1, secondaryResults2) := cleaned in
  do limited <-
    (if (0 <? maxSecondaryAlignmentsPerContig X)
        && negb (isNotFound (fst (Result.status bestResult'))) then
       let epoch := int32 (contigCountEpoch counts + 1) in
       let primaryContigNum :=
         getContigNumAtLocation X (fst (Result.location bestResult')) in
       do counts1 <- writeArray (hitsPerContigCounts counts) primaryContigNum (1, epoch);
       do counted <- countHitsPerContig X epoch (Z.to_nat n1) 0 secondaryResults2 counts1;
       let '(anyContigHasTooManyResults, counts2) := counted in
       if anyContigHasTooManyResults then
         let sorted := qsortResults (compareByContigAndScore_qsort X) n1 secondaryResults2 in
         do kept <- keepHitsPerContig X primaryContigNum (Z.to_nat n1) 0 (-1) 0 0 sorted;
         Ok (fst kept, snd kept, mkContigCounts epoch counts2)
       else Ok (n1, secondaryResults2, mkContigCounts epoch counts2)
     else Ok (n1, secondaryResults2, counts));
  let '(n2, secondaryResults3, counts') := limited in
  if maxSecondaryResultsToReturn <? n2 then
    Ok (mkFinished best maxSecondaryResultsToReturn
                   (qsortResults (compareByScore_qsort X) n2 secondaryResults3)
                   bestResult' counts')
  else Ok (mkFinished best n2 secondaryResults3 bestResult' counts').

(** Every one of the first [n] results is close enough to the best score and
    has both reads found. *)
Definition allKeptQualify (bestCompensatedScore maxEditDistanceForSecondaryResults n : Z)
    (secondaryResults : list Result.t) : Prop :=
  Forall (fun r => tooFarOrNotFound bestCompensatedScore
                                    maxEditDistanceForSecondaryResults r = false)
         (take (Z.to_nat n) secondaryResults).


(** ** The per-contig limit *)

(** The contig that phase 4 takes a result to lie on: that of its first read. *)
Definition contigOf (X : Finishing) (r : Result.t) : Z :=
  getContigNumAtLocation X (fst (Result.location r)).

(** The number of results of [l] on contig [c]. *)
Definition hitsOn (X : Finishing) (c : Z) (l : list Result.t) : Z :=
  Z.of_nat (length (List.filter (fun r => contigOf X r =? c) l)).

(** The results of one contig stand next to each other. *)
Definition groupedByContig (X : Finishing) (l : list Result.t) : Prop :=
  forall (i j k : nat) (ri rj rk : Result.t),
    (i <= j <= k)%nat -> l !! i = Some ri -> l !! j = Some rj -> l !! k = Some rk ->
    contigOf X ri = contigOf X rk -> contigOf X rj = contigOf X ri.

(** No entry of [hitsPerContigCounts] carries an epoch later than
    [contigCountEpoch]. *)
Definition countsBehind (counts : ContigCounts) : Prop :=
  Forall (fun entry => snd entry <= contigCountEpoch counts) (hitsPerContigCounts counts).

(** The hits that the table holds for contig [c] in the epoch [epoch]. *)
Definition countedOn (epoch : Z) (counts : list (Z * Z)) (c : Z) : Z :=
  match readArray counts c with
  | Ok entry => if snd entry =? epoch then fst entry else 0
  | _ => 0
  end.

(** A key is in ascending order along a list. *)
Fixpoint ascending (key : Result.t -> Z) (l : list Result.t) : Prop :=
  match l with
  | [] => True
  | x :: l' => Forall (fun y => key x <= key y) l' /\ ascending key l'
  end.


(** ** The invariant of phase 2 *)










(** ** SmarterPairedEndAligner.h *)

Module Smarter.
(** [SmarterPairedEndAligner::distance], on [unsigned] locations. *)
Definition distance (a b : Z) : Z := if b <? a then wrap32 (a - b) else wrap32 (b - a).

(** The fields of a [Candidate] that [compareCandidates] reads. *)
Record Candidate : Type := mkCandidate {
  seedHits : Z;
  bucketLoc : Z
}.

(** [SmarterPairedEndAligner::compareCandidates]: more seed hits first. *)
Definition compareCandidates (c1 c2 : Candidate) : bool := seedHits c2 <? seedHits c1.
End Smarter.





(** ** What lets phase 2 end *)









(** ** Invariants of the result buffer *)

(** What [align_phase_3_generate_results] stores in every entry it writes:
    the flags, the two statuses, cleared mapping qualities, and a compensated
    score that is at most [EDResultCutOff] as an [unsigned]. *)
Definition writtenResult (EDResultCutOff : Z) (r : Result.t) : Prop :=
  Result.alignedAsPair r = true /\ Result.fromAlignTogether r = true /\
  Result.status r = (MultipleHits, MultipleHits) /\ Result.mapq r = (0, 0) /\
  wrap32 (Result.compensatedScore r) <= EDResultCutOff.


(** ** Sample inputs *)

(** The configuration of the spec's end-to-end scenarios. *)
Definition sampleConfig : Config :=
  mkConfig 400 5 4 50 1000 32 2 false false false 3 0.5%float 8 64 64 (fun c => c).

(** Both ends of the new pair lie less than 50 away from the anchor's. *)
Definition sampleDoesRangeMatch (anchor : Anchor.t)
    (newMoreHitLocation newFewerHitLocation : GenomeLocation) : bool :=
  (DistanceBetweenGenomeLocations (Anchor.locationForReadWithMoreHits anchor)
                                  newMoreHitLocation <? 50)
  && (DistanceBetweenGenomeLocations (Anchor.locationForReadWithFewerHits anchor)
                                     newFewerHitLocation <? 50).

(** Collaborators whose forward scorer finds [scoreAt whichRead location]
    differences, and reports -1 when that exceeds the limit; the reverse
    scorer finds none. *)
Definition sampleExternals (scoreAt : Z -> GenomeLocation -> Z) : Externals :=
  mkExternals (2 ^ 32 - 1) 31 1%float (fun _ _ => false)
    (fun whichRead _ location _ k =>
       let s := scoreAt whichRead location in
       if s <=? k then (s, 1%float) else (-1, 0%float))
    (fun _ _ _ _ _ => (0, 1%float, 0))
    sampleDoesRangeMatch
    (fun _ => 4) (fun text => forallb (fun c => negb (Ascii.eqb c "N")) text)
    (fun _ wrapCount => wrapCount) (fun _ => ((0, []), (0, []))).

Definition blankResult : Result.t :=
  Result.mk false 0 (0, 0) false (0, 0) (0, 0) (0, 0) (UnknownAlignment, UnknownAlignment)
            0%float 0 (0, 0) (0, 0) 0 0.

(** Two scored pairs of one read pair, both in cluster 7: the first with pair
    score 1, the second with pair score 5. *)
Definition twoAnchorPools : Pools :=
  mkPools
    [ Cand.mk (Some 0%nat) 0 100 None 1 0 0 0 0 7;
      Cand.mk (Some 1%nat) 1 5000 None 3 0 0 0 0 7 ]
    ([ Mate.mk 0.5%float 600 0 0 7 0 0; Mate.mk 0.25%float 5500 0 2 7 0 0 ], [])
    [ Anchor.mk 600 100 0.5%float 1 7 0%nat (0, 0);
      Anchor.mk 5500 5000 0.25%float 5 7 1%nat (0, 1) ]
    (replicate 8 None) 0 4.

Definition clusterSevenCounted : list Z := [0; 0; 0; 0; 0; 0; 0; 2].

(** A hit set with one lookup holding the single hit 100, not yet consumed. *)
Definition oneHitSet : HitSet.t :=
  HitSet.mk 4 31 [Lookup.mk 0 1 [100] 0 0] (replicate 4 (Disjoint.mk 0 0)) 0 0.

(** One candidate of cluster 7 at 1000 whose two mates, at 2000 and 1990,
    fall on one merge anchor; nothing is scored yet. *)
Definition replacedPairPools : Pools :=
  mkPools [Cand.init 1000 0 1 0 0 None 7]
          ([Mate.init 2000 0 0; Mate.init 1990 0 0], [])
          [] (Some 0%nat :: replicate 7 None) 0 0.

(** The candidate matches exactly; the mate at 1990 scores 3, the one at 2000
    scores 1. *)
Definition replacedPairScores (whichRead : Z) (location : GenomeLocation) : Z :=
  if whichRead =? 0 then 0 else if location =? 1990 then 3 else 1.

Definition blankSeeding : Seeding :=
  let r := Read.mk [] [] in
  mkSeeding ((r, r), (r, r)) (([], []), ([], [])) [] (0, 0) ((0, 0), (0, 0))
            ((0, 0), (0, 0)) [].

Definition emptyHitSet : HitSet.t :=
  HitSet.mk 4 31 [] (replicate 4 (Disjoint.mk 0 0)) (-1) 0.

(** The hit set of a read of which four seeds were looked up: the first was
    found once, at [location], the other three nowhere.  The cursor is on
    that hit. *)
Definition missedSeedsHitSet (location : GenomeLocation) : HitSet.t :=
  HitSet.mk 4 31 [Lookup.mk 0 1 [location] 0 0]
            (Disjoint.mk 3 0 :: replicate 3 (Disjoint.mk 0 0)) 0 location.

(** Phase 2 at its first candidate for such a pair: read 0 (fewer hits) at
    1000, read 1 at 1500, set pair 1 without hits, empty arenas. *)
Definition missedSeedsAligner : Aligner :=
  mkAligner ((missedSeedsHitSet 1000, emptyHitSet), (emptyHitSet, missedSeedsHitSet 1500))
            (100, 100) 1 0
            (mkCursors (1000, 0) (1500, 0) (0, 0) (0, 0) (false, false) (false, true))
            (mkPools [] ([], []) [] (replicate 8 None) 0 0)
            blankSeeding.


(** The N count that [align_phase_1] compares with [maxK]: its loop over the
    reads runs [countNs] on read 0, then on read 1. *)
Definition combinedNs (read0 read1 : Read.t) : Z :=
  countNs (Read.getData read1) (countNs (Read.getData read0) 0).

(** A read with the given bases, every quality being ["I"]. *)
Definition readOf (bases : list ascii) : Read.t :=
  Read.mk [] (map (fun b => (b, "I"%char)) bases).

Definition sixNsRead : Read.t :=
  readOf ["N"; "N"; "N"; "N"; "N"; "N"; "A"; "C"; "G"; "T"]%char.
Definition plainRead : Read.t :=
  readOf ["A"; "C"; "G"; "T"; "A"; "C"; "G"; "T"; "A"; "C"]%char.

(** An aligner that takes reads of at most 8 bases, with seeds of length 4
    and maxK 1. *)
Definition shortReadConfig : Config :=
  mkConfig 8 1 4 50 1000 32 0 false false false 3 0.5%float 4 64 64 (fun c => c).

Definition shortReadAligner : Aligner :=
  mkAligner ((emptyHitSet, emptyHitSet), (emptyHitSet, emptyHitSet))
            (0, 0) 1 0
            (mkCursors (0, 0) (0, 0) (0, 0) (0, 0) (false, false) (false, false))
            (mkPools [] ([], []) [] (replicate 2 None) 0 0)
            blankSeeding.


(** Two unclustered candidates of set pair 0, at 1200 and at 1000, that share
    the one mate at 1600; both are on list 0 + 3, the one at 1000 first. *)
Definition sharedMatePools : Pools :=
  mkPools [Cand.init 1200 0 0 0 0 None (-1); Cand.init 1000 0 0 0 0 (Some 0%nat) (-1)]
          ([Mate.init 1600 0 0], [])
          [] [None; None; None; Some 1%nat; None; None; None; None] 3 0.

(** The candidate at 1000 matches exactly, the one at 1200 with 2
    differences, the mate with 6. *)
Definition sharedMateScores (whichRead : Z) (location : GenomeLocation) : Z :=
  if whichRead =? 0 then (if location =? 1200 then 2 else 0) else 6.


(** A hit set with one lookup holding the single hit [location], returned
    last. *)
Definition oneHitAt (location : GenomeLocation) : HitSet.t :=
  HitSet.mk 4 31 [Lookup.mk 0 1 [location] 0 0] (replicate 4 (Disjoint.mk 0 0)) 0 location.

(** Phase 2 after [align_phase_2_move_locus] returned 0 for set pair 0: read
    0 (fewer hits) stands at 1000, read 1 at 1500, the arenas are empty. *)
Definition trackedAligner : Aligner :=
  mkAligner ((oneHitAt 1000, emptyHitSet), (emptyHitSet, oneHitAt 1500))
            (100, 100) 1 0
            (mkCursors (1000, 0) (1500, 0) (0, 0) (0, 0) (false, false) (false, true))
            (mkPools [] ([], []) [] (replicate 8 None) 0 0)
            blankSeeding.


(** An aligner before its first read pair: empty hit sets and arenas, eight
    score lists, a bitmap for reads of up to 64 bases. *)
Definition freshAligner : Aligner :=
  mkAligner ((emptyHitSet, emptyHitSet), (emptyHitSet, emptyHitSet))
            (0, 0) 1 0
            (mkCursors (0, 0) (0, 0) (0, 0) (0, 0) (false, false) (false, false))
            (mkPools [] ([], []) [] (replicate 8 None) 0 0)
            (mkSeeding ((Read.mk [] [], Read.mk [] []), (Read.mk [] [], Read.mk [] []))
                       (([], []), ([], [])) (replicate 64 false) (0, 0)
                       ((0, 0), (0, 0)) ((0, 0), (0, 0)) []).


(** [P] holds of the first [n] entries of a buffer. *)
Definition firstN {A : Type} (P : A -> Prop) (n : nat) (l : list A) : Prop :=
  forall (j : nat) (y : A), (j < n)%nat -> l !! j = Some y -> P y.

(** A sort to stand for [qsort]: insertion by a key. *)
Fixpoint insertByKey (key : Result.t -> Z) (r : Result.t) (l : list Result.t)
    : list Result.t :=
  match l with
  | [] => [r]
  | x :: l' => if key r <=? key x then r :: l else x :: insertByKey key r l'
  end.

Definition sortByKey (key : Result.t -> Z) (l : list Result.t) : list Result.t :=
  foldr (insertByKey key) [] l.

(** No adjustment of alignments, at most two results per contig, contigs of
    1000 bases, MAPQ 60 for every result. *)
Definition sampleFinishing : Finishing :=
  mkFinishing (fun _ _ _ _ => 60) 10 true (fun _ r => r) 2 (fun location => location / 1000)
              (sortByKey (fun r => fst (Result.location r) / 1000))
              (sortByKey Result.compensatedScore).

(** The same with alignments adjusted by an adjuster that changes nothing. *)
Definition adjustingFinishing : Finishing :=
  mkFinishing (fun _ _ _ _ => 60) 10 false (fun _ r => r) 2 (fun location => location / 1000)
              (sortByKey (fun r => fst (Result.location r) / 1000))
              (sortByKey Result.compensatedScore).

(** A result in cluster 7 at [location] whose reads score [score] and 0. *)
Definition foundResult (location : GenomeLocation) (score : Z) : Result.t :=
  Result.mk true score (0, 1) true (location, location + 200) (0, 0) (score, 0)
            (MultipleHits, MultipleHits) 1%float 7 (0, 0) (0, 0) 0 0.

(** Five secondary results: four on contig 0, one of them far from the best
    score, and one on contig 1. *)
Definition fiveResults : list Result.t :=
  [foundResult 100 2; foundResult 300 9; foundResult 1500 3; foundResult 500 3;
   foundResult 700 4].

(** Three contigs, none counted yet. *)
Definition freshCounts : ContigCounts := mkContigCounts 0 [(0, 0); (0, 0); (0, 0)].







(** * Theorems *)

(** ** Results and arrays *)

Lemma bind_Ok_inv {A B : Type} (m : Res A) (k : A -> Res B) (b : B) :
  bind m k = Ok b -> exists a, m = Ok a /\ k a = Ok b.
Proof. destruct m; simpl; intros H; try discriminate. eauto. Qed.

Lemma readArray_Ok {A : Type} (a : list A) (i : Z) (x : A) :
  readArray a i = Ok x <-> 0 <= i /\ a !! Z.to_nat i = Some x.
Proof.
  unfold readArray. destruct (Z.ltb_spec i 0).
  - split; [discriminate | lia].
  - destruct (a !! Z.to_nat i) eqn:E; split.
    + intros [= ->]. auto.
    + intros [_ [= ->]]. reflexivity.
    + discriminate.
    + intros [_ ?]. discriminate.
Qed.

Lemma writeArray_Ok {A : Type} (a : list A) (i : Z) (x : A) (a' : list A) :
  writeArray a i x = Ok a' <->
  0 <= i /\ (Z.to_nat i < length a)%nat /\ a' = <[Z.to_nat i := x]> a.
Proof.
  unfold writeArray. destruct (Z.ltb_spec i 0).
  - split; [discriminate | lia].
  - destruct (Nat.ltb_spec (Z.to_nat i) (length a)); split.
    + intros [= <-]. auto.
    + intros (_ & _ & ->). reflexivity.
    + discriminate.
    + intros (_ & ? & _). lia.
Qed.

Lemma wrap32_range (z : Z) : 0 <= wrap32 z < 2 ^ 32.
Proof. unfold wrap32. apply Z.mod_pos_bound. lia. Qed.

Lemma wrap32_small (z : Z) : 0 <= z < 2 ^ 32 -> wrap32 z = z.
Proof. intros H. unfold wrap32. apply Z.mod_small. exact H. Qed.

Lemma wrap32_int32 (z : Z) : wrap32 (int32 z) = wrap32 z.
Proof.
  unfold int32. pose proof (wrap32_range z) as Hr.
  destruct (wrap32 z <? 2 ^ 31) eqn:E.
  - apply wrap32_small. exact Hr.
  - unfold wrap32 at 1. unfold wrap32 at 2.
    replace (wrap32 z - 2 ^ 32) with (wrap32 z + (-1) * 2 ^ 32) by lia.
    rewrite Z.mod_add by lia. unfold wrap32. apply Z.mod_mod. lia.
Qed.

Lemma wrap8_range (z : Z) : 0 <= wrap8 z <= UINT8_MAX.
Proof.
  unfold wrap8, UINT8_MAX. pose proof (Z.mod_pos_bound z (2 ^ 8)). lia.
Qed.

(** Splits a hypothesis [bind m k = Ok b] into its two halves. *)
Tactic Notation "bind_inv" hyp(H) "as" ident(x) ident(Hx) :=
  apply bind_Ok_inv in H; destruct H as (x & Hx & H).

(** ** The entry point *)

(** C9: for every input, [align] returns true at once, and hands back the
    aligner, the result record, the secondary-result buffer and
    [nSecondaryResults] as it received them. *)
Theorem align_returns_true_and_changes_nothing
    (a : Aligner) (read0 read1 : Read.t) (out : Outputs)
    (maxEditDistanceForSecondaryResults secondaryResultBufferSize
     maxSecondaryResultsToReturn : Z) :
  align a read0 read1 out maxEditDistanceForSecondaryResults
        secondaryResultBufferSize maxSecondaryResultsToReturn
  = Ok (true, a, out).
Proof. reflexivity. Qed.

(** ** The best score *)

Lemma forAnchors_correct_range (cfg : Config) (ctr : list Z) (m : Z)
    (anchors : list Anchor.t) (b0 b : Z) :
  0 <= b0 < 2 ^ 32 ->
  forAnchors (correct_best_score_body cfg ctr m) anchors b0 = Ok b ->
  0 <= b < 2 ^ 32.
Proof.
  revert b0. induction anchors as [|a rest IH]; simpl; intros b0 Hb0 H.
  - injection H as <-. exact Hb0.
  - bind_inv H as b1 Hb1. apply (IH b1); [| exact H].
    unfold correct_best_score_body in Hb1. bind_inv Hb1 as valid Hvalid.
    destruct (_ <? b0); injection Hb1 as <-; [apply wrap32_range | exact Hb0].
Qed.

(** C8: [align_phase_3_correct_best_score] is idempotent: called again on the
    score it produced, with the merge anchors and the cluster counters
    unchanged, it leaves the score as it is and returns false. *)
Theorem correct_best_score_idempotent
    (cfg : Config) (anchors : list Anchor.t) (clusterCounterAry : list Z)
    (minClusterSize bestCompensatedScore best1 : Z) (changed : bool) :
  align_phase_3_correct_best_score cfg anchors clusterCounterAry
                                   bestCompensatedScore minClusterSize
  = Ok (best1, changed) ->
  align_phase_3_correct_best_score cfg anchors clusterCounterAry best1 minClusterSize
  = Ok (best1, false).
Proof.
  unfold align_phase_3_correct_best_score. intros H.
  destruct (forAnchors _ anchors _) as [new| | |] eqn:Hnew; simpl in *; try discriminate.
  assert (Hr : 0 <= new < 2 ^ 32)
    by (eapply forAnchors_correct_range; [apply wrap32_range | exact Hnew]).
  destruct (wrap32 bestCompensatedScore =? new) eqn:Heq; simpl in H.
  - injection H as <- <-. rewrite Heq. reflexivity.
  - injection H as <- <-.
    rewrite wrap32_int32, (wrap32_small new Hr), Z.eqb_refl. reflexivity.
Qed.

Lemma correct_best_score_idempotent_witness :
  align_phase_3_correct_best_score sampleConfig (mergeAnchorPool twoAnchorPools)
                                   clusterSevenCounted 1 1
  = Ok (1, false).
Proof.
  apply (correct_best_score_idempotent sampleConfig (mergeAnchorPool twoAnchorPools)
           clusterSevenCounted 1 100 1 true).
  vm_compute. reflexivity.
Defined.

(** ** The cluster counters *)

Lemma incrementedOnce_refl (cl : Clusters) : incrementedOnce cl cl.
Proof.
  repeat split; auto. intros count count' H1 H2. left. congruence.
Qed.

Lemma incrementedOnce_trans (cl cl1 cl2 : Clusters) :
  length (fst cl) = length (snd cl) ->
  incrementedOnce cl cl1 -> incrementedOnce cl1 cl2 -> incrementedOnce cl cl2.
Proof.
  intros Hlen (Hc1 & Ht1 & H1) (Hc2 & Ht2 & H2).
  split; [congruence|]. split; [congruence|].
  intros c. destruct (H1 c) as [H1t H1c], (H2 c) as [H2t H2c]. split.
  - intros Hset. destruct (H1t Hset) as [Hs1 He1]. destruct (H2t Hs1) as [Hs2 He2].
    split; [exact Hs2 | congruence].
  - intros count count2 Hin Hout.
    assert (Hlt : (c < length (fst cl1))%nat)
      by (rewrite Hc1; eapply lookup_lt_Some; exact Hin).
    destruct (lookup_lt_is_Some_2 _ _ Hlt) as [count1 Hmid].
    destruct (H1c _ _ Hin Hmid) as [-> | (-> & Hclear & Hset1)].
    + destruct (H2c _ _ Hmid Hout) as [-> | (-> & Hclear1 & Hset2)]; [left; reflexivity|].
      right. split; [reflexivity|]. split; [|exact Hset2].
      assert (Hlt' : (c < length (snd cl))%nat)
        by (rewrite <- Hlen; eapply lookup_lt_Some; exact Hin).
      destruct (lookup_lt_is_Some_2 _ _ Hlt') as [[|] Ht]; [|exact Ht].
      destruct (H1t Ht) as [Hcontra _]. congruence.
    + destruct (H2t Hset1) as [Hs2 He2]. right.
      split; [congruence|]. split; [exact Hclear | exact Hs2].
Qed.

Lemma Forall_insert_bounded (ctr : list Z) (i : nat) (v : Z) :
  countersBounded ctr -> 0 <= v <= UINT8_MAX -> countersBounded (<[i := v]> ctr).
Proof.
  unfold countersBounded. intros H Hv. rewrite Forall_lookup in *.
  intros j x Hj. destruct (decide (i = j)) as [->|Hne].
  - destruct (decide (j < length ctr)%nat) as [Hlt|Hge].
    + rewrite list_lookup_insert_eq in Hj by exact Hlt. congruence.
    + rewrite list_insert_ge in Hj by lia. eauto.
  - rewrite list_lookup_insert_ne in Hj by exact Hne. eauto.
Qed.

Lemma increment_cluster_body_once (cfg : Config) (best : Z) (anchor : Anchor.t)
    (cl cl' : Clusters) :
  countersBounded (fst cl) ->
  increment_cluster_body cfg best anchor cl = Ok cl' ->
  countersBounded (fst cl') /\ incrementedOnce cl cl'.
Proof.
  destruct cl as [ctr tog]. unfold increment_cluster_body. intros Hb H.
  destruct (_ <=? _); [| injection H as <-; split; [exact Hb | apply incrementedOnce_refl]].
  destruct (Anchor.clusterIdx anchor =? -1);
    [injection H as <-; split; [exact Hb | apply incrementedOnce_refl]|].
  bind_inv H as toggled Htog. apply readArray_Ok in Htog as [Hidx Htog].
  destruct toggled; [injection H as <-; split; [exact Hb | apply incrementedOnce_refl]|].
  bind_inv H as r0 Hctr. apply readArray_Ok in Hctr as [_ Hctr].
  bind_inv H as ctr1 Ha. bind_inv H as tog1 Ha0. injection H as <-.
  apply writeArray_Ok in Ha0 as (_ & Hlt & ->).
  set (i := Z.to_nat (Anchor.clusterIdx anchor)) in *.
  destruct (r0 =? UINT8_MAX) eqn:Hmax.
  - injection Ha as <-. split; [exact Hb|]. unfold incrementedOnce. simpl in *.
    split; [reflexivity|]. split; [apply length_insert|].
    intros c. split.
    + intros Hset. split; [|reflexivity].
      destruct (decide (i = c)) as [<-|Hne]; [congruence|].
      rewrite list_lookup_insert_ne by exact Hne. exact Hset.
    + intros count count' H1 H2. left. congruence.
  - apply writeArray_Ok in Ha as (_ & Hlt' & ->). fold i. simpl in *. split.
    + apply Forall_insert_bounded; [exact Hb | apply wrap8_range].
    + unfold incrementedOnce. simpl.
      split; [apply length_insert|]. split; [apply length_insert|].
      assert (Hcount : wrap8 (r0 + 1) = r0 + 1).
      { unfold countersBounded in Hb. rewrite Forall_lookup in Hb.
        specialize (Hb _ _ Hctr). apply Z.eqb_neq in Hmax.
        unfold wrap8, UINT8_MAX in *. apply Z.mod_small. lia. }
      intros c. destruct (decide (i = c)) as [<-|Hne]; split.
      * congruence.
      * intros count count' H1 H2.
        rewrite list_lookup_insert_eq in H2 by exact Hlt'.
        right. split; [congruence|]. split; [exact Htog|].
        apply list_lookup_insert_eq. exact Hlt.
      * intros Hset. rewrite !list_lookup_insert_ne by exact Hne. auto.
      * intros count count' H1 H2.
        rewrite list_lookup_insert_ne in H2 by exact Hne. left. congruence.
Qed.

Lemma increment_cluster_once (cfg : Config) (anchors : list Anchor.t) (best : Z)
    (cl cl' : Clusters) :
  length (fst cl) = length (snd cl) ->
  countersBounded (fst cl) ->
  align_phase_3_increment_cluster cfg anchors best cl = Ok cl' ->
  countersBounded (fst cl') /\ incrementedOnce cl cl'.
Proof.
  unfold align_phase_3_increment_cluster.
  revert cl. induction anchors as [|a rest IH]; simpl; intros cl Hlen Hb H.
  - injection H as <-. split; [exact Hb | apply incrementedOnce_refl].
  - bind_inv H as r Ha.
    destruct (increment_cluster_body_once _ _ _ _ _ Hb Ha) as [Hb1 Ho1].
    assert (Hlen1 : length (fst r) = length (snd r))
      by (destruct Ho1 as (-> & -> & _); exact Hlen).
    destruct (IH r Hlen1 Hb1 H) as [Hb2 Ho2].
    split; [exact Hb2 | eapply incrementedOnce_trans; eassumption].
Qed.

(** C7: after any sequence of [align_phase_3_increment_cluster] calls made
    for one pair, whatever the anchors and best scores of the calls, every
    counter is still at most 255, a counter changed by at most one increment,
    and a cluster whose toggle was already set kept its counter. *)
Theorem increment_cluster_saturates_and_counts_once
    (cfg : Config) (calls : list (list Anchor.t * Z))
    (clusterCounterAry clusterCounterAry' : list Z) (clusterToggle clusterToggle' : list bool) :
  length clusterCounterAry = length clusterToggle ->
  countersBounded clusterCounterAry ->
  increment_cluster_calls cfg calls (clusterCounterAry, clusterToggle)
  = Ok (clusterCounterAry', clusterToggle') ->
  countersBounded clusterCounterAry' /\
  forall c : nat,
    (clusterToggle !! c = Some true -> clusterCounterAry' !! c = clusterCounterAry !! c) /\
    (forall count count',
       clusterCounterAry !! c = Some count -> clusterCounterAry' !! c = Some count' ->
       count <= count' <= count + 1).
Proof.
  intros Hlen Hb H.
  assert (Hall : countersBounded clusterCounterAry' /\
                 incrementedOnce (clusterCounterAry, clusterToggle)
                                 (clusterCounterAry', clusterToggle')).
  { revert clusterCounterAry clusterToggle Hlen Hb H.
    induction calls as [|[anchors best] rest IH]; simpl; intros ctr tog Hlen Hb H.
    - injection H as <- <-. split; [exact Hb | apply incrementedOnce_refl].
    - bind_inv H as r Ha. destruct r as [ctr1 tog1].
      destruct (increment_cluster_once cfg anchors best (ctr, tog) (ctr1, tog1) Hlen Hb Ha)
        as [Hb1 Ho1].
      assert (Hlen1 : length ctr1 = length tog1)
        by (destruct Ho1 as (H1 & H2 & _); simpl in *; congruence).
      destruct (IH ctr1 tog1 Hlen1 Hb1 H) as [Hb2 Ho2].
      split; [exact Hb2|].
      apply (incrementedOnce_trans (ctr, tog) (ctr1, tog1)); [exact Hlen | exact Ho1 | exact Ho2]. }
  destruct Hall as [Hb' (_ & _ & Ho)]. split; [exact Hb'|].
  intros c. destruct (Ho c) as [Ht Hc]. simpl in *. split.
  - intros Hset. apply Ht. exact Hset.
  - intros count count' H1 H2. destruct (Hc _ _ H1 H2) as [-> | (-> & _)]; lia.
Qed.

Lemma increment_cluster_saturates_and_counts_once_witness :
  countersBounded [255; 255; 7] /\
  forall c : nat,
    ([false; false; true] !! c = Some true -> [255; 255; 7] !! c = [254; 255; 7] !! c) /\
    (forall count count',
       [254; 255; 7] !! c = Some count -> [255; 255; 7] !! c = Some count' ->
       count <= count' <= count + 1).
Proof.
  apply (increment_cluster_saturates_and_counts_once sampleConfig
           [ ([ Anchor.mk 600 100 1%float 1 0 0%nat (0, 0);
                Anchor.mk 700 200 1%float 1 0 1%nat (0, 1);
                Anchor.mk 800 300 1%float 2 1 2%nat (0, 2);
                Anchor.mk 900 400 1%float 0 2 3%nat (0, 3) ], 1);
             ([ Anchor.mk 600 100 1%float 1 0 0%nat (0, 0) ], 1) ]
           [254; 255; 7] [255; 255; 7] [false; false; true] [true; true; true]).
  - reflexivity.
  - repeat constructor; unfold UINT8_MAX; lia.
  - vm_compute. reflexivity.
Defined.

(** ** The binary search of a lookup *)

(** Whenever the search probes entry 0, it reads [hits[-1]] before it looks
    at [clause2]. *)
Lemma searchLookup_probe_zero_reads_below (fuel : nat) (target : GenomeLocation)
    (lk : Lookup.t) (limit0 limit1 : Z) (acc : Found) :
  limit0 <= limit1 -> (limit0 + limit1) ÷ 2 = 0 ->
  (exists hit, Lookup.hits lk !! 0%nat = Some hit) ->
  searchLookup (S fuel) target lk limit0 limit1 acc = OutOfBounds.
Proof.
  intros Hle Hprobe [hit Hhit]. cbn [searchLookup].
  destruct (Z.leb_spec limit0 limit1); [|lia].
  rewrite Hprobe. destruct (Lookup.hits lk) as [|hit0 rest]; [discriminate|].
  reflexivity.
Qed.

(** C10, on the code: a lookup with one hit that has not been consumed
    ([currentHitForIntersection = 0 <= nHits = 1]) makes
    [getNextHitLessThanOrEqualTo] probe entry 0 and read [hits[-1]]. *)
Theorem getNextHitLessThanOrEqualTo_reads_before_the_array :
  0 <= Lookup.currentHitForIntersection (Lookup.mk 0 1 [100] 0 0)
    <= Lookup.nHits (Lookup.mk 0 1 [100] 0 0) /\
  getNextHitLessThanOrEqualTo oneHitSet 200 0 0 = OutOfBounds.
Proof. split; [simpl; lia | reflexivity]. Qed.

(** ** Generating the results *)

(** C1, on the code: with the two anchors of [twoAnchorPools] qualifying
    (compensated scores 1 and 5, best score 1, secondaries up to 4 above it),
    the best result handed back is the pair with score 5, and the pair with
    score 1 is the one secondary that is left. *)
Theorem generate_results_returns_the_entry_after_the_best :
  exists g,
    align_phase_3_generate_results sampleConfig (sampleExternals (fun _ _ => 0))
      twoAnchorPools clusterSevenCounted 1 0 1 4 1 2 [blankResult; blankResult] blankResult
    = Ok g /\
    Result.compensatedScore (outBestResult g) = 5 /\
    Result.location (outBestResult g) = (5000, 5500) /\
    outNSecondaryResults g = 1 /\
    (Result.compensatedScore <$> outSecondaryResults g !! 0%nat) = Some 1 /\
    (Result.location <$> outSecondaryResults g !! 0%nat) = Some (100, 600).
Proof. eexists. split; [vm_compute; reflexivity|]. repeat split. Qed.

(** ** Merging and the best score *)

(** [checkMerge] returns true exactly when it leaves the anchor as it was,
    and false when it installs the new pair. *)
Lemma checkMerge_true_iff_ignored (E : Externals) (anchor anchor' : Anchor.t)
    (newMore newFewer : GenomeLocation) (newProb : float) (newPairScore newClusterIdx : Z)
    (newCandidate : nat) (newMate : Z * Z) (returned : bool) :
  checkMerge E anchor newMore newFewer newProb newPairScore newClusterIdx newCandidate newMate
  = (anchor', returned) ->
  (returned = true /\ anchor' = anchor) \/
  (returned = false /\
   anchor' = Anchor.mk newMore newFewer newProb newPairScore newClusterIdx
                       newCandidate newMate).
Proof.
  unfold checkMerge. intros H.
  destruct (_ || _); [injection H as <- <-; right; auto|].
  destruct (_ || _); injection H as <- <-; [right | left]; auto.
Qed.

(** C2, on the code: the candidate of [replacedPairPools] first pairs with
    the mate at 1990 (pair score 3, a new anchor, best score 3), then with the
    mate at 2000 (pair score 1).  [checkMerge] replaces the stored pair and
    returns false, and the best score stays 3 although 1 <= maxK +
    clusterEDCompensation and 1 < 3. *)
Theorem score_keeps_the_best_score_when_checkMerge_replaces :
  exists p,
    align_phase_3_score sampleConfig (sampleExternals replacedPairScores) 4 (100, 100) 1 0
                        replacedPairPools 100 false
    = Ok (p, 3) /\
    (Anchor.pairScore <$> mergeAnchorPool p) = [1] /\
    (Anchor.locationForReadWithMoreHits <$> mergeAnchorPool p) = [2000].
Proof. eexists. split; [vm_compute; reflexivity|]. split; reflexivity. Qed.

(** ** The score lists *)

(** Recording four lookups of one read, the first with the hit 1000 and three
    with no hit, gives the lookups and the exhausted count of
    [missedSeedsHitSet 1000]. *)
Lemma recordLookup_missed_seeds :
  exists h,
    (do h1 <- recordLookup (HitSet_init emptyHitSet) 0 1 [1000] true;
     do h2 <- recordLookup h1 8 0 [] false;
     do h3 <- recordLookup h2 16 0 [] false;
     recordLookup h3 24 0 [] false) = Ok h /\
    HitSet.lookups h = HitSet.lookups (missedSeedsHitSet 1000) /\
    HitSet.disjointHitSets h = HitSet.disjointHitSets (missedSeedsHitSet 1000) /\
    HitSet.currentDisjointHitSet h = 0.
Proof. eexists. split; [vm_compute; reflexivity|]. repeat split. Qed.

(** C3, on the code: in the configuration of the spec's scenarios (maxK 5,
    extraSearchDepth 2, clusterEDCompensation 3) the score lists have 8
    entries.  For [missedSeedsAligner] both ends have best possible score 3;
    an unclustered candidate is put on list 3 + 3 + 3 = 9, outside the array,
    while the same candidate with a cluster goes on list 6. *)
Theorem add_candidate_indexes_past_the_score_lists :
  length (scoringCandidates (arenas missedSeedsAligner))
  = Z.to_nat (maxK sampleConfig + extraSearchDepth sampleConfig + 1) /\
  (do r <- computeBestPossibleScoreForCurrentHit (missedSeedsHitSet 1000); Ok (fst r))
  = Ok 3 /\
  (do r <- computeBestPossibleScoreForCurrentHit (missedSeedsHitSet 1500); Ok (fst r))
  = Ok 3 /\
  align_phase_2_single_step_add_candidate sampleConfig 4 missedSeedsAligner 0 (-1)
  = OutOfBounds /\
  exists a,
    align_phase_2_single_step_add_candidate sampleConfig 4 missedSeedsAligner 0 7
    = Ok (true, a) /\
    scoringCandidates (arenas a) !! 6%nat = Some (Some 0%nat).
Proof.
  split; [reflexivity|]. split; [vm_compute; reflexivity|].
  split; [vm_compute; reflexivity|]. split; [vm_compute; reflexivity|].
  eexists. split; [vm_compute; reflexivity|]. reflexivity.
Qed.

(** ** Phase 1 *)

Lemma clearScoreLists_allocated (n : nat) (k : Z) (heads : list (option nat)) :
  0 <= k -> (Z.to_nat k + n <= length heads)%nat ->
  exists heads', clearScoreLists n k heads = Ok heads' /\ length heads' = length heads.
Proof.
  revert k heads. induction n as [|n IH]; intros k heads Hk Hlen; simpl.
  - eauto.
  - destruct (writeArray heads k None) as [heads1| | |] eqn:Hw.
    + apply writeArray_Ok in Hw as (_ & _ & ->). simpl.
      destruct (IH (k + 1) (<[Z.to_nat k := None]> heads)) as (h' & -> & Hl).
      * lia.
      * rewrite length_insert. lia.
      * exists h'. split; [reflexivity|]. rewrite Hl. apply length_insert.
    + exfalso. unfold writeArray in Hw. destruct (Z.ltb_spec k 0); [lia|].
      destruct (Nat.ltb_spec (Z.to_nat k) (length heads)); [discriminate | lia].
    + exfalso. unfold writeArray in Hw. destruct (Z.ltb_spec k 0); [lia|].
      destruct (Nat.ltb_spec (Z.to_nat k) (length heads)); [discriminate | lia].
    + exfalso. unfold writeArray in Hw. destruct (Z.ltb_spec k 0); [discriminate|].
      destruct (Nat.ltb_spec (Z.to_nat k) (length heads)); discriminate.
Qed.

(** Without overflow, [countNs] adds the number of Ns in the data. *)
Lemma countNs_counts (data : list ascii) (n : Z) :
  0 <= n -> n + Z.of_nat (length data) < 2 ^ 32 ->
  countNs data n = n + Z.of_nat (length (filter (fun c => Ascii.eqb c "N" = true) data)).
Proof.
  unfold countNs. revert n. induction data as [|c rest IH]; intros n Hn Hlen; simpl.
  - lia.
  - simpl in Hlen. unfold nTable at 2.
    rewrite filter_cons. destruct (decide (Ascii.eqb c "N" = true)) as [Hc|Hc].
    + rewrite Hc. rewrite wrap32_small by lia. rewrite IH by lia. simpl. lia.
    + destruct (Ascii.eqb c "N"); [congruence|].
      rewrite wrap32_small by lia. rewrite IH by lia. lia.
Qed.

(** C6, as the code has it: [align_phase_1] returns the early-exit value
    exactly when a read is shorter than the seed length, or neither read is
    longer than [maxReadSize] and the combined N count of the forward reads
    exceeds [maxK]; and when it does, no seed was handed to the index. *)
Theorem align_phase_1_early_exit_iff
    (cfg : Config) (E : Externals) (fuel : nat) (a : Aligner) (read0 read1 : Read.t)
    (popularSeedsSkipped : Z * Z) :
  (Z.to_nat (wrap32 (maxK cfg + extraSearchDepth cfg) + 1)
   <= length (scoringCandidates (arenas a)))%nat ->
  ((exists a' popularSeedsSkipped',
      align_phase_1 cfg E fuel a read0 read1 popularSeedsSkipped
      = Ok (true, a', popularSeedsSkipped'))
   <->
   (Read.getDataLength read0 < seedLen cfg \/ Read.getDataLength read1 < seedLen cfg \/
    (Read.getDataLength read0 <= maxReadSize cfg /\
     Read.getDataLength read1 <= maxReadSize cfg /\
     maxK cfg < combinedNs read0 read1)))
  /\
  (forall a' popularSeedsSkipped',
      align_phase_1 cfg E fuel a read0 read1 popularSeedsSkipped
      = Ok (true, a', popularSeedsSkipped') ->
      seedLookups (seeding a') = seedLookups (seeding a)).
Proof.
  intros Halloc. unfold align_phase_1.
  destruct (clearScoreLists_allocated _ 0 _ (Z.le_refl 0) Halloc) as (heads & -> & _).
  cbn [bind].
  destruct (Z.ltb_spec (Read.getDataLength read0) (seedLen cfg)) as [Hs0|Hs0];
    [| destruct (Z.ltb_spec (Read.getDataLength read1) (seedLen cfg)) as [Hs1|Hs1]];
    cbn [orb].
  - split; [split; [auto | eauto] |]. intros a' p' [= <- <-]. reflexivity.
  - split; [split; [auto | eauto] |]. intros a' p' [= <- <-]. reflexivity.
  - unfold prepareRead at 2. cbn -[Z.ltb countNs rcRead HitSet_init lookupAllSeeds].
    destruct (Z.ltb_spec (maxReadSize cfg) (Read.getDataLength read0)) as [Hl0|Hl0].
    { cbn [bind]. split; [split|].
      - intros (a' & p' & H). discriminate.
      - intros [?|[?|(? & ? & ?)]]; lia.
      - intros a' p' H. discriminate. }
    cbn [bind]. unfold prepareRead. cbn -[Z.ltb countNs rcRead HitSet_init lookupAllSeeds].
    destruct (Z.ltb_spec (maxReadSize cfg) (Read.getDataLength read1)) as [Hl1|Hl1].
    { cbn [bind]. split; [split|].
      - intros (a' & p' & H). discriminate.
      - intros [?|[?|(? & ? & ?)]]; lia.
      - intros a' p' H. discriminate. }
    cbn [bind]. fold (combinedNs read0 read1).
    destruct (Z.ltb_spec (maxK cfg) (combinedNs read0 read1)) as [Hn|Hn].
    + split; [split; [auto | eauto] |]. intros a' p' [= <- <-]. reflexivity.
    + destruct (lookupAllSeeds _ _ _ _ _ _) as [[a3 p3]| | |]; cbn [bind];
        (split;
         [ split; [intros (a' & p' & H); discriminate | intros [?|[?|(? & ? & ?)]]; lia]
         | intros a' p' H; discriminate ]).
Qed.

Lemma align_phase_1_early_exit_iff_witness :
  ((exists a' popularSeedsSkipped',
      align_phase_1 sampleConfig (sampleExternals (fun _ _ => 0)) 4 missedSeedsAligner
                    sixNsRead plainRead (0, 0)
      = Ok (true, a', popularSeedsSkipped'))
   <->
   (Read.getDataLength sixNsRead < seedLen sampleConfig \/
    Read.getDataLength plainRead < seedLen sampleConfig \/
    (Read.getDataLength sixNsRead <= maxReadSize sampleConfig /\
     Read.getDataLength plainRead <= maxReadSize sampleConfig /\
     maxK sampleConfig < combinedNs sixNsRead plainRead)))
  /\
  (forall a' popularSeedsSkipped',
      align_phase_1 sampleConfig (sampleExternals (fun _ _ => 0)) 4 missedSeedsAligner
                    sixNsRead plainRead (0, 0)
      = Ok (true, a', popularSeedsSkipped') ->
      seedLookups (seeding a') = seedLookups (seeding missedSeedsAligner)).
Proof.
  apply (align_phase_1_early_exit_iff sampleConfig (sampleExternals (fun _ _ => 0)) 4
           missedSeedsAligner sixNsRead plainRead (0, 0)).
  vm_compute. lia.
Defined.

(** C6, as stated, fails: a read longer than [maxReadSize] makes
    [align_phase_1] call [soft_exit] before the N count is compared with
    [maxK], so the combined N count exceeds [maxK] (6 > 1) and yet the
    early-exit value is not returned. *)
Lemma align_phase_1_exits_on_a_long_read_with_many_Ns :
  maxK shortReadConfig < combinedNs sixNsRead plainRead /\
  seedLen shortReadConfig <= Read.getDataLength sixNsRead /\
  align_phase_1 shortReadConfig (sampleExternals (fun _ _ => 0)) 4 shortReadAligner
                sixNsRead plainRead (0, 0)
  = SoftExit.
Proof. split; [reflexivity|]. split; [vm_compute; discriminate | vm_compute; reflexivity]. Qed.

(** With reads that fit, the same N count gives the early exit. *)
Lemma align_phase_1_returns_early_on_many_Ns :
  exists a,
    align_phase_1 sampleConfig (sampleExternals (fun _ _ => 0)) 4 missedSeedsAligner
                  sixNsRead plainRead (0, 0)
    = Ok (true, a, (0, 0)) /\
    seedLookups (seeding a) = [].
Proof. eexists. split; [vm_compute; reflexivity | reflexivity]. Qed.

(** ** The spacing window *)

Lemma get2_set2_same {A : Type} (a : A * A) (i : Z) (x : A) : get2 (set2 a i x) i = x.
Proof. unfold get2, set2. destruct (i =? 0); reflexivity. Qed.

Lemma fst_set2 {A : Type} (a : A * A) (i : Z) (x : A) :
  fst (set2 a i x) = if i =? 0 then x else fst a.
Proof. unfold set2. destruct (i =? 0); reflexivity. Qed.

Lemma snd_set2 {A : Type} (a : A * A) (i : Z) (x : A) :
  snd (set2 a i x) = if i =? 0 then snd a else x.
Proof. unfold set2. destruct (i =? 0); reflexivity. Qed.

Lemma fmap_insert_same {A B : Type} (f : A -> B) (l : list A) (i : nat) (x y : A) :
  l !! i = Some x -> f y = f x -> f <$> <[i := y]> l = f <$> l.
Proof.
  intros Hx Hf. rewrite list_fmap_insert, Hf. apply list_insert_id.
  rewrite list_lookup_fmap, Hx. reflexivity.
Qed.

Lemma keysKept_refl (p : Pools) : keysKept p p.
Proof. repeat split. Qed.

Lemma keysKept_trans (p1 p2 p3 : Pools) : keysKept p1 p2 -> keysKept p2 p3 -> keysKept p1 p3.
Proof. intros (A1 & B1 & C1) (A2 & B2 & C2). repeat split; congruence. Qed.

Lemma keysKept_sym (p1 p2 : Pools) : keysKept p1 p2 -> keysKept p2 p1.
Proof. intros (A1 & B1 & C1). repeat split; congruence. Qed.

Lemma fmap_eq_lookup {A B : Type} (f : A -> B) (l l' : list A) (i : nat) (x : A) :
  f <$> l' = f <$> l -> l !! i = Some x -> exists x', l' !! i = Some x' /\ f x' = f x.
Proof.
  intros Heq Hx.
  assert (H : (f <$> l') !! i = Some (f x)) by (rewrite Heq, list_lookup_fmap, Hx; reflexivity).
  rewrite list_lookup_fmap in H. destruct (l' !! i) as [x'|]; [|discriminate].
  injection H as H. eauto.
Qed.

Lemma keysKept_cand (p p' : Pools) (i : nat) (c : Cand.t) :
  keysKept p p' -> scoringCandidatePool p !! i = Some c ->
  exists c', scoringCandidatePool p' !! i = Some c' /\ candidateKey c' = candidateKey c.
Proof. intros (H & _) Hc. eapply fmap_eq_lookup; eassumption. Qed.

Lemma keysKept_mate (p p' : Pools) (ptr : Z * Z) (m : Mate.t) :
  keysKept p p' -> mateAt p ptr = Ok m ->
  exists m', mateAt p' ptr = Ok m' /\
             Mate.readWithMoreHitsGenomeLocation m' = Mate.readWithMoreHitsGenomeLocation m.
Proof.
  intros (_ & H1 & H2) Hm. unfold mateAt in *. apply readArray_Ok in Hm as [Hi Hm].
  unfold get2 in *.
  destruct (fst ptr =? 0);
    [destruct (fmap_eq_lookup _ _ _ _ _ H1 Hm) as (m' & Hm' & Hl)
    |destruct (fmap_eq_lookup _ _ _ _ _ H2 Hm) as (m' & Hm' & Hl)];
    exists m'; (split; [apply readArray_Ok; auto | exact Hl]).
Qed.

Lemma pairInWindow_kept (cfg : Config) (p p' : Pools) (candIdx : nat) (ptr : Z * Z) :
  keysKept p p' -> pairInWindow cfg p candIdx ptr -> pairInWindow cfg p' candIdx ptr.
Proof.
  intros Hk (c & m & Hc & Hm & Hs & Hw).
  destruct (keysKept_cand _ _ _ _ Hk Hc) as (c' & Hc' & Hkey).
  destruct (keysKept_mate _ _ _ _ Hk Hm) as (m' & Hm' & Hloc).
  unfold candidateKey in Hkey. injection Hkey as H1 H2 H3 H4 H5.
  exists c', m'. rewrite H1, H2, Hloc. auto.
Qed.

Lemma firstMatesInRange_kept (cfg : Config) (p p' : Pools) :
  keysKept p p' -> firstMatesInRange cfg p -> firstMatesInRange cfg p'.
Proof.
  intros Hk Hf i c' m' Hc' Hm'. apply keysKept_sym in Hk.
  destruct (keysKept_cand _ _ _ _ Hk Hc') as (c & Hc & Hkey).
  destruct (keysKept_mate _ _ _ _ Hk Hm') as (m & Hm & Hloc).
  unfold candidateKey in Hkey. injection Hkey as H1 H2 H3 H4 H5.
  rewrite <- H1, <- Hloc. apply (Hf i c m Hc). rewrite H2, H3. exact Hm.
Qed.

Lemma keysKept_write_candidate (p : Pools) (i : nat) (c c' : Cand.t) :
  scoringCandidatePool p !! i = Some c -> candidateKey c' = candidateKey c ->
  keysKept p (set_scoringCandidatePool (<[i := c']> (scoringCandidatePool p)) p).
Proof.
  intros Hc Hkey. repeat split. simpl. eapply fmap_insert_same; eassumption.
Qed.

Lemma keysKept_write_mate (p : Pools) (s : Z) (j : nat) (m m' : Mate.t) :
  get2 (scoringMateCandidates p) s !! j = Some m ->
  Mate.readWithMoreHitsGenomeLocation m' = Mate.readWithMoreHitsGenomeLocation m ->
  keysKept p (set_scoringMateCandidates
                (set2 (scoringMateCandidates p) s (<[j := m']> (get2 (scoringMateCandidates p) s)))
                p).
Proof.
  intros Hm Hloc. unfold keysKept. simpl. rewrite fst_set2, snd_set2. unfold get2 in *.
  split; [reflexivity|].
  destruct (s =? 0); (split; [|try reflexivity]); try reflexivity;
    eapply fmap_insert_same; eassumption.
Qed.

Lemma window_of_checks (cfg : Config) (candidateLocus mateLocus : GenomeLocation) :
  genomeLocationIsWithin mateLocus candidateLocus (maxSpacing cfg) = true ->
  genomeLocationIsWithin mateLocus candidateLocus (minSpacing cfg) = false ->
  inSpacingWindow cfg candidateLocus mateLocus.
Proof.
  unfold genomeLocationIsWithin, DistanceBetweenGenomeLocations, inSpacingWindow.
  intros Hmax Hmin. apply Z.leb_le in Hmax. apply Z.leb_gt in Hmin.
  destruct (Z.ltb_spec candidateLocus mateLocus); lia.
Qed.

Lemma spacingInvariant_kept (cfg : Config) (st : Scoring) (p' : Pools) (best limit : Z) :
  spacingInvariant cfg st -> keysKept (pools st) p' ->
  mergeAnchorPool p' = mergeAnchorPool (pools st) ->
  spacingInvariant cfg (mkScoring p' best limit (matesScored st)).
Proof.
  intros (Hf & Ha & Hs) Hk Hanchors. split; [|split]; simpl.
  - eapply firstMatesInRange_kept; eassumption.
  - intros i a Hi. rewrite Hanchors in Hi. eapply pairInWindow_kept; eauto.
  - intros e He. eapply pairInWindow_kept; eauto.
Qed.

Lemma mergePair_spacing (cfg : Config) (E : Externals) (inRevise : bool) (candIdx : nat)
    (candidate : Cand.t) (mateIndex : Z) (mate : Mate.t) (astrayEDPenalty : Z)
    (fewerEndMatchProbability : float) (st st' : Scoring) :
  spacingInvariant cfg st ->
  scoringCandidatePool (pools st) !! candIdx = Some candidate ->
  pairInWindow cfg (pools st) candIdx (Cand.whichSetPair candidate, mateIndex) ->
  mergePair cfg E inRevise candIdx candidate mateIndex mate astrayEDPenalty
            fewerEndMatchProbability st = Ok st' ->
  spacingInvariant cfg st' /\ keysKept (pools st) (pools st').
Proof.
  intros (Hf & Ha & Hs) Hcand Hpair H. unfold mergePair in H.
  bind_inv H as r Hr. destruct r as [p' anchorUpdate].
  assert (Hp' : keysKept (pools st) p' /\ anchorsInWindow cfg p').
  { destruct (findMergeAnchor _ _ _) as [a|].
    - bind_inv Hr as pool' Hw. apply writeArray_Ok in Hw as (_ & _ & ->).
      bind_inv Hr as anchor Hanchor. apply readArray_Ok in Hanchor as [_ Hanchor].
      destruct (checkMerge _ _ _ _ _ _ _ _ _) as [anchor' ignored] eqn:Hcm.
      bind_inv Hr as anchors' Hw. apply writeArray_Ok in Hw as (_ & Hlt & ->).
      injection Hr as <- <-. repeat rewrite Nat2Z.id in *.
      assert (Hk : keysKept (pools st)
                (set_scoringCandidatePool
                   (<[candIdx := Cand.set_mergeAnchor (Some a) candidate]>
                      (scoringCandidatePool (pools st)))
                   (set_mergeAnchorPool
                      (<[a := anchor']> (mergeAnchorPool (pools st))) (pools st)))).
      { apply (keysKept_write_candidate
                 (set_mergeAnchorPool (<[a := anchor']> (mergeAnchorPool (pools st))) (pools st))
                 candIdx candidate); [exact Hcand | reflexivity]. }
      split; [exact Hk|].
      intros i x Hi. simpl in Hi. eapply pairInWindow_kept; [exact Hk|].
      destruct (decide (a = i)) as [<-|Hne].
      + rewrite list_lookup_insert_eq in Hi by exact Hlt. injection Hi as <-.
        apply checkMerge_true_iff_ignored in Hcm as [[_ ->] | [_ ->]];
          [eapply Ha; exact Hanchor | exact Hpair].
      + rewrite list_lookup_insert_ne in Hi by exact Hne. eapply Ha; exact Hi.
    - destruct (_ <=? _); [discriminate|].
      bind_inv Hr as pool' Hw. apply writeArray_Ok in Hw as (_ & _ & ->).
      injection Hr as <- <-. repeat rewrite Nat2Z.id in *.
      set (anchor := Anchor.init _ _ _ _ _ _ _).
      assert (Hk : keysKept (pools st)
                (set_scoringCandidatePool
                   (<[candIdx := Cand.set_mergeAnchor
                                   (Some (length (mergeAnchorPool (pools st)))) candidate]>
                      (scoringCandidatePool (pools st)))
                   (set_mergeAnchorPool (mergeAnchorPool (pools st) ++ [anchor]) (pools st)))).
      { apply (keysKept_write_candidate
                 (set_mergeAnchorPool (mergeAnchorPool (pools st) ++ [anchor]) (pools st))
                 candIdx candidate); [exact Hcand | reflexivity]. }
      split; [exact Hk|].
      intros i x Hi. simpl in Hi. eapply pairInWindow_kept; [exact Hk|].
      apply lookup_app_Some in Hi as [Hi | [_ Hi]]; [eapply Ha; exact Hi|].
      apply list_lookup_singleton_Some in Hi as [_ <-]. exact Hpair. }
  destruct Hp' as [Hk Ha'].
  assert (Hinv : forall best limit,
             spacingInvariant cfg (mkScoring p' best limit (matesScored st))).
  { intros best limit. split; [|split]; simpl.
    - eapply firstMatesInRange_kept; eassumption.
    - exact Ha'.
    - intros e He. eapply pairInWindow_kept; eauto. }
  destruct (_ && _); injection H as <-; (split; [apply Hinv | exact Hk]).
Qed.

Lemma pairInWindow_intro (cfg : Config) (p : Pools) (candIdx : nat) (c : Cand.t)
    (mateIndex : Z) (m : Mate.t) :
  scoringCandidatePool p !! candIdx = Some c ->
  mateAt p (Cand.whichSetPair c, mateIndex) = Ok m ->
  genomeLocationIsWithin (Mate.readWithMoreHitsGenomeLocation m)
    (Cand.readWithFewerHitsGenomeLocation c) (maxSpacing cfg) = true ->
  genomeLocationIsWithin (Mate.readWithMoreHitsGenomeLocation m)
    (Cand.readWithFewerHitsGenomeLocation c) (minSpacing cfg) = false ->
  pairInWindow cfg p candIdx (Cand.whichSetPair c, mateIndex).
Proof.
  intros Hc Hm Hmax Hmin. exists c, m. repeat split; auto.
  apply window_of_checks; assumption.
Qed.

Lemma scoreMates_spacing (cfg : Config) (E : Externals) (fuel : nat) (inRevise : bool)
    (readLen_ : Z * Z) (more : Z) (candIdx : nat) (astrayEDPenalty compensatedScoreLimit : Z)
    (fewerEndMatchProbability : float) :
  forall (mateIndex : Z) (st st' : Scoring),
    spacingInvariant cfg st ->
    (forall c m,
        scoringCandidatePool (pools st) !! candIdx = Some c ->
        mateAt (pools st) (Cand.whichSetPair c, mateIndex) = Ok m ->
        genomeLocationIsWithin (Mate.readWithMoreHitsGenomeLocation m)
          (Cand.readWithFewerHitsGenomeLocation c) (maxSpacing cfg) = true) ->
    scoreMates cfg E fuel inRevise readLen_ more candIdx astrayEDPenalty
               compensatedScoreLimit fewerEndMatchProbability mateIndex st = Ok st' ->
    spacingInvariant cfg st' /\ keysKept (pools st) (pools st').
Proof.
  induction fuel as [|fuel IH]; intros mateIndex st st' Hinv Hfirst H; [discriminate|].
  cbn [scoreMates] in H.
  bind_inv H as candidate Hcand. apply readArray_Ok in Hcand as [_ Hcand].
  rewrite Nat2Z.id in Hcand.
  bind_inv H as mate Hmate.
  assert (Hmate' : mateAt (pools st) (Cand.whichSetPair candidate, mateIndex) = Ok mate)
    by exact Hmate.
  pose proof (Hfirst candidate mate Hcand Hmate') as Hmax.
  bind_inv H as st1 Hst1.
  assert (H1 : spacingInvariant cfg st1 /\ keysKept (pools st) (pools st1)).
  { destruct (negb _ && _) eqn:Hguard;
      [| injection Hst1 as <-; split; [exact Hinv | apply keysKept_refl]].
    apply andb_prop in Hguard as [Hmin _]. apply negb_true_iff in Hmin.
    pose proof (pairInWindow_intro cfg _ _ _ _ _ Hcand Hmate' Hmax Hmin) as Hpair.
    bind_inv Hst1 as r Hr. destruct r as [[mate' p1] log1].
    assert (Hmid : spacingInvariant cfg
                     (mkScoring p1 (bestCompensatedScore st) (scoreLimit st) log1) /\
                   keysKept (pools st) p1 /\
                   scoringCandidatePool p1 = scoringCandidatePool (pools st)).
    { destruct (_ || _).
      - destruct (scoreLocation _ _ _ _ _ _ _ _) as [[score matchProbability] genomeOffset].
        bind_inv Hr as mates' Hw. apply writeArray_Ok in Hw as (Hi & Hlt & ->).
        injection Hr as <- <- <-.
        apply readArray_Ok in Hmate as [_ Hmate].
        assert (Hk : keysKept (pools st)
                  (set_nLocationsScored (nLocationsScored (pools st) + 1)
                     (set_scoringMateCandidates
                        (set2 (scoringMateCandidates (pools st))
                              (Cand.whichSetPair candidate)
                              (<[Z.to_nat mateIndex :=
                                   Mate.set_scored score matchProbability genomeOffset
                                     (wrap32 (compensatedScoreLimit
                                              - Cand.fewerEndScore candidate)) mate]>
                                 (get2 (scoringMateCandidates (pools st))
                                       (Cand.whichSetPair candidate))))
                        (pools st)))).
        { eapply keysKept_trans;
            [apply (keysKept_write_mate (pools st) (Cand.whichSetPair candidate)
                      (Z.to_nat mateIndex) mate
                      (Mate.set_scored score matchProbability genomeOffset
                         (wrap32 (compensatedScoreLimit - Cand.fewerEndScore candidate)) mate)
                      Hmate); reflexivity
            | repeat split]. }
        split; [|split; [exact Hk | reflexivity]].
        destruct Hinv as (Hf & Ha & Hs). split; [|split]; simpl.
        + eapply firstMatesInRange_kept; eassumption.
        + intros i a Hia. simpl in Hia. eapply pairInWindow_kept; eauto.
        + intros e He. eapply pairInWindow_kept; [exact Hk|].
          apply elem_of_app in He as [He | He]; [apply Hs; exact He|].
          apply list_elem_of_singleton in He as ->. exact Hpair.
      - injection Hr as <- <- <-. split; [|split; [apply keysKept_refl | reflexivity]].
        destruct st; exact Hinv. }
    destruct Hmid as (Hinv1 & Hk1 & Hpool1).
    destruct (negb (Mate.score mate' =? NEG1));
      [| injection Hst1 as <-; split; [exact Hinv1 | exact Hk1]].
    apply mergePair_spacing in Hst1 as [Hinv2 Hk2].
    + split; [exact Hinv2 | eapply keysKept_trans; [exact Hk1 | exact Hk2]].
    + exact Hinv1.
    + simpl. rewrite Hpool1. exact Hcand.
    + simpl. eapply pairInWindow_kept; [exact Hk1 | exact Hpair]. }
  destruct H1 as [Hinv1 Hk1]. clear Hst1.
  destruct (mateIndex =? 0); [injection H as <-; auto|].
  bind_inv H as above Habove.
  destruct (negb (genomeLocationIsWithin _ _ (maxSpacing cfg))) eqn:Hnear;
    [injection H as <-; auto|].
  apply negb_false_iff in Hnear.
  apply IH in H as [Hinv2 Hk2].
  - split; [exact Hinv2 | eapply keysKept_trans; eassumption].
  - exact Hinv1.
  - intros c m Hc Hm.
    destruct (keysKept_cand _ _ _ _ Hk1 Hcand) as (c' & Hc' & Hkey).
    assert (c' = c) by congruence. subst c'.
    unfold candidateKey in Hkey. injection Hkey as K1 K2 K3 K4 K5.
    assert (Hab : mateAt (pools st) (Cand.whichSetPair c, mateIndex - 1) = Ok above)
      by (rewrite K2; exact Habove).
    destruct (keysKept_mate _ _ _ _ Hk1 Hab) as (m' & Hm' & Hloc).
    assert (m' = m) by congruence. subst m'.
    rewrite Hloc, K1. exact Hnear.
Qed.

Lemma scoreCandidate_spacing (cfg : Config) (E : Externals) (inRevise : bool)
    (readLen_ : Z * Z) (more fewer k : Z) (candIdx : nat) (st st' : Scoring) :
  spacingInvariant cfg st ->
  scoreCandidate cfg E inRevise readLen_ more fewer k candIdx st = Ok st' ->
  spacingInvariant cfg st' /\ keysKept (pools st) (pools st').
Proof.
  intros Hinv H. unfold scoreCandidate in H.
  bind_inv H as candidate Hcand. apply readArray_Ok in Hcand as [_ Hcand].
  rewrite Nat2Z.id in Hcand.
  destruct (scoreLocation _ _ _ _ _ _ _ _)
    as [[fewerEndScore fewerEndMatchProbability] fewerEndGenomeLocationOffset].
  bind_inv H as pool' Hw. apply writeArray_Ok in Hw as (_ & Hlt & ->).
  rewrite Nat2Z.id in *.
  bind_inv H as st2 Hst2. bind_inv H as heads' Hheads. injection H as <-.
  set (candidate' := Cand.set_scored fewerEndScore fewerEndGenomeLocationOffset candidate) in *.
  set (p1 := set_nLocationsScored (nLocationsScored (pools st) + 1)
               (set_scoringCandidatePool
                  (<[candIdx := candidate']> (scoringCandidatePool (pools st))) (pools st))) in *.
  assert (Hk1 : keysKept (pools st) p1).
  { eapply keysKept_trans;
      [apply (keysKept_write_candidate (pools st) candIdx candidate candidate' Hcand);
       reflexivity
      | repeat split]. }
  pose proof (spacingInvariant_kept cfg st p1 (bestCompensatedScore st) (scoreLimit st)
                Hinv Hk1 eq_refl) as Hinv1.
  assert (H2 : spacingInvariant cfg st2 /\ keysKept p1 (pools st2)).
  { destruct (negb (fewerEndScore =? NEG1));
      [| injection Hst2 as <-; split; [exact Hinv1 | apply keysKept_refl]].
    apply scoreMates_spacing in Hst2; [exact Hst2 | exact Hinv1 |].
    intros c m Hc Hm. destruct Hinv1 as (Hf & _). apply (Hf candIdx c m Hc).
    assert (Hcc : c = candidate').
    { simpl in Hc. rewrite list_lookup_insert_eq in Hc by exact Hlt. congruence. }
    subst c. exact Hm. }
  destruct H2 as [Hinv2 Hk2]. split.
  - apply (spacingInvariant_kept cfg st2); [exact Hinv2 | repeat split | reflexivity].
  - eapply keysKept_trans; [exact Hk1|]. eapply keysKept_trans; [exact Hk2 | repeat split].
Qed.

Lemma scoreLoop_spacing (cfg : Config) (E : Externals) (fuel : nat) (inRevise : bool)
    (readLen_ : Z * Z) (more fewer : Z) :
  forall (k : Z) (st st' : Scoring),
    spacingInvariant cfg st ->
    scoreLoop cfg E fuel inRevise readLen_ more fewer k st = Ok st' ->
    spacingInvariant cfg st'.
Proof.
  induction fuel as [|fuel IH]; intros k st st' Hinv H; [discriminate|].
  cbn [scoreLoop] in H.
  destruct (_ && _); [| injection H as <-; exact Hinv].
  bind_inv H as head Hhead. destruct head as [candIdx|].
  - bind_inv H as st1 Hst1. apply scoreCandidate_spacing in Hst1 as [Hinv1 _]; [|exact Hinv].
    eapply IH; eassumption.
  - eapply IH; eassumption.
Qed.

(** C5: a scoring pass that starts from anchors respecting the spacing window
    (for instance from none), with the first mate of every candidate within
    [maxSpacing] as line 777 asserts, ends with every pair held by a merge
    anchor, which are the pairs reported, in the window
    [C - maxSpacing, C - minSpacing] or [C + minSpacing, C + maxSpacing]; and
    every mate it scored was scored for a candidate whose window it is in. *)
Theorem scored_pairs_respect_the_spacing_window
    (cfg : Config) (E : Externals) (fuel : nat) (readLen_ : Z * Z) (more fewer : Z)
    (p : Pools) (best : Z) (inRevise : bool) (st : Scoring) :
  firstMatesInRange cfg p ->
  anchorsInWindow cfg p ->
  scorePass cfg E fuel readLen_ more fewer p best inRevise = Ok st ->
  align_phase_3_score cfg E fuel readLen_ more fewer p best inRevise
  = Ok (pools st, bestCompensatedScore st) /\
  anchorsInWindow cfg (pools st) /\
  scoredInWindow cfg (pools st) (matesScored st).
Proof.
  intros Hf Ha H. split.
  - unfold align_phase_3_score. rewrite H. reflexivity.
  - unfold scorePass in H. apply scoreLoop_spacing in H.
    + destruct H as (_ & Ha' & Hs'). auto.
    + split; [exact Hf|]. split; [exact Ha|]. intros e He. simpl in He.
      apply elem_of_nil in He. contradiction.
Qed.

Lemma scored_pairs_respect_the_spacing_window_witness :
  exists st,
    scorePass sampleConfig (sampleExternals replacedPairScores) 4 (100, 100) 1 0
              replacedPairPools 100 false = Ok st /\
    align_phase_3_score sampleConfig (sampleExternals replacedPairScores) 4 (100, 100) 1 0
                        replacedPairPools 100 false
    = Ok (pools st, bestCompensatedScore st) /\
    anchorsInWindow sampleConfig (pools st) /\
    scoredInWindow sampleConfig (pools st) (matesScored st).
Proof.
  eexists. split; [vm_compute; reflexivity|].
  eapply (scored_pairs_respect_the_spacing_window sampleConfig
            (sampleExternals replacedPairScores) 4 (100, 100) 1 0 replacedPairPools 100 false).
  - intros i c m Hc Hm. destruct i as [|i]; [|destruct i; discriminate].
    simpl in Hc. injection Hc as <-. vm_compute in Hm. injection Hm as <-. reflexivity.
  - intros i a Ha. destruct i; discriminate.
  - vm_compute. reflexivity.
Defined.

(** ** The score limits *)

Lemma int32_small (z : Z) : 0 <= z < 2 ^ 31 -> int32 z = z.
Proof.
  intros H. unfold int32. rewrite wrap32_small by lia.
  destruct (Z.ltb_spec z (2 ^ 31)); [reflexivity | lia].
Qed.

Lemma scoreLocation_bounded (E : Externals) (readLen_ : Z * Z) (whichRead direction : Z)
    (location : GenomeLocation) (seedOffset limit offset0 : Z) :
  scorerContract E -> 0 <= limit < 2 ^ 31 ->
  let score := fst (fst (scoreLocation E readLen_ whichRead direction location seedOffset
                                       limit offset0)) in
  score = NEG1 \/ 0 <= score <= limit.
Proof.
  intros [Hfwd Hrev] Hlimit. unfold scoreLocation.
  destruct (getSubstringIsNull E _ _); [left; reflexivity|].
  rewrite (int32_small limit) by exact Hlimit.
  pose proof (Hfwd whichRead direction location seedOffset limit (proj1 Hlimit)) as H1.
  destruct (landauVishkin E _ _ _ _ _) as [score1 matchProb1]. cbn [fst] in H1.
  destruct (Z.eqb_spec score1 (-1)) as [->|Hne1]; [left; reflexivity|].
  destruct H1 as [H1|H1]; [contradiction|].
  rewrite (int32_small (limit - score1)) by lia.
  assert (Hleft : 0 <= limit - score1) by lia.
  pose proof (Hrev whichRead direction location seedOffset (limit - score1) Hleft) as H2.
  destruct (reverseLandauVishkin E _ _ _ _ _) as [[score2 matchProb2] offset]. cbn [fst] in H2.
  destruct (Z.eqb_spec score2 (-1)) as [->|Hne2]; [left; reflexivity|].
  destruct H2 as [H2|H2]; [contradiction|].
  rewrite (wrap32_small (score1 + score2)) by lia.
  destruct (score1 + score2 =? NEG1); cbn [fst]; right; lia.
Qed.

Lemma listPenalised_kept (cfg : Config) (pool pool' : list Cand.t) (k : Z) (head : option nat) :
  candidateKey <$> pool' = candidateKey <$> pool ->
  listPenalised cfg pool k head -> listPenalised cfg pool' k head.
Proof.
  intros Hk H. induction H as [|i c Hc Hastray Hnext IH]; [constructor|].
  destruct (fmap_eq_lookup _ _ _ _ _ Hk Hc) as (c' & Hc' & Hkey).
  unfold candidateKey in Hkey. injection Hkey as K1 K2 K3 K4 K5.
  apply (listPenalised_cons cfg pool' k i c' Hc'); [rewrite K5; exact Hastray|].
  rewrite K4. exact IH.
Qed.

Lemma listsPenalised_kept (cfg : Config) (p p' : Pools) :
  keysKept p p' -> scoringCandidates p' = scoringCandidates p ->
  listsPenalised cfg p -> listsPenalised cfg p'.
Proof.
  intros (Hk & _) Hheads H k head Hhead. rewrite Hheads in Hhead.
  eapply listPenalised_kept; [exact Hk | apply H; exact Hhead].
Qed.

Lemma astrayOf_range (cfg : Config) (clusterIdx : Z) :
  saneConfig cfg -> 0 <= astrayOf cfg clusterIdx <= clusterEDCompensation cfg.
Proof. intros (_ & _ & H & _). unfold astrayOf. destruct (clusterIdx =? -1); lia. Qed.

Lemma mergePair_bounded (cfg : Config) (E : Externals) (candIdx : nat)
    (candidate : Cand.t) (mateIndex : Z) (mate : Mate.t) (astrayEDPenalty : Z)
    (fewerEndMatchProbability : float) (st st' : Scoring) :
  saneConfig cfg -> scoreInvariant cfg st ->
  scoringCandidatePool (pools st) !! candIdx = Some candidate ->
  astrayEDPenalty = astrayOf cfg (Cand.clusterIdx candidate) ->
  0 <= Cand.fewerEndScore candidate ->
  Cand.fewerEndScore candidate + astrayEDPenalty <= fullLimit cfg ->
  0 <= Mate.score mate <= fullLimit cfg ->
  mergePair cfg E false candIdx candidate mateIndex mate astrayEDPenalty
            fewerEndMatchProbability st = Ok st' ->
  scoreInvariant cfg st' /\
  scoringMateCandidates (pools st') = scoringMateCandidates (pools st) /\
  scoringCandidates (pools st') = scoringCandidates (pools st) /\
  exists ma, scoringCandidatePool (pools st')
             = <[candIdx := Cand.set_mergeAnchor ma candidate]> (scoringCandidatePool (pools st)).
Proof.
  intros Hsane (Hlimit & Hmates & Hanchors & Hlists) Hcand -> Hf0 Hf Hm H.
  pose proof Hsane as (HK & HX & HC & H2L).
  pose proof (astrayOf_range cfg (Cand.clusterIdx candidate) Hsane) as Hastray.
  unfold fullLimit in *. unfold mergePair in H.
  rewrite (wrap32_small (Mate.score mate + Cand.fewerEndScore candidate)) in H by lia.
  rewrite (int32_small (Mate.score mate + Cand.fewerEndScore candidate)) in H by lia.
  rewrite (wrap32_small (Mate.score mate + Cand.fewerEndScore candidate + _)) in H by lia.
  rewrite (wrap32_small (maxK cfg + clusterEDCompensation cfg)) in H by lia.
  bind_inv H as r Hr. destruct r as [p' anchorUpdate].
  assert (Hp' : anchorsBounded cfg p' /\
                scoringMateCandidates p' = scoringMateCandidates (pools st) /\
                scoringCandidates p' = scoringCandidates (pools st) /\
                exists ma, scoringCandidatePool p'
                           = <[candIdx := Cand.set_mergeAnchor ma candidate]>
                               (scoringCandidatePool (pools st))).
  { destruct (findMergeAnchor _ _ _) as [a|].
    - bind_inv Hr as pool' Hw. apply writeArray_Ok in Hw as (_ & _ & ->).
      bind_inv Hr as anchor Hanchor. apply readArray_Ok in Hanchor as [_ Hanchor].
      destruct (checkMerge _ _ _ _ _ _ _ _ _) as [anchor' ignored] eqn:Hcm.
      bind_inv Hr as anchors' Hw. apply writeArray_Ok in Hw as (_ & Hlt & ->).
      injection Hr as <- <-. repeat rewrite Nat2Z.id in *. simpl.
      split; [| split; [reflexivity | split; [reflexivity | eauto]]].
      intros i x Hi. simpl in Hi.
      destruct (decide (a = i)) as [<-|Hne].
      + rewrite list_lookup_insert_eq in Hi by exact Hlt. injection Hi as <-.
        apply checkMerge_true_iff_ignored in Hcm as [[_ ->] | [_ ->]];
          [eapply Hanchors; exact Hanchor | simpl; unfold fullLimit; lia].
      + rewrite list_lookup_insert_ne in Hi by exact Hne. eapply Hanchors; exact Hi.
    - destruct (_ <=? _); [discriminate|].
      bind_inv Hr as pool' Hw. apply writeArray_Ok in Hw as (_ & _ & ->).
      injection Hr as <- <-. repeat rewrite Nat2Z.id in *. simpl.
      split; [| split; [reflexivity | split; [reflexivity | eauto]]].
      intros i x Hi. simpl in Hi.
      apply lookup_app_Some in Hi as [Hi | [_ Hi]]; [eapply Hanchors; exact Hi|].
      apply list_lookup_singleton_Some in Hi as [_ <-]. simpl. unfold fullLimit. lia. }
  destruct Hp' as (Ha' & Hm' & Hh' & ma & Hpool').
  assert (Hk : keysKept (pools st) p').
  { split; [|rewrite Hm'; auto]. rewrite Hpool'.
    eapply fmap_insert_same; [exact Hcand | reflexivity]. }
  assert (Hrest : mateScoresBounded cfg p' /\ listsPenalised cfg p').
  { split.
    - intros ptr m Hptr. apply (Hmates ptr m). unfold mateAt in *. rewrite <- Hm'. exact Hptr.
    - eapply listsPenalised_kept; eassumption. }
  destruct Hrest as [Hmates' Hlists'].
  destruct (_ && _) eqn:Hupdate; injection H as <-; simpl.
  - split; [| split; [exact Hm' | split; [exact Hh' | eauto]]].
    split; [| split; [exact Hmates' | split; [exact Ha' | exact Hlists']]].
    simpl. apply andb_prop in Hupdate as [Hupdate _].
    apply andb_prop in Hupdate as [_ Hle]. apply Z.leb_le in Hle.
    rewrite int32_small by lia. unfold fullLimit.
    destruct (negb (noUkkonen cfg)); [rewrite wrap32_small by lia; lia | exact Hlimit].
  - split; [| split; [exact Hm' | split; [exact Hh' | eauto]]].
    split; [exact Hlimit | split; [exact Hmates' | split; [exact Ha' | exact Hlists']]].
Qed.

Lemma mateAt_write (p : Pools) (s : Z) (j : nat) (m' : Mate.t) (ptr : Z * Z) (m : Mate.t) :
  mateAt (set_scoringMateCandidates
            (set2 (scoringMateCandidates p) s (<[j := m']> (get2 (scoringMateCandidates p) s)))
            p) ptr = Ok m ->
  m = m' \/ mateAt p ptr = Ok m.
Proof.
  unfold mateAt. simpl. intros H. apply readArray_Ok in H as [Hi H].
  unfold get2, set2 in *.
  destruct (s =? 0), (fst ptr =? 0); simpl in H;
    try (right; apply readArray_Ok; split; [exact Hi | exact H]);
    (destruct (decide (j = Z.to_nat (snd ptr))) as [->|Hne];
     [ destruct (decide (Z.to_nat (snd ptr) < length (fst (scoringMateCandidates p)))%nat);
       destruct (decide (Z.to_nat (snd ptr) < length (snd (scoringMateCandidates p)))%nat);
       first [ rewrite list_lookup_insert_eq in H by assumption; left; congruence
             | rewrite list_insert_ge in H by lia; right; apply readArray_Ok; auto ]
     | rewrite list_lookup_insert_ne in H by exact Hne; right; apply readArray_Ok; auto ]).
Qed.

Lemma scoreMates_bounded (cfg : Config) (E : Externals) (fuel : nat) (readLen_ : Z * Z)
    (more : Z) (candIdx : nat) (astrayEDPenalty compensatedScoreLimit : Z)
    (fewerEndMatchProbability : float) (f ci : Z) :
  saneConfig cfg -> scorerContract E ->
  astrayEDPenalty = astrayOf cfg ci ->
  0 <= f <= compensatedScoreLimit ->
  compensatedScoreLimit + astrayEDPenalty <= fullLimit cfg ->
  forall (mateIndex : Z) (st st' : Scoring),
    scoreInvariant cfg st ->
    (exists c, scoringCandidatePool (pools st) !! candIdx = Some c /\
               Cand.fewerEndScore c = f /\ Cand.clusterIdx c = ci) ->
    scoreMates cfg E fuel false readLen_ more candIdx astrayEDPenalty
               compensatedScoreLimit fewerEndMatchProbability mateIndex st = Ok st' ->
    scoreInvariant cfg st' /\ keysKept (pools st) (pools st') /\
    scoringCandidates (pools st') = scoringCandidates (pools st).
Proof.
  intros Hsane Hcontract Hastray Hf HcSL.
  pose proof Hsane as (HK & HX & HC & H2L).
  pose proof (astrayOf_range cfg ci Hsane) as Hrange.
  induction fuel as [|fuel IH]; intros mateIndex st st' Hinv Hfacts H; [discriminate|].
  cbn [scoreMates] in H.
  bind_inv H as candidate Hcand. apply readArray_Ok in Hcand as [_ Hcand].
  rewrite Nat2Z.id in Hcand.
  destruct Hfacts as (c0 & Hc0 & Hf0 & Hci0).
  assert (c0 = candidate) by congruence. subst c0.
  bind_inv H as mate Hmate.
  bind_inv H as st1 Hst1.
  assert (H1 : scoreInvariant cfg st1 /\ keysKept (pools st) (pools st1) /\
               scoringCandidates (pools st1) = scoringCandidates (pools st) /\
               exists c, scoringCandidatePool (pools st1) !! candIdx = Some c /\
                         Cand.fewerEndScore c = f /\ Cand.clusterIdx c = ci).
  { destruct (negb _ && _);
      [| injection Hst1 as <-;
         split; [exact Hinv | split; [apply keysKept_refl | split; [reflexivity | eauto]]]].
    rewrite Hf0 in Hst1.
    rewrite (wrap32_small (compensatedScoreLimit - f)) in Hst1 by (unfold fullLimit in *; lia).
    bind_inv Hst1 as r Hr. destruct r as [[mate' p1] log1].
    destruct Hinv as (Hlimit & Hmates & Hanchors & Hlists).
    assert (Hmid : mateScoresBounded cfg p1 /\ keysKept (pools st) p1 /\
                   scoringCandidatePool p1 = scoringCandidatePool (pools st) /\
                   mergeAnchorPool p1 = mergeAnchorPool (pools st) /\
                   scoringCandidates p1 = scoringCandidates (pools st) /\
                   (Mate.score mate' = NEG1 \/ 0 <= Mate.score mate' <= fullLimit cfg)).
    { destruct (_ || _) eqn:Hrescore.
      - pose proof (scoreLocation_bounded E readLen_ more
                      (setPairDirection (Cand.whichSetPair candidate) more)
                      (Mate.readWithMoreHitsGenomeLocation mate) (Mate.seedOffset mate)
                      (compensatedScoreLimit - f) (Mate.genomeOffset mate) Hcontract) as Hscore.
        destruct (scoreLocation _ _ _ _ _ _ _ _) as [[score matchProbability] genomeOffset].
        cbn [fst] in Hscore.
        assert (Hscore' : score = NEG1 \/ 0 <= score <= compensatedScoreLimit - f)
          by (apply Hscore; unfold fullLimit in *; lia).
        bind_inv Hr as mates' Hw. apply writeArray_Ok in Hw as (Hi & Hlt & ->).
        injection Hr as <- <- <-.
        apply readArray_Ok in Hmate as [_ Hmate].
        split; [| split; [| split; [reflexivity | split; [reflexivity | split; [reflexivity|]]]]].
        + intros ptr m Hm.
          apply (mateAt_write (pools st)) in Hm as [-> | Hm]; [| apply (Hmates ptr m Hm)].
          simpl. right. unfold fullLimit in *. destruct Hscore'; [left; assumption | right; lia].
        + eapply keysKept_trans;
            [apply (keysKept_write_mate (pools st) (Cand.whichSetPair candidate)
                      (Z.to_nat mateIndex) mate
                      (Mate.set_scored score matchProbability genomeOffset
                         (compensatedScoreLimit - f) mate)
                      Hmate); reflexivity
            | repeat split].
        + simpl. unfold fullLimit in *. destruct Hscore'; [left; assumption | right; lia].
      - injection Hr as <- <- <-.
        split; [exact Hmates|]. split; [apply keysKept_refl|].
        split; [reflexivity|]. split; [reflexivity|]. split; [reflexivity|].
        apply orb_false_iff in Hrescore as [Hne2 _]. apply Z.eqb_neq in Hne2.
        destruct (Hmates (Cand.whichSetPair candidate, mateIndex) mate Hmate)
          as [H2 | [H1 | Hb]]; [contradiction | left; exact H1 | right; exact Hb]. }
    destruct Hmid as (Hmates1 & Hk1 & Hpool1 & Hanchors1 & Hheads1 & Hscore1).
    assert (Hinv1 : scoreInvariant cfg
                      (mkScoring p1 (bestCompensatedScore st) (scoreLimit st) log1)).
    { split; [exact Hlimit|]. split; [exact Hmates1|]. simpl. split.
      - intros i a Hi. rewrite Hanchors1 in Hi. apply (Hanchors i a Hi).
      - eapply listsPenalised_kept; eassumption. }
    destruct (Z.eqb_spec (Mate.score mate') NEG1) as [Heq|Hne]; cbn [negb] in Hst1.
    - injection Hst1 as <-. simpl.
      split; [exact Hinv1|]. split; [exact Hk1|]. split; [exact Hheads1|].
      exists candidate. rewrite Hpool1. auto.
    - destruct Hscore1 as [Hcontra | Hscore1]; [contradiction|].
      apply mergePair_bounded in Hst1 as (Hinv2 & Hm2 & Hh2 & ma & Hpool2);
        [ | exact Hsane | exact Hinv1 | simpl; rewrite Hpool1; exact Hc0
          | congruence | lia | unfold fullLimit in *; lia | exact Hscore1 ].
      simpl in Hm2, Hh2, Hpool2.
      assert (Hlt : (candIdx < length (scoringCandidatePool p1))%nat)
        by (rewrite Hpool1; eapply lookup_lt_Some; exact Hc0).
      split; [exact Hinv2|]. split; [|split].
      + eapply keysKept_trans; [exact Hk1|]. split; [| rewrite Hm2; auto].
        rewrite Hpool2. eapply fmap_insert_same; [rewrite Hpool1; exact Hc0 | reflexivity].
      + congruence.
      + exists (Cand.set_mergeAnchor ma candidate). rewrite Hpool2.
        rewrite list_lookup_insert_eq by exact Hlt. auto. }
  destruct H1 as (Hinv1 & Hk1 & Hh1 & Hfacts1). clear Hst1.
  destruct (mateIndex =? 0); [injection H as <-; auto|].
  bind_inv H as above Habove.
  destruct (negb (genomeLocationIsWithin _ _ (maxSpacing cfg))); [injection H as <-; auto|].
  apply IH in H as (Hinv2 & Hk2 & Hh2); [| exact Hinv1 | exact Hfacts1].
  split; [exact Hinv2|]. split; [eapply keysKept_trans; eassumption | congruence].
Qed.

Lemma scoreCandidate_bounded (cfg : Config) (E : Externals) (readLen_ : Z * Z)
    (more fewer k : Z) (candIdx : nat) (st st' : Scoring) :
  saneConfig cfg -> scorerContract E ->
  scoreInvariant cfg st ->
  0 <= k <= scoreLimit st ->
  scoringCandidates (pools st) !! Z.to_nat k = Some (Some candIdx) ->
  scoreCandidate cfg E false readLen_ more fewer k candIdx st = Ok st' ->
  scoreInvariant cfg st'.
Proof.
  intros Hsane Hcontract Hinv Hk Hhead H.
  pose proof Hsane as (HK & HX & HC & H2L).
  pose proof Hinv as (Hlimit & Hmates & Hanchors & Hlists).
  pose proof (Hlists _ _ Hhead) as Hlist. rewrite Z2Nat.id in Hlist by lia.
  inversion Hlist as [|i c Hc Hastray Hnext Hi]; subst i.
  pose proof (astrayOf_range cfg (Cand.clusterIdx c) Hsane) as Hrange.
  unfold scoreCandidate in H.
  bind_inv H as candidate Hcand. apply readArray_Ok in Hcand as [_ Hcand].
  rewrite Nat2Z.id in Hcand. assert (candidate = c) by congruence. subst candidate.
  change (if Cand.clusterIdx c =? -1 then clusterEDCompensation cfg else 0)
    with (astrayOf cfg (Cand.clusterIdx c)) in H.
  rewrite (wrap32_small (scoreLimit st - astrayOf cfg (Cand.clusterIdx c))) in H
    by (unfold fullLimit in *; lia).
  pose proof (scoreLocation_bounded E readLen_ fewer
                (setPairDirection (Cand.whichSetPair c) fewer)
                (Cand.readWithFewerHitsGenomeLocation c) (Cand.seedOffset c)
                (scoreLimit st - astrayOf cfg (Cand.clusterIdx c))
                (Cand.fewerEndGenomeLocationOffset c) Hcontract) as Hscore.
  destruct (scoreLocation _ _ _ _ _ _ _ _)
    as [[fewerEndScore fewerEndMatchProbability] fewerEndGenomeLocationOffset].
  cbn [fst] in Hscore.
  assert (Hscore' : fewerEndScore = NEG1 \/
                    0 <= fewerEndScore <= scoreLimit st - astrayOf cfg (Cand.clusterIdx c))
    by (apply Hscore; unfold fullLimit in *; lia).
  bind_inv H as pool' Hw. apply writeArray_Ok in Hw as (_ & Hlt & ->).
  rewrite Nat2Z.id in *.
  bind_inv H as st2 Hst2. bind_inv H as heads' Hheads. injection H as <-.
  apply writeArray_Ok in Hheads as (_ & Hklt & ->).
  set (c' := Cand.set_scored fewerEndScore fewerEndGenomeLocationOffset c) in *.
  set (p1 := set_nLocationsScored (nLocationsScored (pools st) + 1)
               (set_scoringCandidatePool
                  (<[candIdx := c']> (scoringCandidatePool (pools st))) (pools st))) in *.
  assert (Hk1 : keysKept (pools st) p1).
  { eapply keysKept_trans;
      [apply (keysKept_write_candidate (pools st) candIdx c c' Hc); reflexivity
      | repeat split]. }
  assert (Hinv1 : scoreInvariant cfg
                    (mkScoring p1 (bestCompensatedScore st) (scoreLimit st) (matesScored st))).
  { split; [exact Hlimit|]. split; [exact Hmates|]. split; [exact Hanchors|].
    eapply listsPenalised_kept; [exact Hk1 | reflexivity | exact Hlists]. }
  assert (H2 : scoreInvariant cfg st2 /\ keysKept p1 (pools st2) /\
               scoringCandidates (pools st2) = scoringCandidates (pools st)).
  { destruct (Z.eqb_spec fewerEndScore NEG1) as [Heq|Hne]; cbn [negb] in Hst2.
    - injection Hst2 as <-. split; [exact Hinv1 | split; [apply keysKept_refl | reflexivity]].
    - destruct Hscore' as [Hcontra | Hscore']; [contradiction|].
      eapply (scoreMates_bounded cfg E _ readLen_ more candIdx _ _ _ fewerEndScore
                (Cand.clusterIdx c)) in Hst2;
        [ exact Hst2 | exact Hsane | exact Hcontract | reflexivity | exact Hscore'
        | unfold fullLimit in *; lia | exact Hinv1 | ].
      exists c'. split; [| split; reflexivity].
      simpl. apply list_lookup_insert_eq. exact Hlt. }
  destruct H2 as ((Hlimit2 & Hmates2 & Hanchors2 & Hlists2) & Hk2 & Hheads2).
  split; [exact Hlimit2|]. split; [exact Hmates2|]. split; [exact Hanchors2|].
  intros k' head Hk'. simpl in Hk'. simpl.
  destruct (decide (Z.to_nat k = k')) as [<-|Hne].
  - rewrite list_lookup_insert_eq in Hk' by exact Hklt. injection Hk' as <-.
    rewrite Z2Nat.id by lia.
    assert (Hkk : keysKept (pools st) (pools st2)) by (eapply keysKept_trans; eassumption).
    eapply listPenalised_kept; [exact (proj1 Hkk) | exact Hnext].
  - rewrite list_lookup_insert_ne in Hk' by exact Hne. apply Hlists2. exact Hk'.
Qed.

Lemma scoreLoop_bounded (cfg : Config) (E : Externals) (fuel : nat) (readLen_ : Z * Z)
    (more fewer : Z) :
  saneConfig cfg -> scorerContract E ->
  forall (k : Z) (st st' : Scoring),
    scoreInvariant cfg st ->
    scoreLoop cfg E fuel false readLen_ more fewer k st = Ok st' ->
    scoreInvariant cfg st'.
Proof.
  intros Hsane Hcontract.
  induction fuel as [|fuel IH]; intros k st st' Hinv H; [discriminate|].
  cbn [scoreLoop] in H.
  destruct (_ && _) eqn:Hguard; [| injection H as <-; exact Hinv].
  apply andb_prop in Hguard as [_ Hle]. apply Z.leb_le in Hle.
  bind_inv H as head Hhead. apply readArray_Ok in Hhead as [Hk0 Hhead].
  destruct head as [candIdx|].
  - bind_inv H as st1 Hst1.
    apply scoreCandidate_bounded in Hst1; [| assumption | assumption | assumption | lia | assumption].
    eapply IH; eassumption.
  - eapply IH; eassumption.
Qed.

(** C4, as the code has it: after a scoring pass that is not in revise mode,
    every merge anchor, and so every pair that is reported, has a pair score
    that is not negative and is, with the anchor's astray penalty, at most
    twice maxK + extraSearchDepth + clusterEDCompensation: each end was scored
    within the limit of its moment, and their sum is not compared with maxK +
    extraSearchDepth. *)
Theorem pair_scores_within_twice_the_full_limit
    (cfg : Config) (E : Externals) (fuel : nat) (readLen_ : Z * Z) (more fewer : Z)
    (p p' : Pools) (best best' : Z) :
  saneConfig cfg -> scorerContract E ->
  mateScoresBounded cfg p -> anchorsBounded cfg p -> listsPenalised cfg p ->
  align_phase_3_score cfg E fuel readLen_ more fewer p best false = Ok (p', best') ->
  forall i a, mergeAnchorPool p' !! i = Some a ->
    0 <= Anchor.pairScore a /\
    Anchor.pairScore a + astrayOf cfg (Anchor.clusterIdx a)
    <= 2 * (maxK cfg + extraSearchDepth cfg + clusterEDCompensation cfg).
Proof.
  intros Hsane Hcontract Hmates Hanchors Hlists H.
  unfold align_phase_3_score, scorePass in H. bind_inv H as st Hst. injection H as <- <-.
  apply scoreLoop_bounded in Hst as (_ & _ & Ha & _); [exact Ha | exact Hsane | exact Hcontract |].
  pose proof Hsane as (HK & HX & HC & H2L). unfold fullLimit in H2L.
  split; [| split; [exact Hmates | split; [exact Hanchors | exact Hlists]]].
  simpl. rewrite wrap32_small by lia. unfold fullLimit. lia.
Qed.

(** The sample scorers keep the contract when the scores they are made from
    are not negative. *)
Lemma sampleExternals_contract (scoreAt : Z -> GenomeLocation -> Z) :
  (forall whichRead location, 0 <= scoreAt whichRead location) ->
  scorerContract (sampleExternals scoreAt).
Proof.
  intros Hpos. split; intros whichRead direction location seedOffset k Hk; simpl.
  - destruct (Z.leb_spec (scoreAt whichRead location) k); simpl;
      [right; split; [apply Hpos | assumption] | left; reflexivity].
  - right. lia.
Qed.

Lemma sharedMateScores_nonnegative (whichRead : Z) (location : GenomeLocation) :
  0 <= sharedMateScores whichRead location.
Proof.
  unfold sharedMateScores. destruct (whichRead =? 0); [destruct (location =? 1200)|]; lia.
Qed.

Lemma pair_scores_within_twice_the_full_limit_witness :
  exists p' best',
    align_phase_3_score sampleConfig (sampleExternals sharedMateScores) 20 (100, 100) 1 0
                        sharedMatePools 100 false = Ok (p', best') /\
    forall i a, mergeAnchorPool p' !! i = Some a ->
      0 <= Anchor.pairScore a /\
      Anchor.pairScore a + astrayOf sampleConfig (Anchor.clusterIdx a)
      <= 2 * (maxK sampleConfig + extraSearchDepth sampleConfig
              + clusterEDCompensation sampleConfig).
Proof.
  eexists. eexists. split; [vm_compute; reflexivity|].
  eapply (pair_scores_within_twice_the_full_limit sampleConfig
            (sampleExternals sharedMateScores) 20 (100, 100) 1 0 sharedMatePools _ 100).
  - vm_compute. repeat split; discriminate.
  - apply sampleExternals_contract. apply sharedMateScores_nonnegative.
  - intros [s j] m H. unfold mateAt, get2 in H. simpl in H.
    destruct (s =? 0); apply readArray_Ok in H as [_ H];
      destruct (Z.to_nat j) as [|[|n]]; simpl in H; try discriminate.
    injection H as <-. left. reflexivity.
  - intros i a H. destruct i; discriminate.
  - intros k head H.
    do 8 (destruct k as [|k];
          [ simpl in H; injection H as <-;
            repeat (econstructor; [reflexivity | vm_compute; discriminate |]); constructor
          | ]).
    discriminate.
  - vm_compute. reflexivity.
Defined.

(** C4, as stated, fails: in the pass over [sharedMatePools] the mate is
    scored for the candidate at 1000 (limit 7, score 6) and its score is used
    again for the candidate at 1200 (score 2).  After the best score is
    corrected to 9, both pairs qualify as results within 2 of it, and the best
    result handed back has the scores 2 and 6: an uncompensated pair score of
    8 > maxK + extraSearchDepth = 7. *)
Lemma reported_pair_score_exceeds_maxK_plus_extraSearchDepth :
  exists p best best' g,
    align_phase_3_score sampleConfig (sampleExternals sharedMateScores) 20 (100, 100) 1 0
                        sharedMatePools 100 false = Ok (p, best) /\
    align_phase_3_correct_best_score sampleConfig (mergeAnchorPool p) clusterSevenCounted
                                     best 1 = Ok (best', true) /\
    align_phase_3_count_results sampleConfig (mergeAnchorPool p) clusterSevenCounted
                                2 best' 1 2 = Ok (false, 2, 1%float) /\
    align_phase_3_generate_results sampleConfig (sampleExternals sharedMateScores) p
      clusterSevenCounted 1 0 1 2 best' 2 [blankResult; blankResult] blankResult = Ok g /\
    (Anchor.pairScore <$> mergeAnchorPool p) = [6; 8] /\
    Result.score (outBestResult g) = (2, 6) /\
    Result.compensatedScore (outBestResult g) = 8 + clusterEDCompensation sampleConfig /\
    maxK sampleConfig + extraSearchDepth sampleConfig = 7.
Proof.
  do 4 eexists.
  split; [vm_compute; reflexivity|]. split; [vm_compute; reflexivity|].
  split; [vm_compute; reflexivity|]. split; [vm_compute; reflexivity|].
  repeat split.
Qed.

(** * Further properties of the code *)

(** ** Reverse complements *)

(** X1: on reads made of the five bases the constructor fills the table
    for, the reverse complement built by [align_phase_1] is an involution and
    keeps the length. *)
Theorem rcRead_involutive (cfg : Config) (read : Read.t) :
  Forall (fun c => In c ["A"; "C"; "G"; "T"; "N"]%char) (Read.getData read) ->
  rcRead cfg (rcRead cfg read) = read /\
  Read.getDataLength (rcRead cfg read) = Read.getDataLength read.
Proof.
  intros Hbases. destruct read as [id bases]. unfold rcRead, Read.getDataLength; simpl.
  split.
  - f_equal. rewrite map_rev, map_map, map_rev, rev_involutive. simpl.
    unfold Read.getData in Hbases. simpl in Hbases.
    induction bases as [|[b q] rest IH]; [reflexivity|].
    simpl in *. apply Forall_cons in Hbases as [Hb Hrest].
    rewrite IH by exact Hrest. f_equal. f_equal.
    simpl in Hb. destruct Hb as [<-|[<-|[<-|[<-|[<-|[]]]]]]; reflexivity.
  - rewrite length_map, length_rev. reflexivity.
Qed.

Lemma rcRead_involutive_witness :
  rcRead sampleConfig (rcRead sampleConfig sixNsRead) = sixNsRead /\
  Read.getDataLength (rcRead sampleConfig sixNsRead) = Read.getDataLength sixNsRead.
Proof.
  apply (rcRead_involutive sampleConfig sixNsRead).
  unfold sixNsRead, readOf, Read.getData. simpl.
  repeat (apply Forall_cons; split; [simpl; auto 10|]). apply Forall_nil. exact I.
Defined.

(** ** Merging pairs *)

(** X2: when [checkMerge] is handed a pair in the range of a valid anchor,
    the anchor ends up unclustered only if both the stored and the new pair
    are unclustered, and between two pairs that are both clustered or both
    unclustered it keeps the lower pair score. *)
Theorem checkMerge_prefers_clusters_then_lower_scores
    (E : Externals) (anchor : Anchor.t) (newMore newFewer : GenomeLocation)
    (newProb : float) (newPairScore newClusterIdx : Z) (newCandidate : nat)
    (newMate : Z * Z) :
  Anchor.locationForReadWithMoreHits anchor <> InvalidGenomeLocation E ->
  doesRangeMatch E anchor newMore newFewer = true ->
  let anchor' :=
    fst (checkMerge E anchor newMore newFewer newProb newPairScore newClusterIdx
                    newCandidate newMate) in
  (Anchor.clusterIdx anchor' = -1 <-> Anchor.clusterIdx anchor = -1 /\ newClusterIdx = -1) /\
  ((Anchor.clusterIdx anchor = -1 <-> newClusterIdx = -1) ->
   Anchor.pairScore anchor' = Z.min (Anchor.pairScore anchor) newPairScore).
Proof.
  intros Hvalid Hrange. unfold checkMerge. rewrite Hrange.
  destruct (Z.eqb_spec (Anchor.locationForReadWithMoreHits anchor) (InvalidGenomeLocation E))
    as [Heq|_]; [contradiction|].
  cbn [orb negb].
  destruct (Z.eqb_spec (Anchor.clusterIdx anchor) (-1)) as [Hc|Hc],
           (Z.eqb_spec newClusterIdx (-1)) as [Hn|Hn]; cbn [andb orb negb].
  - destruct (Z.ltb_spec newPairScore (Anchor.pairScore anchor)) as [Hlt|Hge]; cbn [orb fst].
    + simpl. split; [tauto | intros _; lia].
    + destruct (Z.eqb_spec newPairScore (Anchor.pairScore anchor)) as [He|Hne]; cbn [andb].
      * destruct (PrimFloat.ltb _ _); simpl; (split; [tauto | intros _; lia]).
      * simpl. split; [tauto | intros _; lia].
  - simpl. split; [tauto | intros [H _]; specialize (H Hc); contradiction].
  - simpl. split; [tauto | intros [_ H]; specialize (H Hn); contradiction].
  - destruct (Z.ltb_spec newPairScore (Anchor.pairScore anchor)) as [Hlt|Hge]; cbn [orb fst].
    + simpl. split; [tauto | intros _; lia].
    + destruct (Z.eqb_spec newPairScore (Anchor.pairScore anchor)) as [He|Hne]; cbn [andb].
      * destruct (PrimFloat.ltb _ _); simpl; (split; [tauto | intros _; lia]).
      * simpl. split; [tauto | intros _; lia].
Qed.

Lemma checkMerge_prefers_clusters_then_lower_scores_witness :
  let anchor' :=
    fst (checkMerge (sampleExternals (fun _ _ => 0)) (Anchor.mk 600 100 0.5%float 5 (-1) 0%nat (0, 0))
                    610 105 0.25%float 7 3 1%nat (0, 1)) in
  (Anchor.clusterIdx anchor' = -1 <-> -1 = -1 /\ 3 = -1) /\
  ((-1 = -1 <-> 3 = -1) -> Anchor.pairScore anchor' = Z.min 5 7).
Proof.
  apply (checkMerge_prefers_clusters_then_lower_scores (sampleExternals (fun _ _ => 0))
           (Anchor.mk 600 100 0.5%float 5 (-1) 0%nat (0, 0)) 610 105 0.25%float 7 3 1%nat (0, 1)).
  - vm_compute. discriminate.
  - vm_compute. reflexivity.
Defined.

(** ** The corrected best score *)

Lemma forAnchors_correct_minimum (cfg : Config) (ctr : list Z) (m : Z)
    (anchors : list Anchor.t) (b0 b : Z) :
  forAnchors (correct_best_score_body cfg ctr m) anchors b0 = Ok b ->
  b <= b0 /\
  (forall a valid, a ∈ anchors -> isValidCluster ctr m (Anchor.clusterIdx a) = Ok valid ->
     b <= wrap32 (Anchor.pairScore a + (if valid then 0 else clusterEDCompensation cfg))) /\
  (b = b0 \/
   exists a valid, a ∈ anchors /\ isValidCluster ctr m (Anchor.clusterIdx a) = Ok valid /\
     b = wrap32 (Anchor.pairScore a + (if valid then 0 else clusterEDCompensation cfg))).
Proof.
  revert b0. induction anchors as [|a rest IH]; simpl; intros b0 H.
  - injection H as <-. split; [lia|]. split; [|left; reflexivity].
    intros a valid Ha. apply elem_of_nil in Ha. contradiction.
  - bind_inv H as b1 Hb1. destruct (IH b1 H) as (Hle & Hall & Hex).
    unfold correct_best_score_body in Hb1. bind_inv Hb1 as valid Hvalid.
    set (c := wrap32 (Anchor.pairScore a + (if valid then 0 else clusterEDCompensation cfg)))
      in *.
    assert (Hb1' : b1 <= b0 /\ b1 <= c /\ (b1 = b0 \/ b1 = c)).
    { destruct (Z.ltb_spec c b0); injection Hb1 as <-; lia. }
    destruct Hb1' as (H10 & H1c & H1e).
    split; [lia|]. split.
    + intros a' valid' Ha' Hv'. apply elem_of_cons in Ha' as [->|Ha'].
      * rewrite Hvalid in Hv'. injection Hv' as <-. fold c. lia.
      * apply Hall; assumption.
    + destruct Hex as [->|(a' & valid' & Ha' & Hv' & ->)].
      * destruct H1e as [->| ->]; [left; reflexivity|].
        right. exists a, valid. split; [apply elem_of_cons; left; reflexivity|]. split; [exact Hvalid|].
        reflexivity.
      * right. exists a', valid'. split; [apply elem_of_cons; right; exact Ha'|].
        split; [exact Hv' | reflexivity].
Qed.

(** X3: the score [align_phase_3_correct_best_score] leaves in its reference
    argument is, as an [unsigned], the least of
    [maxK + extraSearchDepth + clusterEDCompensation + 1] and the compensated
    scores of the merge anchors, an anchor outside a valid cluster being
    charged [clusterEDCompensation]; and the function returns true exactly
    when that differs from the score it was given. *)
Theorem correct_best_score_is_the_least_compensated_score
    (cfg : Config) (anchors : list Anchor.t) (clusterCounterAry : list Z)
    (bestCompensatedScore minClusterSize best' : Z) (changed : bool) :
  align_phase_3_correct_best_score cfg anchors clusterCounterAry
                                   bestCompensatedScore minClusterSize
  = Ok (best', changed) ->
  let cap := wrap32 (maxK cfg + extraSearchDepth cfg + clusterEDCompensation cfg + 1) in
  let compensated (a : Anchor.t) (valid : bool) :=
    wrap32 (Anchor.pairScore a + (if valid then 0 else clusterEDCompensation cfg)) in
  wrap32 best' <= cap /\
  (forall a valid, a ∈ anchors ->
     isValidCluster clusterCounterAry minClusterSize (Anchor.clusterIdx a) = Ok valid ->
     wrap32 best' <= compensated a valid) /\
  (wrap32 best' = cap \/
   exists a valid, a ∈ anchors /\
     isValidCluster clusterCounterAry minClusterSize (Anchor.clusterIdx a) = Ok valid /\
     wrap32 best' = compensated a valid) /\
  changed = negb (wrap32 bestCompensatedScore =? wrap32 best').
Proof.
  unfold align_phase_3_correct_best_score. intros H. bind_inv H as new Hnew.
  assert (Hr : 0 <= new < 2 ^ 32)
    by (eapply forAnchors_correct_range; [apply wrap32_range | exact Hnew]).
  apply forAnchors_correct_minimum in Hnew as (Hle & Hall & Hex).
  assert (Hb : wrap32 best' = new /\
               changed = negb (wrap32 bestCompensatedScore =? wrap32 best')).
  { destruct (wrap32 bestCompensatedScore =? new) eqn:Heq; simpl in H;
      injection H as <- <-.
    - apply Z.eqb_eq in Heq. rewrite Heq, Z.eqb_refl. auto.
    - rewrite wrap32_int32, (wrap32_small new Hr), Heq. auto. }
  destruct Hb as [-> ->]. cbv zeta. auto.
Qed.

Lemma correct_best_score_is_the_least_compensated_score_witness :
  exists best' changed,
    align_phase_3_correct_best_score sampleConfig (mergeAnchorPool twoAnchorPools)
                                     clusterSevenCounted 100 1 = Ok (best', changed) /\
    wrap32 best' <= wrap32 (5 + 2 + 3 + 1) /\
    changed = negb (wrap32 100 =? wrap32 best').
Proof.
  eexists. eexists. split; [vm_compute; reflexivity|].
  pose proof (correct_best_score_is_the_least_compensated_score sampleConfig
                (mergeAnchorPool twoAnchorPools) clusterSevenCounted 100 1 1 true eq_refl)
    as (Hcap & _ & _ & Hchanged).
  split; [exact Hcap | exact Hchanged].
Defined.

(** ** Counting and generating the results *)

(** One anchor: the generating loop writes an entry exactly when the counting
    loop counts one. *)
Lemma generate_counts_one_anchor (cfg : Config) (pools : Pools) (ctr : list Z)
    (more fewer minClusterSize mapQCutOff cutOff : Z) (anchor : Anchor.t)
    (g g' : Generate) (prob0 prob : float) (n0 n : Z) :
  generate_results_body cfg pools ctr more fewer minClusterSize cutOff anchor g = Ok g' ->
  count_results_body cfg ctr minClusterSize mapQCutOff cutOff anchor (prob0, n0)
  = Ok (prob, n) ->
  nextResultIdx g' - nextResultIdx g = n - n0 /\
  length (secondaryResults g') = length (secondaryResults g) /\
  (forall i : nat, Z.of_nat i <> nextResultIdx g ->
     secondaryResults g' !! i = secondaryResults g !! i) /\
  ((n = n0 /\ g' = g) \/
   (n = n0 + 1 /\ 0 <= nextResultIdx g /\
    exists r, secondaryResults g' !! Z.to_nat (nextResultIdx g) = Some r /\
              writtenResult cutOff r)).
Proof.
  unfold generate_results_body, count_results_body. intros Hg Hc.
  bind_inv Hg as valid Hvalid. bind_inv Hc as valid' Hvalid'.
  rewrite Hvalid in Hvalid'. injection Hvalid' as <-.
  set (compensatedScore :=
         wrap32 (Anchor.pairScore anchor + (if valid then 0 else clusterEDCompensation cfg)))
    in *.
  destruct (Z.leb_spec compensatedScore cutOff) as [Hle|Hgt].
  - bind_inv Hg as candidatePtr Hcand. bind_inv Hg as matePtr Hmate.
    bind_inv Hg as old Hold. bind_inv Hg as written Hw.
    apply writeArray_Ok in Hw as (Hpos & Hlt & ->).
    injection Hc as <- <-.
    destruct (_ && _); injection Hg as <-; simpl;
      (split; [lia|]; split; [apply length_insert|]; split;
       [ intros i Hi; apply list_lookup_insert_ne; lia
       | right; split; [reflexivity|]; split; [exact Hpos|];
         eexists; split; [apply list_lookup_insert_eq; exact Hlt|];
         repeat split; simpl;
         rewrite wrap32_int32; unfold compensatedScore in *;
         rewrite wrap32_small by apply wrap32_range; exact Hle ]).
  - injection Hg as <-. injection Hc as <- <-.
    split; [lia|]. split; [reflexivity|]. split; [reflexivity|]. left. auto.
Qed.

(** The two loops over the same anchors. *)
Lemma generate_counts_anchors (cfg : Config) (pools : Pools) (ctr : list Z)
    (more fewer minClusterSize mapQCutOff cutOff : Z) (anchors : list Anchor.t)
    (g g' : Generate) (prob0 prob : float) (n0 n : Z) :
  forAnchors (generate_results_body cfg pools ctr more fewer minClusterSize cutOff)
             anchors g = Ok g' ->
  forAnchors (count_results_body cfg ctr minClusterSize mapQCutOff cutOff)
             anchors (prob0, n0) = Ok (prob, n) ->
  0 <= nextResultIdx g ->
  nextResultIdx g' - nextResultIdx g = n - n0 /\ n0 <= n /\
  length (secondaryResults g') = length (secondaryResults g) /\
  (forall i : nat, Z.of_nat i < nextResultIdx g \/ nextResultIdx g' <= Z.of_nat i ->
     secondaryResults g' !! i = secondaryResults g !! i) /\
  (forall i : nat, nextResultIdx g <= Z.of_nat i < nextResultIdx g' ->
     exists r, secondaryResults g' !! i = Some r /\ writtenResult cutOff r) /\
  (n = n0 -> g' = g).
Proof.
  revert g prob0 n0. induction anchors as [|a rest IH]; simpl; intros g prob0 n0 Hg Hc Hpos.
  - injection Hg as <-. injection Hc as <- <-.
    split; [lia|]. split; [lia|]. split; [reflexivity|]. split; [auto|].
    split; [intros i Hi; lia | auto].
  - bind_inv Hg as g1 Hg1. bind_inv Hc as acc1 Hc1. destruct acc1 as [prob1 n1].
    destruct (generate_counts_one_anchor _ _ _ _ _ _ _ _ _ _ _ _ _ _ _ Hg1 Hc1)
      as (Hidx & Hlen & Hother & Hcase).
    assert (Hn1 : n0 <= n1) by (destruct Hcase as [[-> _]|[-> _]]; lia).
    assert (Hpos1 : 0 <= nextResultIdx g1) by lia.
    destruct (IH g1 prob1 n1 Hg Hc Hpos1) as (Hidx' & Hle' & Hlen' & Hout' & Hin' & Hsame').
    split; [lia|]. split; [lia|]. split; [congruence|]. split; [|split].
    + intros i Hi. rewrite Hout' by lia.
      destruct Hcase as [[_ ->]|[-> _]]; [reflexivity | apply Hother; lia].
    + intros i Hi. destruct (Z_lt_le_dec (Z.of_nat i) (nextResultIdx g1)) as [Hlt|Hge].
      * destruct Hcase as [[-> ->]|(-> & _ & r & Hr & Hw)]; [lia|].
        assert (i = Z.to_nat (nextResultIdx g)) as -> by lia.
        exists r. split; [|exact Hw]. rewrite Hout' by lia. exact Hr.
      * apply Hin'. lia.
    + intros ->. assert (n1 = n0) as -> by lia.
      destruct Hcase as [[_ <-]|[? _]]; [|lia]. apply Hsame'. reflexivity.
Qed.

(** X4: the generating loop of [align_phase_3_generate_results] writes as
    many entries as [align_phase_3_count_results] counted for the same best
    score (the assertion of line 1088), in the first entries of the buffer and
    nowhere else; and every entry it writes has both flags set, both statuses
    [MultipleHits], cleared mapping qualities and a compensated score within
    [maxEditDistanceForSecondaryResults] of that best score. *)
Theorem generate_results_writes_what_count_results_counted
    (cfg : Config) (pools : Pools) (clusterCounterAry : list Z)
    (more fewer minClusterSize maxEditDistanceForSecondaryResults best bufferSize : Z)
    (buffer : list Result.t) (g : Generate) (overflow : bool) (n : Z) (prob : float) :
  align_phase_3_count_results cfg (mergeAnchorPool pools) clusterCounterAry
    maxEditDistanceForSecondaryResults best minClusterSize bufferSize
  = Ok (overflow, n, prob) ->
  forAnchors (generate_results_body cfg pools clusterCounterAry more fewer minClusterSize
                (wrap32 (best + maxEditDistanceForSecondaryResults)))
             (mergeAnchorPool pools) (mkGenerate 0 (-1) 0%float best buffer) = Ok g ->
  nextResultIdx g = n /\
  length (secondaryResults g) = length buffer /\
  (forall i : nat, n <= Z.of_nat i -> secondaryResults g !! i = buffer !! i) /\
  (forall i : nat, Z.of_nat i < n ->
     exists r, secondaryResults g !! i = Some r /\
       writtenResult (wrap32 (best + maxEditDistanceForSecondaryResults)) r).
Proof.
  unfold align_phase_3_count_results. intros Hc Hg.
  bind_inv Hc as acc Hacc. destruct acc as [prob' n']. injection Hc as _ <- <-.
  destruct (generate_counts_anchors _ _ _ _ _ _ _ _ _ _ _ _ _ _ _ Hg Hacc (Z.le_refl 0))
    as (Hidx & _ & Hlen & Hout & Hin & _).
  simpl in *. assert (Hn : nextResultIdx g = n') by lia. rewrite Hn in *.
  split; [reflexivity|]. split; [exact Hlen|]. split.
  - intros i Hi. apply Hout. lia.
  - intros i Hi. apply Hin. lia.
Qed.

Lemma generate_results_writes_what_count_results_counted_witness :
  exists g,
    forAnchors (generate_results_body sampleConfig twoAnchorPools clusterSevenCounted 1 0 1
                  (wrap32 (1 + 4)))
               (mergeAnchorPool twoAnchorPools)
               (mkGenerate 0 (-1) 0%float 1 [blankResult; blankResult; blankResult]) = Ok g /\
    nextResultIdx g = 2 /\
    secondaryResults g !! 2%nat = Some blankResult.
Proof.
  eexists. split; [vm_compute; reflexivity|].
  pose proof (generate_results_writes_what_count_results_counted sampleConfig twoAnchorPools
                clusterSevenCounted 1 0 1 4 1 3 [blankResult; blankResult; blankResult]
                _ false 2 0.5%float eq_refl eq_refl) as (Hn & _ & Hout & _).
  split; [exact Hn|]. apply (Hout 2%nat). simpl. lia.
Defined.

(** X5: when [align_phase_3_count_results] finds no pair within
    [maxEditDistanceForSecondaryResults] of the best score,
    [align_phase_3_generate_results] returns, reports no best pair (compensated
    score and cluster -1, both locations invalid, both scores -1, both statuses
    [NotFound], mapping qualities 0) and leaves the buffer, its count and the
    best score as they were. *)
Theorem generate_results_reports_not_found_when_nothing_counted
    (cfg : Config) (E : Externals) (pools : Pools) (clusterCounterAry : list Z)
    (more fewer minClusterSize maxEditDistanceForSecondaryResults best bufferSize : Z)
    (nSecondaryResults_ : Z) (buffer : list Result.t) (bestResult : Result.t)
    (overflow : bool) (prob : float) :
  align_phase_3_count_results cfg (mergeAnchorPool pools) clusterCounterAry
    maxEditDistanceForSecondaryResults best minClusterSize bufferSize
  = Ok (overflow, 0, prob) ->
  exists out,
    align_phase_3_generate_results cfg E pools clusterCounterAry more fewer minClusterSize
      maxEditDistanceForSecondaryResults best nSecondaryResults_ buffer bestResult = Ok out /\
    genReturn out = false /\
    outBestCompensatedScore out = best /\
    outNSecondaryResults out = nSecondaryResults_ /\
    outSecondaryResults out = buffer /\
    Result.compensatedScore (outBestResult out) = -1 /\
    Result.clusterIdx (outBestResult out) = -1 /\
    Result.location (outBestResult out) = (InvalidGenomeLocation E, InvalidGenomeLocation E) /\
    Result.score (outBestResult out) = (-1, -1) /\
    Result.status (outBestResult out) = (NotFound, NotFound) /\
    Result.mapq (outBestResult out) = (0, 0).
Proof.
  unfold align_phase_3_count_results. intros Hc.
  bind_inv Hc as acc Hacc. destruct acc as [prob' n']. injection Hc as _ -> <-.
  assert (Hg : forAnchors
                 (generate_results_body cfg pools clusterCounterAry more fewer minClusterSize
                    (wrap32 (best + maxEditDistanceForSecondaryResults)))
                 (mergeAnchorPool pools) (mkGenerate 0 (-1) 0%float best buffer)
               = Ok (mkGenerate 0 (-1) 0%float best buffer)).
  { revert Hacc. generalize (mkGenerate 0 (-1) 0%float best buffer).
    generalize 0%float at 1. generalize (mergeAnchorPool pools).
    induction l as [|a rest IH]; simpl; intros prob0 g Hacc; [reflexivity|].
    bind_inv Hacc as acc1 Hc1. destruct acc1 as [prob1 n1].
    assert (Hn1 : n1 = 0).
    { assert (0 <= n1).
      { unfold count_results_body in Hc1. bind_inv Hc1 as v Hv.
        destruct (_ <=? wrap32 (best + maxEditDistanceForSecondaryResults));
          injection Hc1 as _ <-; lia. }
      assert (n1 <= 0); [|lia].
      clear -Hacc. revert prob1 n1 Hacc. induction rest as [|b rest IH]; simpl;
        intros prob1 n1 Hacc.
      - injection Hacc as _ <-. lia.
      - bind_inv Hacc as acc2 Hc2. destruct acc2 as [prob2 n2].
        apply IH in Hacc. unfold count_results_body in Hc2. bind_inv Hc2 as v Hv.
        destruct (_ <=? wrap32 (best + maxEditDistanceForSecondaryResults));
          injection Hc2 as _ <-; lia. }
    subst n1.
    unfold generate_results_body. unfold count_results_body in Hc1.
    bind_inv Hc1 as valid Hvalid. rewrite Hvalid. cbn [bind].
    destruct (_ <=? wrap32 (best + maxEditDistanceForSecondaryResults)).
    - injection Hc1 as _ Hc1. lia.
    - eapply IH. exact Hacc. }
  unfold align_phase_3_generate_results. rewrite Hg. cbn [bind bestResultIdx].
  change (negb (-1 =? -1)) with false. cbn iota.
  eexists. split; [reflexivity|]. repeat split.
Qed.

Lemma generate_results_reports_not_found_when_nothing_counted_witness :
  exists out,
    align_phase_3_generate_results sampleConfig (sampleExternals (fun _ _ => 0))
      (mkPools [] ([], []) [] (replicate 8 None) 0 0) clusterSevenCounted 1 0 1 4 100 0
      [blankResult] blankResult = Ok out /\
    Result.status (outBestResult out) = (NotFound, NotFound) /\
    outSecondaryResults out = [blankResult].
Proof.
  destruct (generate_results_reports_not_found_when_nothing_counted sampleConfig
              (sampleExternals (fun _ _ => 0)) (mkPools [] ([], []) [] (replicate 8 None) 0 0)
              clusterSevenCounted 1 0 1 4 100 1 0 [blankResult] blankResult false 0%float
              eq_refl)
    as (out & Hout & _ & _ & _ & Hbuf & _ & _ & _ & _ & Hstatus & _).
  exists out. auto.
Defined.

(** ** Counting a pair for its cluster *)

Lemma toggledSince_refl (cl : Clusters) : toggledSince cl cl.
Proof. intros c. split; auto. Qed.

Lemma toggledSince_trans (cl cl1 cl2 : Clusters) :
  toggledSince cl cl1 -> toggledSince cl1 cl2 -> toggledSince cl cl2.
Proof.
  intros H1 H2 c. destruct (H1 c) as [H1t H1f], (H2 c) as [H2t H2f]. split.
  - intros Hset. destruct (H1t Hset) as [Hs1 He1]. destruct (H2t Hs1) as [Hs2 He2].
    split; [exact Hs2 | congruence].
  - intros Hclear. destruct (H1f Hclear) as [[Hs1 He1]|[Hs1 He1]].
    + destruct (H2f Hs1) as [[Hs2 He2]|[Hs2 He2]]; [left | right]; split; congruence.
    + destruct (H2t Hs1) as [Hs2 He2]. right. split; congruence.
Qed.

(** One anchor: the step relation holds, and a clustered anchor that is good
    enough leaves its cluster's toggle set. *)
Lemma increment_cluster_body_toggles (cfg : Config) (best : Z) (anchor : Anchor.t)
    (cl cl' : Clusters) :
  increment_cluster_body cfg best anchor cl = Ok cl' ->
  toggledSince cl cl' /\
  (Anchor.clusterIdx anchor <> -1 ->
   wrap32 (Anchor.pairScore anchor) <= wrap32 (best + extraSearchDepth cfg) ->
   snd cl' !! Z.to_nat (Anchor.clusterIdx anchor) = Some true).
Proof.
  unfold increment_cluster_body. destruct cl as [ctr tog]. intros H.
  destruct (Z.eqb_spec (Anchor.clusterIdx anchor) (-1)) as [Hu|Hc].
  - destruct (_ <=? _); injection H as <-; (split; [apply toggledSince_refl | contradiction]).
  - rewrite Z.add_0_r in H.
    destruct (Z.leb_spec (wrap32 (Anchor.pairScore anchor))
                         (wrap32 (best + extraSearchDepth cfg))) as [Hle|Hgt].
    + bind_inv H as toggled Htog. apply readArray_Ok in Htog as [Hpos Htog].
      destruct toggled.
      * injection H as <-. split; [apply toggledSince_refl | auto].
      * bind_inv H as count Hcount. apply readArray_Ok in Hcount as [_ Hcount].
        bind_inv H as ctr' Hctr'. bind_inv H as tog' Htog'.
        apply writeArray_Ok in Htog' as (_ & Hlt & ->). injection H as <-. simpl.
        assert (Hbump : ctr' !! Z.to_nat (Anchor.clusterIdx anchor) = Some (bumped count) /\
                        forall c, c <> Z.to_nat (Anchor.clusterIdx anchor) ->
                                  ctr' !! c = ctr !! c).
        { unfold bumped. destruct (count =? UINT8_MAX).
          - injection Hctr' as <-. auto.
          - apply writeArray_Ok in Hctr' as (_ & Hlt' & ->). split.
            + apply list_lookup_insert_eq. exact Hlt'.
            + intros c Hne. apply list_lookup_insert_ne. congruence. }
        destruct Hbump as [Hhere Helse]. split.
        -- intros c. simpl.
           destruct (decide (c = Z.to_nat (Anchor.clusterIdx anchor))) as [->|Hne].
           ++ split; [congruence|]. intros _. right.
              rewrite list_lookup_insert_eq by exact Hlt. rewrite Hhere, Hcount. auto.
           ++ rewrite list_lookup_insert_ne by congruence. rewrite Helse by exact Hne.
              split; auto.
        -- intros _ _. apply list_lookup_insert_eq. exact Hlt.
    + injection H as <-. split; [apply toggledSince_refl | lia].
Qed.

Lemma increment_cluster_toggles (cfg : Config) (best : Z) (anchors : list Anchor.t)
    (cl cl' : Clusters) :
  align_phase_3_increment_cluster cfg anchors best cl = Ok cl' ->
  toggledSince cl cl' /\
  forall a, a ∈ anchors -> Anchor.clusterIdx a <> -1 ->
    wrap32 (Anchor.pairScore a) <= wrap32 (best + extraSearchDepth cfg) ->
    snd cl' !! Z.to_nat (Anchor.clusterIdx a) = Some true.
Proof.
  unfold align_phase_3_increment_cluster. revert cl.
  induction anchors as [|x rest IH]; simpl; intros cl H.
  - injection H as <-. split; [apply toggledSince_refl|].
    intros a Ha. apply elem_of_nil in Ha. contradiction.
  - bind_inv H as cl1 Hx. apply increment_cluster_body_toggles in Hx as [Hstep Hset].
    destruct (IH cl1 H) as [Hrest Hall].
    split; [eapply toggledSince_trans; eassumption|].
    intros a Ha Hc Hle. apply elem_of_cons in Ha as [->|Ha].
    + destruct (Hrest (Z.to_nat (Anchor.clusterIdx x))) as [Hkeep _].
      apply Hkeep. apply Hset; assumption.
    + apply Hall; assumption.
Qed.

(** X6: after [align_phase_3_increment_cluster], every cluster that has a
    merge anchor within [extraSearchDepth] of the best score has its toggle
    set; if the toggle was clear before the call, the cluster's counter went up
    by one, unless it already stood at 255. *)
Theorem increment_cluster_counts_every_good_cluster
    (cfg : Config) (anchors : list Anchor.t) (bestCompensatedScore : Z)
    (clusterCounterAry clusterCounterAry' : list Z) (clusterToggle clusterToggle' : list bool)
    (a : Anchor.t) :
  align_phase_3_increment_cluster cfg anchors bestCompensatedScore
                                  (clusterCounterAry, clusterToggle)
  = Ok (clusterCounterAry', clusterToggle') ->
  a ∈ anchors -> Anchor.clusterIdx a <> -1 ->
  wrap32 (Anchor.pairScore a) <= wrap32 (bestCompensatedScore + extraSearchDepth cfg) ->
  let c := Z.to_nat (Anchor.clusterIdx a) in
  clusterToggle' !! c = Some true /\
  (clusterToggle !! c = Some false ->
   clusterCounterAry' !! c = bumped <$> clusterCounterAry !! c).
Proof.
  intros H Ha Hc Hle c.
  apply increment_cluster_toggles in H as [Hsince Hall].
  specialize (Hall a Ha Hc Hle). simpl in Hall. fold c in Hall.
  split; [exact Hall|]. intros Hclear.
  destruct (Hsince c) as [_ Hf]. simpl in Hf.
  destruct (Hf Hclear) as [[Hs _]|[_ He]]; [congruence | exact He].
Qed.

Lemma increment_cluster_counts_every_good_cluster_witness :
  exists clusterCounterAry' clusterToggle',
    align_phase_3_increment_cluster sampleConfig (mergeAnchorPool twoAnchorPools) 1
      (clusterSevenCounted, replicate 8 false) = Ok (clusterCounterAry', clusterToggle') /\
    clusterToggle' !! 7%nat = Some true /\
    clusterCounterAry' !! 7%nat = Some 3.
Proof.
  eexists. eexists. split; [vm_compute; reflexivity|].
  pose proof (increment_cluster_counts_every_good_cluster sampleConfig
                (mergeAnchorPool twoAnchorPools) 1 clusterSevenCounted _ (replicate 8 false) _
                (Anchor.mk 600 100 0.5%float 1 7 0%nat (0, 0)) eq_refl) as H.
  destruct H as [Htog Hctr].
  - apply elem_of_cons. left. reflexivity.
  - simpl. discriminate.
  - vm_compute. discriminate.
  - split; [exact Htog|]. apply Hctr. reflexivity.
Defined.

(** ** The hit sets *)



(** What the trimming loop returns: the count is not raised, the last hit
    still counted is not below the seed offset, and every hit dropped is. *)
Lemma trimHits_spec (fuel : nat) (hits : list GenomeLocation) (seedOffset nHits n : Z) :
  trimHits fuel hits seedOffset nHits = Ok n ->
  n <= nHits /\
  (0 < n -> exists last, hits !! Z.to_nat (n - 1) = Some last /\ seedOffset <= last) /\
  (forall i x, n <= i < nHits -> hits !! Z.to_nat i = Some x -> x < seedOffset).
Proof.
  revert nHits. induction fuel as [|fuel IH]; simpl; intros nHits H; [discriminate|].
  destruct (Z.ltb_spec 0 nHits) as [Hpos|Hnpos].
  - bind_inv H as last Hlast. apply readArray_Ok in Hlast as [_ Hlast].
    destruct (Z.ltb_spec last seedOffset) as [Hlow|Hhigh].
    + destruct (IH _ H) as (Hle & Hkept & Hdropped).
      split; [lia|]. split; [exact Hkept|].
      intros i x Hi Hx. destruct (Z.eq_dec i (nHits - 1)) as [->|Hne].
      * assert (Some last = Some x) as [= <-] by (rewrite <- Hlast; exact Hx). exact Hlow.
      * apply (Hdropped i); [lia | exact Hx].
    + injection H as <-. split; [lia|]. split; [eauto|]. intros; lia.
  - injection H as <-. split; [lia|]. split; intros; lia.
Qed.

(** With the fuel [recordLookup] gives it, the trimming loop returns when the
    hits it is told about are there. *)
Lemma trimHits_returns (fuel : nat) (hits : list GenomeLocation) (seedOffset nHits : Z) :
  (Z.to_nat nHits <= length hits)%nat -> (Z.to_nat nHits < fuel)%nat ->
  exists n, trimHits fuel hits seedOffset nHits = Ok n.
Proof.
  revert nHits. induction fuel as [|fuel IH]; simpl; intros nHits Hlen Hfuel; [lia|].
  destruct (Z.ltb_spec 0 nHits) as [Hpos|Hnpos]; [|eauto].
  destruct (lookup_lt_is_Some_2 hits (Z.to_nat (nHits - 1))) as [last Hlast]; [lia|].
  assert (Hread : readArray hits (nHits - 1) = Ok last) by (apply readArray_Ok; split; [lia | exact Hlast]).
  rewrite Hread. cbn [bind]. destruct (last <? seedOffset); [|eauto].
  apply IH; lia.
Qed.

(** X8: a [recordLookup] that returns moves to the next disjoint hit set
    exactly when told that the seed begins one.  For a seed without hits it
    records no lookup and counts one more exhausted seed in the current
    disjoint hit set (starting from 0 if the set was just begun).  For a seed
    with hits it appends one lookup, at its first hit, whose hit count is the
    given one less the trailing hits below the seed offset. *)
Theorem recordLookup_counts_or_appends
    (h h' : HitSet.t) (seedOffset nHits : Z) (hits : list GenomeLocation)
    (beginsDisjointHitSet : bool) :
  recordLookup h seedOffset nHits hits beginsDisjointHitSet = Ok h' ->
  let c := HitSet.currentDisjointHitSet h + (if beginsDisjointHitSet then 1 else 0) in
  HitSet.currentDisjointHitSet h' = c /\
  (nHits = 0 ->
   HitSet.lookups h' = HitSet.lookups h /\
   exists d d', HitSet.disjointHitSets h !! Z.to_nat c = Some d /\
     HitSet.disjointHitSets h' !! Z.to_nat c = Some d' /\
     Disjoint.countOfExhaustedHits d'
     = (if beginsDisjointHitSet then 0 else Disjoint.countOfExhaustedHits d) + 1) /\
  (nHits <> 0 ->
   HitSet.disjointHitSets h' !! Z.to_nat c
   = (if beginsDisjointHitSet
      then (fun d => Disjoint.mk 0 (Disjoint.missCount d)) <$> HitSet.disjointHitSets h !! Z.to_nat c
      else HitSet.disjointHitSets h !! Z.to_nat c) /\
   exists n,
     HitSet.lookups h' = HitSet.lookups h ++ [Lookup.mk seedOffset n hits c 0] /\
     n <= nHits /\
     (0 < n -> exists last, hits !! Z.to_nat (n - 1) = Some last /\ seedOffset <= last) /\
     (forall i x, n <= i < nHits -> hits !! Z.to_nat i = Some x -> x < seedOffset)).
Proof.
  unfold recordLookup. intros H. bind_inv H as h1 Hbegin. cbv zeta.
  assert (Hh1 : HitSet.currentDisjointHitSet h1
                = HitSet.currentDisjointHitSet h + (if beginsDisjointHitSet then 1 else 0) /\
                HitSet.lookups h1 = HitSet.lookups h /\
                HitSet.maxSeeds h1 = HitSet.maxSeeds h /\
                forall d1,
                  HitSet.disjointHitSets h1
                    !! Z.to_nat (HitSet.currentDisjointHitSet h
                                 + (if beginsDisjointHitSet then 1 else 0)) = Some d1 ->
                  exists d,
                    HitSet.disjointHitSets h
                      !! Z.to_nat (HitSet.currentDisjointHitSet h
                                   + (if beginsDisjointHitSet then 1 else 0)) = Some d /\
                    d1 = if beginsDisjointHitSet then Disjoint.mk 0 (Disjoint.missCount d)
                         else d).
  { destruct beginsDisjointHitSet.
    - bind_inv Hbegin as d Hd. apply readArray_Ok in Hd as [_ Hd].
      bind_inv Hbegin as ds Hds. apply writeArray_Ok in Hds as (_ & Hlt & ->).
      injection Hbegin as <-. simpl. split; [reflexivity|]. split; [reflexivity|].
      split; [reflexivity|]. intros d1 Hd1.
      rewrite list_lookup_insert_eq in Hd1 by exact Hlt. injection Hd1 as <-. eauto.
    - injection Hbegin as <-. rewrite Z.add_0_r. split; [reflexivity|].
      split; [reflexivity|]. split; [reflexivity|]. eauto. }
  destruct Hh1 as (Hc & Hls & Hmax & Hds). rewrite Hc in H.
  set (c := HitSet.currentDisjointHitSet h + (if beginsDisjointHitSet then 1 else 0)) in *.
  destruct (Z.eqb_spec nHits 0) as [Hz|Hnz].
  - bind_inv H as d1 Hd1. apply readArray_Ok in Hd1 as [_ Hd1].
    bind_inv H as ds' Hds'. apply writeArray_Ok in Hds' as (_ & Hlt & ->).
    injection H as <-. simpl. split; [exact Hc|]. split; [|contradiction].
    intros _. split; [exact Hls|].
    destruct (Hds d1 Hd1) as (d & Hd & ->).
    exists d. eexists. split; [exact Hd|]. split; [apply list_lookup_insert_eq; exact Hlt|].
    destruct beginsDisjointHitSet; reflexivity.
  - destruct (_ <=? _); [discriminate|].
    bind_inv H as n Hn. injection H as <-. simpl. split; [exact Hc|].
    split; [contradiction|]. intros _. split.
    + destruct (HitSet.disjointHitSets h1 !! Z.to_nat c) as [d1|] eqn:Hd1.
      * destruct (Hds d1 eq_refl) as (d & Hd & ->). rewrite Hd.
        destruct beginsDisjointHitSet; reflexivity.
      * clear Hds. revert Hd1. unfold c in *. destruct beginsDisjointHitSet.
        -- bind_inv Hbegin as d Hd. bind_inv Hbegin as ds Hw.
           apply writeArray_Ok in Hw as (_ & Hlt & ->). injection Hbegin as <-. simpl.
           rewrite list_lookup_insert_eq by exact Hlt. discriminate.
        -- injection Hbegin as <-. intros ->. reflexivity.
    + exists n. rewrite Hls. split; [reflexivity|]. apply trimHits_spec in Hn. exact Hn.
Qed.

Lemma recordLookup_counts_or_appends_witness :
  exists h',
    recordLookup emptyHitSet 8 3 [508; 300; 5] true = Ok h' /\
    HitSet.currentDisjointHitSet h' = 0 /\
    HitSet.lookups h' = [Lookup.mk 8 2 [508; 300; 5] 0 0].
Proof.
  eexists. split; [vm_compute; reflexivity|].
  pose proof (recordLookup_counts_or_appends emptyHitSet _ 8 3 [508; 300; 5] true eq_refl)
    as (Hc & _ & _).
  split; [exact Hc | reflexivity].
Defined.

(** X9: in a hit set that was just initialised, after recording one seed
    whose hits are there, with a first hit above the seed offset,
    [getFirstHit] finds that first hit, less the seed offset. *)
Theorem getFirstHit_after_init_and_recordLookup
    (h : HitSet.t) (seedOffset nHits : Z) (hits : list GenomeLocation)
    (hit0 : GenomeLocation) (seedOffsetFound0 : Z) :
  0 < HitSet.maxSeeds h -> HitSet.disjointHitSets h <> [] ->
  0 < nHits -> (Z.to_nat nHits <= length hits)%nat ->
  hits !! 0%nat = Some hit0 -> seedOffset < hit0 ->
  exists h1 h2,
    recordLookup (HitSet_init h) seedOffset nHits hits true = Ok h1 /\
    HitSet.nLookupsUsed h1 = 1 /\
    getFirstHit h1 seedOffsetFound0 = Ok (false, h2, hit0 - seedOffset, seedOffset) /\
    HitSet.mostRecentLocationReturned h2 = hit0 - seedOffset.
Proof.
  intros Hmax Hds Hn Hlen Hhit Hoff.
  destruct (trimHits_returns (S (Z.to_nat nHits)) hits seedOffset nHits Hlen) as [n Htrim];
    [lia|].
  pose proof (trimHits_spec _ _ _ _ _ Htrim) as (Hle & _ & Hdropped).
  assert (Hnpos : 0 < n).
  { destruct (Z_lt_le_dec 0 n) as [?|Hn0]; [assumption|].
    assert (hit0 < seedOffset); [|lia].
    apply (Hdropped 0); [lia | exact Hhit]. }
  destruct (HitSet.disjointHitSets h) as [|d ds] eqn:Hdsh; [contradiction|].
  assert (Hr : readArray (d :: ds) 0 = Ok d) by reflexivity.
  assert (Hw : forall x, writeArray (d :: ds) 0 x = Ok (x :: ds)) by reflexivity.
  unfold recordLookup, HitSet_init.
  cbn [HitSet.currentDisjointHitSet HitSet.set_currentDisjointHitSet HitSet.set_lookups
       HitSet.disjointHitSets HitSet.set_disjointHitSets HitSet.maxSeeds HitSet.lookups].
  rewrite Hdsh. change (-1 + 1) with 0. rewrite Hr. cbn [bind]. rewrite Hw. cbn [bind].
  unfold HitSet.nLookupsUsed.
  cbn [HitSet.currentDisjointHitSet HitSet.set_currentDisjointHitSet HitSet.set_lookups
       HitSet.disjointHitSets HitSet.set_disjointHitSets HitSet.maxSeeds HitSet.lookups
       length app].
  change (Z.of_nat 0) with 0.
  destruct (Z.eqb_spec nHits 0) as [?|_]; [lia|].
  destruct (Z.leb_spec (HitSet.maxSeeds h) 0) as [?|_]; [lia|].
  rewrite Htrim. cbn [bind].
  eexists. eexists. split; [reflexivity|]. split; [reflexivity|].
  unfold getFirstHit.
  cbn [HitSet.lookups HitSet.set_lookups mapLookups Lookup.nHits Lookup.hits
       Lookup.seedOffset HitSet.mostRecentLocationReturned].
  destruct (Z.ltb_spec 0 n) as [_|?]; [|lia].
  assert (Hr0 : readArray hits 0 = Ok hit0) by (apply readArray_Ok; split; [lia | exact Hhit]).
  rewrite Hr0. cbn [bind actualGenomeLocationFound].
  destruct (Z.ltb_spec 0 (hit0 - seedOffset)) as [_|?]; [|lia].
  cbn [bind anyFound negb mostRecent actualGenomeLocationFound seedOffsetFound
       HitSet.set_mostRecentLocationReturned HitSet.mostRecentLocationReturned].
  split; reflexivity.
Qed.

Lemma getFirstHit_after_init_and_recordLookup_witness :
  exists h1 h2,
    recordLookup (HitSet_init oneHitSet) 8 3 [508; 300; 5] true = Ok h1 /\
    HitSet.nLookupsUsed h1 = 1 /\
    getFirstHit h1 0 = Ok (false, h2, 508 - 8, 8) /\
    HitSet.mostRecentLocationReturned h2 = 508 - 8.
Proof.
  apply (getFirstHit_after_init_and_recordLookup oneHitSet 8 3 [508; 300; 5] 508 0).
  - reflexivity.
  - discriminate.
  - reflexivity.
  - simpl. lia.
  - reflexivity.
  - reflexivity.
Defined.

(** One lookup in the loop of [getNextLowerHit]: what was found so far stays
    below the most recent location, and the lookup's current hit ends at or
    below what was found. *)
Lemma nextLowerStep_descends (m : GenomeLocation) (lk lk' : Lookup.t) (acc acc' : Found) :
  hitsDescend lk -> lookupBehind m lk ->
  0 <= bestLocationFound acc ->
  (anyFound acc = true ->
   bestLocationFound acc < m /\ actualGenomeLocationFound acc = bestLocationFound acc /\
   0 < bestLocationFound acc) ->
  nextLowerStep m lk acc = Ok (lk', acc') ->
  bestLocationFound acc <= bestLocationFound acc' /\
  (anyFound acc' = true ->
   bestLocationFound acc' < m /\ actualGenomeLocationFound acc' = bestLocationFound acc' /\
   0 < bestLocationFound acc') /\
  (anyFound acc' = false -> acc' = acc) /\
  hitsDescend lk' /\
  (Lookup.currentHitForIntersection lk' = Lookup.nHits lk' \/
   exists hit,
     Lookup.hits lk' !! Z.to_nat (Lookup.currentHitForIntersection lk') = Some hit /\
     (hit < Lookup.seedOffset lk' \/
      (hit - Lookup.seedOffset lk' < m /\
       hit - Lookup.seedOffset lk' <= bestLocationFound acc'))).
Proof.
  intros Hsorted Hbehind Hpos Hacc H. unfold nextLowerStep in H.
  assert (Hconsider : forall lk1 hit,
             Lookup.hits lk1 = Lookup.hits lk -> Lookup.seedOffset lk1 = Lookup.seedOffset lk ->
             Lookup.hits lk !! Z.to_nat (Lookup.currentHitForIntersection lk1) = Some hit ->
             (hit < Lookup.seedOffset lk \/ hit - Lookup.seedOffset lk < m) ->
             (if (bestLocationFound acc <? hit - Lookup.seedOffset lk)
                 && (Lookup.seedOffset lk <=? hit)
              then Ok (lk1, mkFound true (hit - Lookup.seedOffset lk)
                                    (hit - Lookup.seedOffset lk) (Lookup.seedOffset lk)
                                    (mostRecent acc))
              else Ok (lk1, acc)) = Ok (lk', acc') ->
             bestLocationFound acc <= bestLocationFound acc' /\
             (anyFound acc' = true ->
              bestLocationFound acc' < m /\
              actualGenomeLocationFound acc' = bestLocationFound acc' /\
              0 < bestLocationFound acc') /\
             (anyFound acc' = false -> acc' = acc) /\
             hitsDescend lk' /\
             (Lookup.currentHitForIntersection lk' = Lookup.nHits lk' \/
              exists hit',
                Lookup.hits lk' !! Z.to_nat (Lookup.currentHitForIntersection lk') = Some hit' /\
                (hit' < Lookup.seedOffset lk' \/
                 (hit' - Lookup.seedOffset lk' < m /\
                  hit' - Lookup.seedOffset lk' <= bestLocationFound acc')))).
  { intros lk1 hit Hhits Hoff Hhit Hlow Hc.
    assert (Hsorted1 : hitsDescend lk1) by (unfold hitsDescend; rewrite Hhits; exact Hsorted).
    destruct (Z.ltb_spec (bestLocationFound acc) (hit - Lookup.seedOffset lk)) as [Hb|Hb];
      [destruct (Z.leb_spec (Lookup.seedOffset lk) hit) as [Ho|Ho]|];
      cbn [andb] in Hc; injection Hc as <- <-;
      cbn [bestLocationFound anyFound actualGenomeLocationFound].
    - split; [lia|]. split; [intros _; lia|]. split; [discriminate|].
      split; [exact Hsorted1|]. right. exists hit. rewrite Hhits, Hoff.
      split; [exact Hhit|]. right. lia.
    - split; [lia|]. split; [exact Hacc|]. split; [reflexivity|].
      split; [exact Hsorted1|]. right. exists hit. rewrite Hhits, Hoff.
      split; [exact Hhit|]. left. lia.
    - split; [lia|]. split; [exact Hacc|]. split; [reflexivity|].
      split; [exact Hsorted1|]. right. exists hit. rewrite Hhits, Hoff.
      split; [exact Hhit|]. destruct Hlow as [?|?]; [left; assumption | right; lia]. }
  destruct (Z.eqb_spec (Lookup.nHits lk) (Lookup.currentHitForIntersection lk)) as [Hdone|Hmore].
  - injection H as <- <-. split; [lia|]. split; [exact Hacc|]. split; [reflexivity|].
    split; [exact Hsorted|]. left. congruence.
  - bind_inv H as hitLocation Hhit. apply readArray_Ok in Hhit as [Hcur Hhit].
    destruct Hbehind as [?|(hit & Hhit' & Hle)]; [congruence|].
    assert (Some hit = Some hitLocation) as [= ->] by (rewrite <- Hhit'; exact Hhit).
    destruct (Z.eqb_spec (hitLocation - Lookup.seedOffset lk) m) as [Hat|Hnot].
    + destruct (Z.eqb_spec (Lookup.currentHitForIntersection lk + 1) (Lookup.nHits lk))
        as [Hlast|Hnext].
      * injection H as <- <-. split; [lia|]. split; [exact Hacc|]. split; [reflexivity|].
        split; [exact Hsorted|]. left. exact Hlast.
      * bind_inv H as hitLocation' Hhit1. apply readArray_Ok in Hhit1 as [_ Hhit1].
        replace (Z.to_nat (Lookup.currentHitForIntersection lk + 1))
          with (S (Z.to_nat (Lookup.currentHitForIntersection lk))) in Hhit1 by lia.
        pose proof (Hsorted _ _ _ Hhit Hhit1) as Hdesc.
        apply (Hconsider (Lookup.set_currentHitForIntersection
                            (Lookup.currentHitForIntersection lk + 1) lk) hitLocation');
          [reflexivity | reflexivity | | right; lia | exact H].
        cbn [Lookup.currentHitForIntersection Lookup.set_currentHitForIntersection].
        replace (Z.to_nat (Lookup.currentHitForIntersection lk + 1))
          with (S (Z.to_nat (Lookup.currentHitForIntersection lk))) by lia.
        exact Hhit1.
    + apply (Hconsider lk hitLocation); [reflexivity | reflexivity | exact Hhit | | exact H].
      destruct Hle as [?|?]; [right; lia | left; assumption].
Qed.

Lemma nextLower_loop_descends (m : GenomeLocation) (ls ls' : list Lookup.t)
    (acc acc' : Found) :
  Forall hitsDescend ls -> Forall (lookupBehind m) ls ->
  0 <= bestLocationFound acc ->
  (anyFound acc = true ->
   bestLocationFound acc < m /\ actualGenomeLocationFound acc = bestLocationFound acc /\
   0 < bestLocationFound acc) ->
  mapLookups (nextLowerStep m) ls acc = Ok (ls', acc') ->
  bestLocationFound acc <= bestLocationFound acc' /\
  (anyFound acc' = true ->
   bestLocationFound acc' < m /\ actualGenomeLocationFound acc' = bestLocationFound acc' /\
   0 < bestLocationFound acc') /\
  (anyFound acc' = false -> acc' = acc) /\
  Forall hitsDescend ls' /\
  Forall (fun lk' =>
            Lookup.currentHitForIntersection lk' = Lookup.nHits lk' \/
            exists hit,
              Lookup.hits lk' !! Z.to_nat (Lookup.currentHitForIntersection lk') = Some hit /\
              (hit < Lookup.seedOffset lk' \/
               (hit - Lookup.seedOffset lk' < m /\
                hit - Lookup.seedOffset lk' <= bestLocationFound acc'))) ls'.
Proof.
  revert ls' acc. induction ls as [|lk rest IH]; simpl; intros ls' acc Hs Hb Hpos Hacc H.
  - injection H as <- <-. split; [lia|]. split; [exact Hacc|]. split; [reflexivity|].
    split; constructor.
  - apply Forall_cons in Hs as [Hs1 Hs]. apply Forall_cons in Hb as [Hb1 Hb].
    bind_inv H as r1 Hstep. destruct r1 as [lk1 acc1].
    bind_inv H as r2 Hrest. destruct r2 as [rest' acc2]. injection H as <- <-.
    destruct (nextLowerStep_descends _ _ _ _ _ Hs1 Hb1 Hpos Hacc Hstep)
      as (Hmono1 & Hacc1 & Hsame1 & Hs1' & Hpost1).
    assert (Hpos1 : 0 <= bestLocationFound acc1) by lia.
    destruct (IH _ _ Hs Hb Hpos1 Hacc1 Hrest) as (Hmono2 & Hacc2 & Hsame2 & Hs' & Hpost).
    split; [lia|]. split; [exact Hacc2|]. split.
    + intros Hnone. pose proof (Hsame2 Hnone) as Heq. rewrite Heq in Hnone |- *.
      apply Hsame1. exact Hnone.
    + split; [apply Forall_cons; split; assumption|].
      apply Forall_cons. split; [|exact Hpost].
      destruct Hpost1 as [?|(hit & Hhit & [?|[? ?]])]; [left; assumption|right..];
        exists hit; (split; [exact Hhit|]); [left; assumption | right; lia].
Qed.

(** [getNextLowerHit] on a hit set that satisfies its assertion. *)
Lemma getNextLowerHit_step
    (h h' : HitSet.t) (genomeLocation0 : GenomeLocation) (seedOffsetFound0 : Z)
    (found : bool) (genomeLocation : GenomeLocation) (seedOffsetFound_ : Z) :
  Forall hitsDescend (HitSet.lookups h) ->
  Forall (lookupBehind (HitSet.mostRecentLocationReturned h)) (HitSet.lookups h) ->
  getNextLowerHit h genomeLocation0 seedOffsetFound0
  = Ok (found, h', genomeLocation, seedOffsetFound_) ->
  Forall hitsDescend (HitSet.lookups h') /\
  Forall (lookupBehind (HitSet.mostRecentLocationReturned h')) (HitSet.lookups h') /\
  (found = true ->
   0 < genomeLocation < HitSet.mostRecentLocationReturned h /\
   HitSet.mostRecentLocationReturned h' = genomeLocation) /\
  (found = false ->
   genomeLocation = genomeLocation0 /\ seedOffsetFound_ = seedOffsetFound0 /\
   HitSet.mostRecentLocationReturned h' = HitSet.mostRecentLocationReturned h).
Proof.
  intros Hs Hb H. unfold getNextLowerHit in H. bind_inv H as r Hr. destruct r as [ls acc].
  injection H as <- <- <- <-.
  apply nextLower_loop_descends in Hr as (_ & Hacc & Hsame & Hs' & Hpost);
    [| exact Hs | exact Hb | simpl; lia | simpl; discriminate].
  destruct (anyFound acc) eqn:Hfound.
  - destruct (Hacc eq_refl) as (Hlt & Hactual & Hpos). simpl.
    split; [exact Hs'|]. split.
    + eapply Forall_impl; [exact Hpost|]. intros lk [?|(hit & Hhit & Hcase)];
        [left; assumption|]. right. exists hit. split; [exact Hhit|].
      destruct Hcase as [?|[_ ?]]; [right; assumption | left; assumption].
    + split; [|discriminate]. intros _. rewrite Hactual. split; [lia | reflexivity].
  - rewrite (Hsame eq_refl). simpl. split; [exact Hs'|]. split.
    + eapply Forall_impl; [exact Hpost|]. intros lk [?|(hit & Hhit & Hcase)];
        [left; assumption|]. right. exists hit. split; [exact Hhit|].
      destruct Hcase as [?|[? _]]; [right; assumption | left; lia].
    + split; [discriminate|]. intros _. auto.
Qed.

(** X10: on a hit set whose hits descend and whose lookups stand at or below
    the most recent location (the assertion of line 1724), a
    [getNextLowerHit] that finds a hit returns a location above 0 and strictly
    below the most recent one, and remembers it; one that finds none leaves the
    caller's variables and the most recent location alone.  Either way the
    assertion holds again afterwards. *)
Theorem getNextLowerHit_descends
    (h h' : HitSet.t) (genomeLocation0 : GenomeLocation) (seedOffsetFound0 : Z)
    (found : bool) (genomeLocation : GenomeLocation) (seedOffsetFound_ : Z) :
  Forall hitsDescend (HitSet.lookups h) ->
  Forall (lookupBehind (HitSet.mostRecentLocationReturned h)) (HitSet.lookups h) ->
  getNextLowerHit h genomeLocation0 seedOffsetFound0
  = Ok (found, h', genomeLocation, seedOffsetFound_) ->
  Forall hitsDescend (HitSet.lookups h') /\
  Forall (lookupBehind (HitSet.mostRecentLocationReturned h')) (HitSet.lookups h') /\
  (found = true ->
   0 < genomeLocation < HitSet.mostRecentLocationReturned h /\
   HitSet.mostRecentLocationReturned h' = genomeLocation) /\
  (found = false ->
   genomeLocation = genomeLocation0 /\ seedOffsetFound_ = seedOffsetFound0 /\
   HitSet.mostRecentLocationReturned h' = HitSet.mostRecentLocationReturned h).
Proof.
  intros Hs Hb H. eapply getNextLowerHit_step; eassumption.
Qed.

Lemma getNextLowerHit_descends_witness :
  exists h',
    getNextLowerHit (HitSet.mk 4 31 [Lookup.mk 0 2 [300; 100] 0 0; Lookup.mk 8 2 [308; 208] 0 0]
                               (replicate 4 (Disjoint.mk 0 0)) 0 300) 0 0
    = Ok (true, h', 200, 8) /\
    0 < 200 < 300 /\ HitSet.mostRecentLocationReturned h' = 200.
Proof.
  eexists. split; [vm_compute; reflexivity|].
  assert (Hs : Forall hitsDescend
                 [Lookup.mk 0 2 [300; 100] 0 0; Lookup.mk 8 2 [308; 208] 0 0]).
  { repeat (apply Forall_cons; split); try (apply Forall_nil; exact I);
      intros [|[|i]] x y Hx Hy; simpl in *; try discriminate;
      injection Hx as <-; injection Hy as <-; lia. }
  assert (Hb : Forall (lookupBehind 300)
                 [Lookup.mk 0 2 [300; 100] 0 0; Lookup.mk 8 2 [308; 208] 0 0]).
  { repeat (apply Forall_cons; split); try (apply Forall_nil; exact I);
      right; eexists; (split; [reflexivity|]); simpl; lia. }
  pose proof (getNextLowerHit_descends
                (HitSet.mk 4 31 [Lookup.mk 0 2 [300; 100] 0 0; Lookup.mk 8 2 [308; 208] 0 0]
                           (replicate 4 (Disjoint.mk 0 0)) 0 300) _ 0 0 true 200 8
                Hs Hb eq_refl) as (_ & _ & Hfound & _).
  exact (Hfound eq_refl).
Defined.






Lemma resetMissCounts_spec (n : nat) (ds : list Disjoint.t) (i : nat) (d : Disjoint.t) :
  ds !! i = Some d ->
  exists d', resetMissCounts n ds !! i = Some d' /\
    Disjoint.countOfExhaustedHits d' = Disjoint.countOfExhaustedHits d /\
    ((i < n)%nat -> Disjoint.missCount d' = Disjoint.countOfExhaustedHits d).
Proof.
  revert ds i. induction n as [|n IH]; intros ds i Hd.
  - exists d. destruct ds; simpl; (split; [exact Hd|]); split; [reflexivity | lia | reflexivity | lia].
  - destruct ds as [|d0 rest]; [discriminate|]. destruct i as [|i]; simpl in *.
    + injection Hd as <-. eexists. split; [reflexivity|]. simpl. auto.
    + destruct (IH rest i Hd) as (d' & Hd' & He & Hm). exists d'.
      split; [exact Hd'|]. split; [exact He|]. intros Hi. apply Hm. lia.
Qed.

Lemma countMisses_grows (h : HitSet.t) (ls : list Lookup.t) (ds ds' : list Disjoint.t)
    (i : nat) (d : Disjoint.t) :
  countMisses h ls ds = Ok ds' -> ds !! i = Some d ->
  exists d', ds' !! i = Some d' /\
    Disjoint.countOfExhaustedHits d' = Disjoint.countOfExhaustedHits d /\
    Disjoint.missCount d <= Disjoint.missCount d'.
Proof.
  revert ds d. induction ls as [|lk rest IH]; simpl; intros ds d H Hd.
  - injection H as <-. exists d. split; [exact Hd|]. split; [reflexivity | lia].
  - bind_inv H as close Hclose. destruct close; [eapply IH; eassumption|].
    bind_inv H as d0 Hd0. apply readArray_Ok in Hd0 as [_ Hd0].
    bind_inv H as ds1 Hds1. apply writeArray_Ok in Hds1 as (_ & Hlt & ->).
    destruct (decide (i = Z.to_nat (Lookup.whichDisjointHitSet lk))) as [->|Hne].
    + rewrite Hd0 in Hd. injection Hd as ->.
      pose proof (list_lookup_insert_eq ds (Z.to_nat (Lookup.whichDisjointHitSet lk))
                    (Disjoint.mk (Disjoint.countOfExhaustedHits d) (Disjoint.missCount d + 1))
                    Hlt) as Hnew.
      destruct (IH _ _ H Hnew) as (d' & Hd' & He & Hm).
      exists d'. split; [exact Hd'|]. simpl in *. split; [exact He | lia].
    + eapply IH; [exact H|]. rewrite list_lookup_insert_ne by congruence. exact Hd.
Qed.

Lemma maxMissCount_bounds (n : nat) (ds : list Disjoint.t) (b : Z) :
  b <= maxMissCount n ds b /\
  forall i d, (i < n)%nat -> ds !! i = Some d -> Disjoint.missCount d <= maxMissCount n ds b.
Proof.
  revert ds b. induction n as [|n IH]; intros ds b.
  - split; [destruct ds; simpl; lia|]. intros; lia.
  - destruct ds as [|d0 rest]; simpl.
    + split; [lia|]. intros i d _ Hd. discriminate.
    + destruct (IH rest (Z.max b (Disjoint.missCount d0))) as [Hb Hall].
      split; [lia|]. intros [|i] d Hi Hd; simpl in Hd.
      * injection Hd as <-. lia.
      * apply (Hall i d); [lia | exact Hd].
Qed.

(** X12: the best possible score that
    [computeBestPossibleScoreForCurrentHit] returns is not negative and is at
    least the number of exhausted seeds of every disjoint hit set in use; the
    call changes neither those numbers, nor the lookups, nor the most recent
    location. *)
Theorem computeBestPossibleScore_counts_the_exhausted_seeds
    (h h' : HitSet.t) (bestPossibleScore : Z) :
  computeBestPossibleScoreForCurrentHit h = Ok (bestPossibleScore, h') ->
  0 <= bestPossibleScore /\
  (forall (i : nat) d, Z.of_nat i <= HitSet.currentDisjointHitSet h ->
     HitSet.disjointHitSets h !! i = Some d ->
     Disjoint.countOfExhaustedHits d <= bestPossibleScore) /\
  (forall (i : nat) d, HitSet.disjointHitSets h !! i = Some d ->
     exists d', HitSet.disjointHitSets h' !! i = Some d' /\
       Disjoint.countOfExhaustedHits d' = Disjoint.countOfExhaustedHits d) /\
  HitSet.lookups h' = HitSet.lookups h /\
  HitSet.mostRecentLocationReturned h' = HitSet.mostRecentLocationReturned h /\
  HitSet.currentDisjointHitSet h' = HitSet.currentDisjointHitSet h.
Proof.
  unfold computeBestPossibleScoreForCurrentHit. intros H.
  destruct (_ <? _)%nat; [discriminate|]. bind_inv H as ds Hds. injection H as <- <-.
  set (used := Z.to_nat (HitSet.currentDisjointHitSet h + 1)) in *.
  destruct (maxMissCount_bounds used ds 0) as [Hpos Hmax].
  split; [exact Hpos|]. split; [|split; [|simpl; auto]].
  - intros i d Hi Hd.
    destruct (resetMissCounts_spec used _ _ _ Hd) as (d0 & Hd0 & He0 & Hm0).
    destruct (countMisses_grows _ _ _ _ _ _ Hds Hd0) as (d' & Hd' & He & Hm).
    assert (Hlt : (i < used)%nat) by (unfold used; lia).
    specialize (Hmax i d' Hlt Hd'). specialize (Hm0 Hlt). lia.
  - intros i d Hd. simpl.
    destruct (resetMissCounts_spec used _ _ _ Hd) as (d0 & Hd0 & He0 & _).
    destruct (countMisses_grows _ _ _ _ _ _ Hds Hd0) as (d' & Hd' & He & _).
    exists d'. split; [exact Hd' | congruence].
Qed.

Lemma computeBestPossibleScore_counts_the_exhausted_seeds_witness :
  exists h',
    computeBestPossibleScoreForCurrentHit (missedSeedsHitSet 1000) = Ok (3, h') /\
    HitSet.lookups h' = HitSet.lookups (missedSeedsHitSet 1000).
Proof.
  eexists. split; [vm_compute; reflexivity|].
  pose proof (computeBestPossibleScore_counts_the_exhausted_seeds (missedSeedsHitSet 1000)
                _ 3 eq_refl) as (_ & _ & _ & Hls & _).
  exact Hls.
Defined.

(** ** Phase 2: the cursors *)

(** What a move of the more-hits cursor amounts to. *)
Lemma moveMore_frame (a a' : Aligner) (s : Z)
    (move : HitSet.t -> GenomeLocation -> Z -> Res (bool * HitSet.t * GenomeLocation * Z))
    (found : bool) :
  moveMore a s move = Ok (found, a') ->
  exists h location seedOffset,
    move (getSetPair a s (readWithMoreHits a))
         (get2 (lastGenomeLocationForReadWithMoreHits (cursors a)) s)
         (get2 (lastSeedOffsetForReadWithMoreHits (cursors a)) s)
    = Ok (found, h, location, seedOffset) /\
    a' = set_cursors (set_lastMore s location seedOffset (cursors a))
                     (putSetPair a s (readWithMoreHits a) h).
Proof.
  unfold moveMore. intros H. bind_inv H as r Hr. destruct r as [[[found' h] location] seedOffset].
  injection H as <- <-. eauto.
Qed.

Lemma moveFewer_frame (a a' : Aligner) (s : Z)
    (move : HitSet.t -> GenomeLocation -> Z -> Res (bool * HitSet.t * GenomeLocation * Z))
    (found : bool) :
  moveFewer a s move = Ok (found, a') ->
  exists h location seedOffset,
    move (getSetPair a s (readWithFewerHits a))
         (get2 (lastGenomeLocationForReadWithFewerHits (cursors a)) s)
         (get2 (lastSeedOffsetForReadWithFewerHits (cursors a)) s)
    = Ok (found, h, location, seedOffset) /\
    a' = set_cursors (set_lastFewer s location seedOffset (cursors a))
                     (putSetPair a s (readWithFewerHits a) h).
Proof.
  unfold moveFewer. intros H. bind_inv H as r Hr. destruct r as [[[found' h] location] seedOffset].
  injection H as <- <-. eauto.
Qed.





(** ** Phase 2: adding candidates *)

Lemma get2_set2 {A : Type} (a : A * A) (i j : Z) (x : A) :
  get2 (set2 a i x) j = if Bool.eqb (i =? 0) (j =? 0) then x else get2 a j.
Proof. unfold get2, set2. destruct (i =? 0), (j =? 0); reflexivity. Qed.

Lemma set2_set2 {A : Type} (a : A * A) (i : Z) (x y : A) :
  set2 (set2 a i x) i y = set2 a i y.
Proof. unfold set2. destruct (i =? 0); reflexivity. Qed.

Lemma getSetPair_putSetPair (a : Aligner) (s r : Z) (h : HitSet.t) :
  getSetPair (putSetPair a s r h) s r = h.
Proof. unfold getSetPair, putSetPair. cbn. rewrite !get2_set2_same. reflexivity. Qed.

Lemma getSetPair_set_cursors (c : Cursors) (a : Aligner) (s r : Z) :
  getSetPair (set_cursors c a) s r = getSetPair a s r.
Proof. reflexivity. Qed.

Lemma getSetPair_set_arenas (p : Pools) (a : Aligner) (s r : Z) :
  getSetPair (set_arenas p a) s r = getSetPair a s r.
Proof. reflexivity. Qed.

Lemma computeBestPossibleScore_frame (h h' : HitSet.t) (b : Z) :
  computeBestPossibleScoreForCurrentHit h = Ok (b, h') ->
  HitSet.lookups h' = HitSet.lookups h /\
  HitSet.mostRecentLocationReturned h' = HitSet.mostRecentLocationReturned h.
Proof.
  unfold computeBestPossibleScoreForCurrentHit. intros H.
  destruct (_ <? _)%nat; [discriminate|]. bind_inv H as ds Hds. injection H as _ <-.
  split; reflexivity.
Qed.

Lemma within_of_bounds (a b d : Z) :
  b <= a + d -> a <= b + d -> genomeLocationIsWithin a b d = true.
Proof.
  intros H1 H2. unfold genomeLocationIsWithin, DistanceBetweenGenomeLocations.
  destruct (Z.ltb_spec b a); apply Z.leb_le; lia.
Qed.

Lemma set2_get2 {A : Type} (a : A * A) (i : Z) : set2 a i (get2 a i) = a.
Proof. unfold get2, set2. destruct a, (i =? 0); reflexivity. Qed.

(** The first loop of [align_phase_2_single_step_add_candidate]: it appends
    mates that are within [maxSpacing] of the fewer-hits cursor, at least one
    if the more-hits cursor starts within [maxSpacing] below it, and keeps the
    more-hits cursor on its hit set. *)
Lemma addMateCandidates_appends (cfg : Config) (fuel : nat) (a a' : Aligner) (s : Z) :
  moreCursorTracked a s ->
  (get2 (outOfMoreHitsLocations (cursors a)) s = false ->
   get2 (lastGenomeLocationForReadWithMoreHits (cursors a)) s
   <= get2 (lastGenomeLocationForReadWithFewerHits (cursors a)) s + maxSpacing cfg) ->
  addMateCandidates cfg fuel a s = Ok a' ->
  exists newMates,
    poolsGrow s (arenas a) (arenas a') newMates [] /\
    scoringCandidates (arenas a') = scoringCandidates (arenas a) /\
    maxUsedBestPossibleScoreList (arenas a') = maxUsedBestPossibleScoreList (arenas a) /\
    lastGenomeLocationForReadWithFewerHits (cursors a')
    = lastGenomeLocationForReadWithFewerHits (cursors a) /\
    lastSeedOffsetForReadWithFewerHits (cursors a')
    = lastSeedOffsetForReadWithFewerHits (cursors a) /\
    readWithMoreHits a' = readWithMoreHits a /\
    readWithFewerHits a' = readWithFewerHits a /\
    Forall (fun m => genomeLocationIsWithin
                       (Mate.readWithMoreHitsGenomeLocation m)
                       (get2 (lastGenomeLocationForReadWithFewerHits (cursors a)) s)
                       (maxSpacing cfg) = true) newMates /\
    (get2 (lastGenomeLocationForReadWithFewerHits (cursors a)) s
     <= get2 (lastGenomeLocationForReadWithMoreHits (cursors a)) s + maxSpacing cfg ->
     get2 (outOfMoreHitsLocations (cursors a)) s = false -> newMates <> []) /\
    (newMates <> [] ->
     Z.of_nat (length (get2 (scoringMateCandidates (arenas a)) s ++ newMates))
     <= scoringCandidatePoolSize cfg ÷ 2) /\
    moreCursorTracked a' s /\
    (get2 (outOfMoreHitsLocations (cursors a')) s = false ->
     get2 (lastGenomeLocationForReadWithMoreHits (cursors a')) s
     <= get2 (lastGenomeLocationForReadWithFewerHits (cursors a')) s + maxSpacing cfg).
Proof.
  revert a. induction fuel as [|fuel IH]; intros a Htracked Hhigh H; [discriminate|].
  cbn [addMateCandidates] in H.
  destruct (Z.leb_spec (get2 (lastGenomeLocationForReadWithFewerHits (cursors a)) s)
                       (get2 (lastGenomeLocationForReadWithMoreHits (cursors a)) s
                        + maxSpacing cfg)) as [Hlow|Hfar];
    [destruct (get2 (outOfMoreHitsLocations (cursors a)) s) eqn:Hout|]; cbn [andb negb] in H.
  - injection H as <-. exists [].
    split; [unfold poolsGrow; rewrite !app_nil_r, set2_get2; auto|].
    do 6 (split; [reflexivity|]). split; [apply Forall_nil; exact I|].
    split; [intros _ Hf; congruence|]. split; [intros Hne; contradiction|].
    split; [exact Htracked|]. intros Hf. congruence.
  - assert (Hhigh' := Hhigh eq_refl). clear Hhigh. rename Hhigh' into Hhigh.
    bind_inv H as r Hbest. destruct r as [bestPossibleScore a1].
    assert (Ha1 : arenas a1 = arenas a /\ cursors a1 = cursors a /\
                  readWithMoreHits a1 = readWithMoreHits a /\
                  readWithFewerHits a1 = readWithFewerHits a /\
                  HitSet.lookups (getSetPair a1 s (readWithMoreHits a))
                  = HitSet.lookups (getSetPair a s (readWithMoreHits a)) /\
                  HitSet.mostRecentLocationReturned (getSetPair a1 s (readWithMoreHits a))
                  = HitSet.mostRecentLocationReturned (getSetPair a s (readWithMoreHits a))).
    { destruct (noTruncation cfg).
      - injection Hbest as _ <-. auto 10.
      - bind_inv Hbest as r Hcompute. destruct r as [b h]. injection Hbest as _ <-.
        apply computeBestPossibleScore_frame in Hcompute as [Hls Hmr].
        rewrite getSetPair_putSetPair. auto 10. }
    destruct Ha1 as (Harenas1 & Hcursors1 & Hmore1 & Hfewer1 & Hls1 & Hmr1).
    rewrite Harenas1 in H.
    destruct (Z.leb_spec (scoringCandidatePoolSize cfg ÷ 2)
                         (Z.of_nat (length (get2 (scoringMateCandidates (arenas a)) s))))
      as [Hfull|Hroom]; [discriminate|].
    set (mate := Mate.init (get2 (lastGenomeLocationForReadWithMoreHits (cursors a)) s)
                           bestPossibleScore
                           (get2 (lastSeedOffsetForReadWithMoreHits (cursors a)) s)) in *.
    bind_inv H as r Hmove. destruct r as [found a3].
    apply moveMore_frame in Hmove as (h & location & seedOffset & Hcall & ->).
    cbn [readWithMoreHits set_arenas cursors] in Hcall.
    rewrite Hmore1, Hcursors1 in Hcall.
    rewrite getSetPair_set_arenas in Hcall.
    destruct Htracked as (Hdesc & Hbehind & Hcursor).
    apply getNextLowerHit_step in Hcall as (Hdesc' & Hbehind' & Hfound & Hnone);
      [| rewrite Hls1; exact Hdesc | rewrite Hls1, Hmr1; exact Hbehind].
    rewrite Hmr1, (Hcursor Hout) in Hfound, Hnone.
    assert (Hwithin : genomeLocationIsWithin (Mate.readWithMoreHitsGenomeLocation mate)
                        (get2 (lastGenomeLocationForReadWithFewerHits (cursors a)) s)
                        (maxSpacing cfg) = true)
      by (apply within_of_bounds; simpl; lia).
    destruct found.
    + destruct (Hfound eq_refl) as [Hlower Hmr'].
      apply IH in H.
      * destruct H as (newMates & Hgrow & Hheads & Hmax & Hlf & Hso & Hrm & Hrf & Hall & _
                                  & Hlen & Htracked' & Hhigh').
        cbn in Hgrow, Hheads, Hmax, Hlf, Hso, Hrm, Hrf, Hall, Hlen.
        rewrite ?Harenas1, ?Hcursors1, ?Hmore1, ?Hfewer1 in *.
        exists (mate :: newMates).
        split.
        { destruct Hgrow as (Hm & Hc & Hanchors & Hn). unfold poolsGrow.
          rewrite Hm, Hc, Hanchors, Hn. cbn. rewrite get2_set2_same, set2_set2, <- app_assoc.
          auto. }
        split; [exact Hheads|]. split; [exact Hmax|]. split; [exact Hlf|].
        split; [exact Hso|]. split; [exact Hrm|]. split; [exact Hrf|].
        split; [apply Forall_cons; split; [exact Hwithin | exact Hall]|].
        split; [intros _ _; discriminate|].
        split.
        { intros _. destruct newMates as [|m rest].
          - rewrite length_app. simpl. lia.
          - rewrite get2_set2_same, <- app_assoc in Hlen. apply Hlen. discriminate. }
        split; [exact Htracked' | exact Hhigh'].
      * unfold moreCursorTracked. cbn [readWithMoreHits set_cursors set_arenas putSetPair
                                       set_hashTableHitSets cursors].
        rewrite Hmore1, getSetPair_set_cursors, getSetPair_putSetPair.
        split; [exact Hdesc'|]. split; [exact Hbehind'|]. intros _.
        cbn. rewrite get2_set2_same. exact Hmr'.
      * intros _. cbn. rewrite Hcursors1, get2_set2_same. lia.
    + clear IH. injection H as <-. exists [mate].
      split; [unfold poolsGrow; cbn; rewrite ?Harenas1, app_nil_r; auto|].
      cbn. rewrite ?Harenas1, ?Hcursors1, ?Hmore1, ?Hfewer1.
      do 6 (split; [reflexivity|]).
      split; [apply Forall_cons; split; [exact Hwithin | apply Forall_nil; exact I]|].
      split; [intros _ _; discriminate|].
      split; [intros _; rewrite length_app; simpl; lia|].
      split.
      * unfold moreCursorTracked.
        cbn [readWithMoreHits set_cursors set_arenas putSetPair set_hashTableHitSets cursors].
        rewrite Hmore1, !getSetPair_set_cursors, getSetPair_putSetPair.
        split; [exact Hdesc'|]. split; [exact Hbehind'|].
        cbn. rewrite get2_set2_same. intros Hf. discriminate.
      * rewrite get2_set2_same. intros Hf. discriminate.
  - injection H as <-. exists [].
    split; [unfold poolsGrow; rewrite !app_nil_r, set2_get2; auto|].
    do 6 (split; [reflexivity|]). split; [apply Forall_nil; exact I|].
    split; [intros Hl; lia|]. split; [intros Hne; contradiction|].
    split; [exact Htracked | exact Hhigh].
Qed.

Lemma get2_same_side {A : Type} (a : A * A) (i j : Z) :
  (i =? 0) = (j =? 0) -> get2 a i = get2 a j.
Proof. unfold get2. intros ->. reflexivity. Qed.

(** Appending mates to a set pair keeps the mates that were there. *)
Lemma mateAt_grow (s : Z) (p p' : Pools) (newMates : list Mate.t) (ptr : Z * Z) (m : Mate.t) :
  scoringMateCandidates p'
  = set2 (scoringMateCandidates p) s (get2 (scoringMateCandidates p) s ++ newMates) ->
  mateAt p ptr = Ok m -> mateAt p' ptr = Ok m.
Proof.
  unfold mateAt. intros -> H. rewrite get2_set2.
  destruct (Bool.eqb (s =? 0) (fst ptr =? 0)) eqn:Hside; [|exact H].
  apply eqb_prop in Hside. rewrite (get2_same_side _ s (fst ptr) Hside).
  apply readArray_Ok in H as [Hpos H]. apply readArray_Ok. split; [exact Hpos|].
  apply lookup_app_l_Some. exact H.
Qed.

(** What a step of [align_phase_2_single_step_add_candidate] adds to the
    arenas when it starts with a mate at hand. *)
Lemma align_phase_2_single_step_add_candidate_spec
    (cfg : Config) (fuel : nat) (a a' : Aligner) (whichSetPair clusterIdx : Z)
    (noMoreLocus_ : bool) :
  let fewer := get2 (lastGenomeLocationForReadWithFewerHits (cursors a)) whichSetPair in
  let more := get2 (lastGenomeLocationForReadWithMoreHits (cursors a)) whichSetPair in
  let out := get2 (outOfMoreHitsLocations (cursors a)) whichSetPair in
  let mates := get2 (scoringMateCandidates (arenas a)) whichSetPair in
  moreCursorTracked a whichSetPair ->
  (out = false -> more <= fewer + maxSpacing cfg) ->
  ((fewer <= more + maxSpacing cfg /\ out = false) \/
   exists newest,
     readArray mates (Z.of_nat (length mates) - 1) = Ok newest /\
     genomeLocationIsWithin (Mate.readWithMoreHitsGenomeLocation newest) fewer
                            (maxSpacing cfg) = true) ->
  firstMatesAtHand cfg (arenas a) ->
  scoringCandidatePoolSize cfg <= 2 ^ 32 -> Z.of_nat (length mates) <= 2 ^ 32 ->
  align_phase_2_single_step_add_candidate cfg fuel a whichSetPair clusterIdx
  = Ok (noMoreLocus_, a') ->
  exists newMates newCandidates,
    poolsGrow whichSetPair (arenas a) (arenas a') newMates newCandidates /\
    (length newCandidates <= 1)%nat /\
    Forall (fun m => genomeLocationIsWithin (Mate.readWithMoreHitsGenomeLocation m) fewer
                                            (maxSpacing cfg) = true) newMates /\
    Forall (fun c => Cand.readWithFewerHitsGenomeLocation c = fewer /\
                     Cand.whichSetPair c = whichSetPair /\
                     Cand.clusterIdx c = clusterIdx /\ Cand.mergeAnchor c = None)
           newCandidates /\
    firstMatesAtHand cfg (arenas a') /\
    firstMatesInRange cfg (arenas a').
Proof.
  intros fewer more out mates Htracked Hhigh Hathand Hfirst Hsize Hlen H.
  unfold align_phase_2_single_step_add_candidate in H.
  bind_inv H as a1 Hloop.
  apply addMateCandidates_appends in Hloop
    as (newMates & Hgrow1 & Hheads1 & Hmax1 & Hlf1 & Hso1 & Hrm1 & Hrf1 & Hall & Hsome
                 & Hroom & _ & _); [| exact Htracked | exact Hhigh].
  fold fewer more out mates in Hall, Hsome, Hroom.
  bind_inv H as r Hbest. destruct r as [bestPossibleScoreForReadWithFewerHits a2].
  assert (Ha2 : arenas a2 = arenas a1 /\ cursors a2 = cursors a1).
  { destruct (noTruncation cfg).
    - injection Hbest as _ <-. auto.
    - bind_inv Hbest as r Hcompute. destruct r as [b h]. injection Hbest as _ <-. auto. }
  destruct Ha2 as [Harenas2 Hcursors2].
  bind_inv H as a3 Hadd. bind_inv H as r Hmove. destruct r as [found a4].
  apply moveFewer_frame in Hmove as (h & location & seedOffset & _ & ->).
  injection H as _ <-. cbn [arenas set_cursors putSetPair set_hashTableHitSets].
  destruct Hgrow1 as (Hmates1 & Hpool1 & Hanchors1 & Hscored1). rewrite app_nil_r in Hpool1.
  rewrite Harenas2, Hcursors2, Hlf1, Hmates1, get2_set2_same in Hadd. fold fewer mates in Hadd.
  (* the mates at hand after the loop *)
  assert (Hlast : exists newest,
             readArray (mates ++ newMates) (Z.of_nat (length (mates ++ newMates)) - 1)
             = Ok newest /\
             genomeLocationIsWithin (Mate.readWithMoreHitsGenomeLocation newest) fewer
                                    (maxSpacing cfg) = true /\
             1 <= Z.of_nat (length (mates ++ newMates)) <= 2 ^ 32).
  { destruct (decide (newMates = [])) as [->|Hne].
    - rewrite app_nil_r.
      destruct Hathand as [[Hl Ho]|(newest & Hnewest & Hw)]; [exfalso; exact (Hsome Hl Ho eq_refl)|].
      exists newest. split; [exact Hnewest|]. split; [exact Hw|].
      apply readArray_Ok in Hnewest as [? _]. lia.
    - specialize (Hroom Hne).
      destruct (exists_last Hne) as (front & newest & ->).
      rewrite Forall_app in Hall. destruct Hall as [_ Hnewest].
      apply Forall_cons in Hnewest as [Hw _].
      exists newest. rewrite app_assoc in *. rewrite length_app in *. simpl in *.
      split.
      + apply readArray_Ok. split; [lia|].
        replace (Z.to_nat (Z.of_nat (length (mates ++ front) + 1) - 1))
          with (length (mates ++ front)) by lia.
        apply list_lookup_middle. reflexivity.
      + split; [exact Hw|]. pose proof (Z.quot_le_upper_bound (scoringCandidatePoolSize cfg) 2).
        assert (scoringCandidatePoolSize cfg ÷ 2 <= 2 ^ 32); [|lia].
        apply Z.quot_le_upper_bound; lia. }
  destruct Hlast as (newest & Hnewest & Hw & Hcount).
  assert (Hold : forall p', scoringMateCandidates p' = scoringMateCandidates (arenas a1) ->
                 forall i c, scoringCandidatePool (arenas a) !! i = Some c ->
                 exists m,
                   mateAt p' (Cand.whichSetPair c, Cand.scoringMateCandidateIndex c) = Ok m /\
                   genomeLocationIsWithin (Mate.readWithMoreHitsGenomeLocation m)
                     (Cand.readWithFewerHitsGenomeLocation c) (maxSpacing cfg) = true).
  { intros p' Hp' i c Hc. destruct (Hfirst i c Hc) as (m & Hm & Hwm).
    exists m. split; [|exact Hwm].
    eapply (mateAt_grow whichSetPair (arenas a)); [|exact Hm]. rewrite Hp'. exact Hmates1. }
  destruct (_ <=? wrap32 (maxK cfg + extraSearchDepth cfg)).
  - destruct (_ <=? Z.of_nat _); [discriminate|].
    bind_inv Hadd as head Hhead. bind_inv Hadd as heads' Hheads'. injection Hadd as <-.
    cbn [arenas set_arenas]. rewrite ?Harenas2.
    set (candidate := Cand.init fewer whichSetPair _ _ _ head clusterIdx).
    assert (Hathand' : firstMatesAtHand cfg
              (set_maxUsedBestPossibleScoreList
                 (Z.max (maxUsedBestPossibleScoreList (arenas a1))
                    (if noOrderedEvaluation cfg then 0
                     else wrap32 (lowestBestPossibleScore (rev (mates ++ newMates))
                                    (fewer + maxSpacing cfg)
                                    (wrap32 (maxK cfg + extraSearchDepth cfg))
                                  + bestPossibleScoreForReadWithFewerHits
                                  + (if clusterIdx =? -1 then clusterEDCompensation cfg else 0))))
                 (set_scoringCandidates heads'
                    (set_scoringCandidatePool (scoringCandidatePool (arenas a1) ++ [candidate])
                                              (arenas a1))))).
    { intros i c Hc. cbn in Hc. rewrite Hpool1 in Hc.
      apply lookup_app_Some in Hc as [Hc|[_ Hc]].
      - eapply Hold; [reflexivity | exact Hc].
      - apply list_lookup_singleton_Some in Hc as [_ <-].
        exists newest. split; [|exact Hw].
        unfold mateAt. cbn. rewrite Hmates1, get2_set2_same.
        rewrite wrap32_small by lia. exact Hnewest. }
    exists newMates, [candidate]. split.
    + unfold poolsGrow. cbn. rewrite Hmates1, Hpool1, Hanchors1, Hscored1. auto.
    + split; [simpl; lia|]. split; [exact Hall|].
      split; [repeat constructor|]. split; [exact Hathand'|].
      intros i c m Hc Hm. destruct (Hathand' i c Hc) as (m' & Hm' & Hwm).
      rewrite Hm in Hm'. injection Hm' as <-. exact Hwm.
  - injection Hadd as <-. rewrite ?Harenas2.
    assert (Hathand' : firstMatesAtHand cfg (arenas a1)).
    { intros i c Hc. rewrite Hpool1 in Hc. eapply Hold; [reflexivity | exact Hc]. }
    exists newMates, []. split.
    + unfold poolsGrow. rewrite Hmates1, Hpool1, Hanchors1, Hscored1, app_nil_r. auto.
    + split; [simpl; lia|]. split; [exact Hall|]. split; [constructor|].
      split; [exact Hathand'|].
      intros i c m Hc Hm. destruct (Hathand' i c Hc) as (m' & Hm' & Hwm).
      rewrite Hm in Hm'. injection Hm' as <-. exact Hwm.
Qed.

(** X14: a step of [align_phase_2_single_step_add_candidate] that starts
    with a mate at hand, as [align_phase_2_move_locus] leaves it when it
    returns 0, only appends to the pools: mates of the set pair that are
    within [maxSpacing] of the fewer-hits cursor, and at most one candidate,
    at that cursor, with the given cluster.  Every candidate, the new one
    included, then has its first mate within [maxSpacing], which is what
    [align_phase_3_score] asserts at line 777. *)
Theorem add_candidate_keeps_first_mates_in_range
    (cfg : Config) (fuel : nat) (a a' : Aligner) (whichSetPair clusterIdx : Z)
    (noMoreLocus_ : bool) :
  let fewer := get2 (lastGenomeLocationForReadWithFewerHits (cursors a)) whichSetPair in
  let more := get2 (lastGenomeLocationForReadWithMoreHits (cursors a)) whichSetPair in
  let out := get2 (outOfMoreHitsLocations (cursors a)) whichSetPair in
  let mates := get2 (scoringMateCandidates (arenas a)) whichSetPair in
  moreCursorTracked a whichSetPair ->
  (out = false -> more <= fewer + maxSpacing cfg) ->
  ((fewer <= more + maxSpacing cfg /\ out = false) \/
   exists newest,
     readArray mates (Z.of_nat (length mates) - 1) = Ok newest /\
     genomeLocationIsWithin (Mate.readWithMoreHitsGenomeLocation newest) fewer
                            (maxSpacing cfg) = true) ->
  firstMatesAtHand cfg (arenas a) ->
  scoringCandidatePoolSize cfg <= 2 ^ 32 -> Z.of_nat (length mates) <= 2 ^ 32 ->
  align_phase_2_single_step_add_candidate cfg fuel a whichSetPair clusterIdx
  = Ok (noMoreLocus_, a') ->
  exists newMates newCandidates,
    poolsGrow whichSetPair (arenas a) (arenas a') newMates newCandidates /\
    (length newCandidates <= 1)%nat /\
    Forall (fun m => genomeLocationIsWithin (Mate.readWithMoreHitsGenomeLocation m) fewer
                                            (maxSpacing cfg) = true) newMates /\
    Forall (fun c => Cand.readWithFewerHitsGenomeLocation c = fewer /\
                     Cand.whichSetPair c = whichSetPair /\
                     Cand.clusterIdx c = clusterIdx /\ Cand.mergeAnchor c = None)
           newCandidates /\
    firstMatesAtHand cfg (arenas a') /\
    firstMatesInRange cfg (arenas a').
Proof.
  exact (align_phase_2_single_step_add_candidate_spec cfg fuel a a' whichSetPair clusterIdx
           noMoreLocus_).
Qed.

Lemma add_candidate_keeps_first_mates_in_range_witness :
  exists a',
    align_phase_2_single_step_add_candidate sampleConfig 4 trackedAligner 0 5 = Ok (true, a') /\
    length (scoringCandidatePool (arenas a')) = 1%nat /\
    firstMatesInRange sampleConfig (arenas a').
Proof.
  eexists. split; [vm_compute; reflexivity|]. split; [reflexivity|].
  assert (Htracked : moreCursorTracked trackedAligner 0).
  { split; [|split].
    - apply Forall_cons. split; [|apply Forall_nil; exact I].
      intros [|i] x y Hx Hy; simpl in *; discriminate.
    - apply Forall_cons. split; [|apply Forall_nil; exact I].
      right. exists 1500. split; [reflexivity|]. left. simpl. lia.
    - reflexivity. }
  assert (Hfirst : firstMatesAtHand sampleConfig (arenas trackedAligner)).
  { intros i c Hc. destruct i; discriminate. }
  match goal with
  | |- firstMatesInRange _ (arenas ?x) =>
    destruct (add_candidate_keeps_first_mates_in_range sampleConfig 4 trackedAligner x 0 5
                true Htracked) as (newMates & newCandidates & _ & _ & _ & _ & _ & Hrange)
  end.
  - intros _. vm_compute. discriminate.
  - left. split; [vm_compute; discriminate | reflexivity].
  - exact Hfirst.
  - vm_compute. discriminate.
  - vm_compute. discriminate.
  - vm_compute. reflexivity.
  - exact Hrange.
Defined.

(** ** What a scoring pass may change *)

Lemma scoringAdvances_refl (cfg : Config) (inRevise : bool) (st : Scoring) :
  scoringAdvances cfg inRevise st st.
Proof.
  split; [apply keysKept_refl|]. do 4 (split; [reflexivity|]). split; auto.
Qed.

Lemma scoringAdvances_trans (cfg : Config) (inRevise : bool) (st1 st2 st3 : Scoring) :
  scoringAdvances cfg inRevise st1 st2 -> scoringAdvances cfg inRevise st2 st3 ->
  scoringAdvances cfg inRevise st1 st3.
Proof.
  intros (Hk1 & Ha1 & Hn1 & Hm1 & Hl1 & Hr1 & Hb1) (Hk2 & Ha2 & Hn2 & Hm2 & Hl2 & Hr2 & Hb2).
  split; [eapply keysKept_trans; eassumption|]. split; [lia|]. split; [lia|].
  split; [congruence|]. split; [congruence|]. split.
  - intros Hrev. destruct (Hr1 Hrev), (Hr2 Hrev). split; congruence.
  - destruct Hb1 as [Hb1|[Hb1 Hc1]], Hb2 as [Hb2|[Hb2 Hc2]].
    + left. congruence.
    + right. rewrite <- Hb1. auto.
    + right. rewrite Hb2. auto.
    + right. split; [lia | exact Hc2].
Qed.

(** The same arenas and log under another best score and limit. *)
Lemma scoringAdvances_pools (cfg : Config) (inRevise : bool) (st : Scoring) (p : Pools)
    (log : list (nat * (Z * Z))) :
  keysKept (pools st) p ->
  (length (mergeAnchorPool (pools st)) <= length (mergeAnchorPool p))%nat ->
  nLocationsScored (pools st) <= nLocationsScored p ->
  maxUsedBestPossibleScoreList p = maxUsedBestPossibleScoreList (pools st) ->
  length (scoringCandidates p) = length (scoringCandidates (pools st)) ->
  scoringAdvances cfg inRevise st (mkScoring p (bestCompensatedScore st) (scoreLimit st) log).
Proof.
  intros Hk Ha Hn Hm Hl. split; [exact Hk|]. split; [exact Ha|]. split; [exact Hn|].
  split; [exact Hm|]. split; [exact Hl|]. split; auto.
Qed.

Lemma mergePair_advances (cfg : Config) (E : Externals) (inRevise : bool) (candIdx : nat)
    (candidate : Cand.t) (mateIndex : Z) (mate : Mate.t) (astrayEDPenalty : Z)
    (fewerEndMatchProbability : float) (st st' : Scoring) :
  scoringCandidatePool (pools st) !! candIdx = Some candidate ->
  mergePair cfg E inRevise candIdx candidate mateIndex mate astrayEDPenalty
            fewerEndMatchProbability st = Ok st' ->
  scoringAdvances cfg inRevise st st'.
Proof.
  intros Hcand H. unfold mergePair in H. bind_inv H as r Hr. destruct r as [p' anchorUpdate].
  assert (Hp' : keysKept (pools st) p' /\
                (length (mergeAnchorPool (pools st)) <= length (mergeAnchorPool p'))%nat /\
                nLocationsScored p' = nLocationsScored (pools st) /\
                maxUsedBestPossibleScoreList p' = maxUsedBestPossibleScoreList (pools st) /\
                scoringCandidates p' = scoringCandidates (pools st)).
  { destruct (findMergeAnchor _ _ _) as [anchorIdx|].
    - bind_inv Hr as pool' Hw. apply writeArray_Ok in Hw as (_ & _ & ->).
      bind_inv Hr as anchor Hanchor.
      destruct (checkMerge _ _ _ _ _ _ _ _ _) as [anchor' ignored].
      bind_inv Hr as anchors' Hw'. apply writeArray_Ok in Hw' as (_ & _ & ->).
      injection Hr as <- _. rewrite Nat2Z.id. cbn. rewrite length_insert.
      split; [|auto].
      eapply keysKept_trans;
        [apply (keysKept_write_candidate (pools st) candIdx candidate
                  (Cand.set_mergeAnchor (Some anchorIdx) candidate) Hcand); reflexivity
        | repeat split].
    - destruct (_ <=? _); [discriminate|].
      bind_inv Hr as pool' Hw. apply writeArray_Ok in Hw as (_ & _ & ->).
      injection Hr as <- _. rewrite Nat2Z.id. cbn. rewrite length_app.
      split; [|split; [lia | auto]].
      eapply keysKept_trans;
        [apply (keysKept_write_candidate (pools st) candIdx candidate
                  (Cand.set_mergeAnchor (Some (length (mergeAnchorPool (pools st)))) candidate)
                  Hcand); reflexivity
        | repeat split]. }
  destruct Hp' as (Hk & Ha & Hn & Hm & Hh).
  destruct (negb inRevise) eqn:Hrev; cbn [andb] in H;
    [destruct anchorUpdate; cbn [andb] in H;
     [destruct (Z.leb_spec (wrap32 (wrap32 (Mate.score mate + Cand.fewerEndScore candidate)
                                     + astrayEDPenalty))
                           (wrap32 (maxK cfg + clusterEDCompensation cfg))) as [Hcap|Hcap];
      cbn [andb] in H;
      [destruct (Z.ltb_spec (wrap32 (wrap32 (Mate.score mate + Cand.fewerEndScore candidate)
                                       + astrayEDPenalty))
                            (wrap32 (bestCompensatedScore st))) as [Hless|Hless]|]|]|];
    injection H as <-;
    try (apply scoringAdvances_pools; [exact Hk | exact Ha | lia | exact Hm | congruence]).
  split; [exact Hk|]. split; [exact Ha|]. split; [simpl; lia|]. split; [exact Hm|].
  split; [simpl; congruence|]. split.
  - intros ->. discriminate.
  - right. simpl. rewrite wrap32_int32, wrap32_small by apply wrap32_range. auto.
Qed.

Lemma scoreMates_advances (cfg : Config) (E : Externals) (fuel : nat) (inRevise : bool)
    (readLen_ : Z * Z) (more : Z) (candIdx : nat) (astrayEDPenalty compensatedScoreLimit : Z)
    (fewerEndMatchProbability : float) :
  forall (mateIndex : Z) (st st' : Scoring),
    scoreMates cfg E fuel inRevise readLen_ more candIdx astrayEDPenalty
               compensatedScoreLimit fewerEndMatchProbability mateIndex st = Ok st' ->
    scoringAdvances cfg inRevise st st'.
Proof.
  induction fuel as [|fuel IH]; intros mateIndex st st' H; [discriminate|].
  cbn [scoreMates] in H.
  bind_inv H as candidate Hcand. apply readArray_Ok in Hcand as [_ Hcand].
  rewrite Nat2Z.id in Hcand.
  bind_inv H as mate Hmate. bind_inv H as st1 Hst1.
  assert (H1 : scoringAdvances cfg inRevise st st1).
  { destruct (negb _ && _); [|injection Hst1 as <-; apply scoringAdvances_refl].
    bind_inv Hst1 as r Hr. destruct r as [[mate' p1] log1].
    assert (Hmid : scoringAdvances cfg inRevise st
                     (mkScoring p1 (bestCompensatedScore st) (scoreLimit st) log1) /\
                   scoringCandidatePool p1 = scoringCandidatePool (pools st)).
    { destruct (_ || _).
      - destruct (scoreLocation _ _ _ _ _ _ _ _) as [[score matchProbability] genomeOffset].
        bind_inv Hr as mates' Hw. apply writeArray_Ok in Hw as (_ & _ & ->).
        injection Hr as <- <- <-.
        apply readArray_Ok in Hmate as [_ Hmate].
        split; [|reflexivity].
        apply scoringAdvances_pools; cbn; try reflexivity; [|lia].
        eapply keysKept_trans;
          [apply (keysKept_write_mate (pools st) (Cand.whichSetPair candidate)
                    (Z.to_nat mateIndex) mate
                    (Mate.set_scored score matchProbability genomeOffset
                       (wrap32 (compensatedScoreLimit - Cand.fewerEndScore candidate)) mate)
                    Hmate); reflexivity
          | repeat split].
      - injection Hr as <- <- <-. split; [|reflexivity].
        apply scoringAdvances_pools; try reflexivity. apply keysKept_refl. }
    destruct Hmid as [Hadv1 Hpool1].
    destruct (negb (Mate.score mate' =? NEG1)); [|injection Hst1 as <-; exact Hadv1].
    apply mergePair_advances in Hst1; [|simpl; rewrite Hpool1; exact Hcand].
    eapply scoringAdvances_trans; eassumption. }
  clear Hst1. destruct (mateIndex =? 0); [injection H as <-; exact H1|].
  bind_inv H as above Habove.
  destruct (negb (genomeLocationIsWithin _ _ (maxSpacing cfg)));
    [injection H as <-; exact H1|].
  apply IH in H. eapply scoringAdvances_trans; eassumption.
Qed.

Lemma scoreCandidate_advances (cfg : Config) (E : Externals) (inRevise : bool)
    (readLen_ : Z * Z) (more fewer k : Z) (candIdx : nat) (st st' : Scoring) :
  scoreCandidate cfg E inRevise readLen_ more fewer k candIdx st = Ok st' ->
  scoringAdvances cfg inRevise st st'.
Proof.
  unfold scoreCandidate. intros H.
  bind_inv H as candidate Hcand. apply readArray_Ok in Hcand as [_ Hcand].
  rewrite Nat2Z.id in Hcand.
  destruct (scoreLocation _ _ _ _ _ _ _ _)
    as [[fewerEndScore fewerEndMatchProbability] fewerEndGenomeLocationOffset].
  bind_inv H as pool' Hw. apply writeArray_Ok in Hw as (_ & _ & ->). rewrite Nat2Z.id in H.
  bind_inv H as st2 Hst2. bind_inv H as heads' Hheads.
  apply writeArray_Ok in Hheads as (_ & _ & ->). injection H as <-.
  set (st1 := mkScoring _ (bestCompensatedScore st) (scoreLimit st) (matesScored st)) in Hst2.
  assert (H1 : scoringAdvances cfg inRevise st st1).
  { apply scoringAdvances_pools; cbn; try reflexivity; [|lia].
    eapply keysKept_trans;
      [apply (keysKept_write_candidate (pools st) candIdx candidate
                (Cand.set_scored fewerEndScore fewerEndGenomeLocationOffset candidate) Hcand);
       reflexivity
      | repeat split]. }
  assert (H2 : scoringAdvances cfg inRevise st1 st2).
  { destruct (negb _); [|injection Hst2 as <-; apply scoringAdvances_refl].
    eapply scoreMates_advances. exact Hst2. }
  eapply scoringAdvances_trans; [exact H1|].
  eapply scoringAdvances_trans; [exact H2|].
  destruct st2 as [p2 b2 l2 log2]. cbn.
  split; [repeat split|]. split; [reflexivity|]. split; [cbn; lia|]. split; [reflexivity|].
  split; [cbn; apply length_insert|]. split; auto.
Qed.

Lemma scoreLoop_advances (cfg : Config) (E : Externals) (fuel : nat) (inRevise : bool)
    (readLen_ : Z * Z) (more fewer : Z) :
  forall (k : Z) (st st' : Scoring),
    scoreLoop cfg E fuel inRevise readLen_ more fewer k st = Ok st' ->
    scoringAdvances cfg inRevise st st'.
Proof.
  induction fuel as [|fuel IH]; intros k st st' H; [discriminate|].
  cbn [scoreLoop] in H.
  destruct (_ && _); [|injection H as <-; apply scoringAdvances_refl].
  bind_inv H as head Hhead. destruct head as [candIdx|]; [|eapply IH; exact H].
  bind_inv H as st1 Hst1. apply scoreCandidate_advances in Hst1. apply IH in H.
  eapply scoringAdvances_trans; eassumption.
Qed.

(** X15: whatever the arenas hold, a call of [align_phase_3_score] that
    returns leaves the best score as it was or strictly lower (as an
    [unsigned]), and then at most [maxK + clusterEDCompensation]; in revise
    mode it leaves it as it was.  It never moves a candidate or a mate, nor
    changes a candidate's set pair, first mate, list link or cluster; it only
    adds merge anchors; and it leaves [maxUsedBestPossibleScoreList] and the
    number of score lists alone. *)
Theorem score_pass_only_lowers_the_best_score
    (cfg : Config) (E : Externals) (fuel : nat) (readLen_ : Z * Z) (more fewer : Z)
    (p p' : Pools) (best best' : Z) (inRevise : bool) :
  align_phase_3_score cfg E fuel readLen_ more fewer p best inRevise = Ok (p', best') ->
  (inRevise = true -> best' = best) /\
  (best' = best \/
   (wrap32 best' < wrap32 best /\
    wrap32 best' <= wrap32 (maxK cfg + clusterEDCompensation cfg))) /\
  (candidateKey <$> scoringCandidatePool p') = (candidateKey <$> scoringCandidatePool p) /\
  (Mate.readWithMoreHitsGenomeLocation <$> fst (scoringMateCandidates p'))
  = (Mate.readWithMoreHitsGenomeLocation <$> fst (scoringMateCandidates p)) /\
  (Mate.readWithMoreHitsGenomeLocation <$> snd (scoringMateCandidates p'))
  = (Mate.readWithMoreHitsGenomeLocation <$> snd (scoringMateCandidates p)) /\
  (length (mergeAnchorPool p) <= length (mergeAnchorPool p'))%nat /\
  maxUsedBestPossibleScoreList p' = maxUsedBestPossibleScoreList p /\
  length (scoringCandidates p') = length (scoringCandidates p).
Proof.
  unfold align_phase_3_score, scorePass. intros H. bind_inv H as st Hst.
  injection H as <- <-.
  apply scoreLoop_advances in Hst as ((Hc & Hm0 & Hm1) & Ha & _ & Hmax & Hl & Hrev & Hb).
  cbn in *. split; [intros Hr; apply (Hrev Hr)|]. auto 10.
Qed.

Lemma score_pass_only_lowers_the_best_score_witness :
  exists p',
    align_phase_3_score sampleConfig (sampleExternals replacedPairScores) 4 (100, 100) 1 0
                        replacedPairPools 100 false = Ok (p', 3) /\
    (3 = 100 \/ (wrap32 3 < wrap32 100 /\ wrap32 3 <= wrap32 (5 + 3))) /\
    (length (mergeAnchorPool replacedPairPools) <= length (mergeAnchorPool p'))%nat.
Proof.
  eexists. split; [vm_compute; reflexivity|].
  match goal with
  | |- _ /\ (_ <= length (mergeAnchorPool ?x))%nat =>
    pose proof (score_pass_only_lowers_the_best_score sampleConfig
                  (sampleExternals replacedPairScores) 4 (100, 100) 1 0
                  replacedPairPools x 100 3 false eq_refl) as (_ & Hb & _ & _ & _ & Ha & _)
  end.
  split; [exact Hb | exact Ha].
Defined.

(** ** The scoring pass ends *)

Lemma bind_not_OutOfFuel {A B : Type} (m : Res A) (k : A -> Res B) :
  m <> OutOfFuel -> (forall a, m = Ok a -> k a <> OutOfFuel) -> bind m k <> OutOfFuel.
Proof. destruct m; simpl; intros Hm Hk; try discriminate; [apply Hk; reflexivity | contradiction]. Qed.

Lemma readArray_not_OutOfFuel {A : Type} (a : list A) (i : Z) : readArray a i <> OutOfFuel.
Proof. unfold readArray. destruct (i <? 0); [discriminate|]. destruct (a !! _); discriminate. Qed.

Lemma writeArray_not_OutOfFuel {A : Type} (a : list A) (i : Z) (x : A) :
  writeArray a i x <> OutOfFuel.
Proof. unfold writeArray. destruct (i <? 0); [discriminate|]. destruct (_ <? _)%nat; discriminate. Qed.

Lemma mergePair_not_OutOfFuel (cfg : Config) (E : Externals) (inRevise : bool) (candIdx : nat)
    (candidate : Cand.t) (mateIndex : Z) (mate : Mate.t) (astrayEDPenalty : Z)
    (fewerEndMatchProbability : float) (st : Scoring) :
  mergePair cfg E inRevise candIdx candidate mateIndex mate astrayEDPenalty
            fewerEndMatchProbability st <> OutOfFuel.
Proof.
  unfold mergePair. apply bind_not_OutOfFuel.
  - destruct (findMergeAnchor _ _ _).
    + apply bind_not_OutOfFuel; [apply writeArray_not_OutOfFuel|]. intros pool' _.
      apply bind_not_OutOfFuel; [apply readArray_not_OutOfFuel|]. intros anchor _.
      destruct (checkMerge _ _ _ _ _ _ _ _ _).
      apply bind_not_OutOfFuel; [apply writeArray_not_OutOfFuel|]. discriminate.
    + destruct (_ <=? _); [discriminate|].
      apply bind_not_OutOfFuel; [apply writeArray_not_OutOfFuel|]. discriminate.
  - intros [p' anchorUpdate] _. destruct (_ && _); discriminate.
Qed.

(** The loop over the mates steps down from [mateIndex] to 0 at most. *)
Lemma scoreMates_not_OutOfFuel (cfg : Config) (E : Externals) (fuel : nat) (inRevise : bool)
    (readLen_ : Z * Z) (more : Z) (candIdx : nat) (astrayEDPenalty compensatedScoreLimit : Z)
    (fewerEndMatchProbability : float) :
  forall (mateIndex : Z) (st : Scoring),
    (Z.to_nat mateIndex < fuel)%nat ->
    scoreMates cfg E fuel inRevise readLen_ more candIdx astrayEDPenalty
               compensatedScoreLimit fewerEndMatchProbability mateIndex st <> OutOfFuel.
Proof.
  induction fuel as [|fuel IH]; intros mateIndex st Hfuel; [lia|].
  cbn [scoreMates].
  apply bind_not_OutOfFuel; [apply readArray_not_OutOfFuel|]. intros candidate _.
  apply bind_not_OutOfFuel; [apply readArray_not_OutOfFuel|]. intros mate Hmate.
  apply readArray_Ok in Hmate as [Hpos _].
  apply bind_not_OutOfFuel.
  - destruct (_ && _); [|discriminate].
    apply bind_not_OutOfFuel.
    + destruct (_ || _); [|discriminate].
      destruct (scoreLocation _ _ _ _ _ _ _ _) as [[score matchProbability] genomeOffset].
      apply bind_not_OutOfFuel; [apply writeArray_not_OutOfFuel|]. discriminate.
    + intros [[mate' p1] log1] _. destruct (negb _); [|discriminate].
      apply mergePair_not_OutOfFuel.
  - intros st1 _. destruct (Z.eqb_spec mateIndex 0); [discriminate|].
    apply bind_not_OutOfFuel; [apply readArray_not_OutOfFuel|]. intros above _.
    destruct (negb _); [discriminate|]. apply IH. lia.
Qed.

Lemma scoreCandidate_not_OutOfFuel (cfg : Config) (E : Externals) (inRevise : bool)
    (readLen_ : Z * Z) (more fewer k : Z) (candIdx : nat) (st : Scoring) :
  scoreCandidate cfg E inRevise readLen_ more fewer k candIdx st <> OutOfFuel.
Proof.
  unfold scoreCandidate.
  apply bind_not_OutOfFuel; [apply readArray_not_OutOfFuel|]. intros candidate _.
  destruct (scoreLocation _ _ _ _ _ _ _ _) as [[score matchProbability] genomeOffset].
  apply bind_not_OutOfFuel; [apply writeArray_not_OutOfFuel|]. intros pool' _.
  apply bind_not_OutOfFuel.
  - destruct (negb _); [|discriminate]. apply scoreMates_not_OutOfFuel. lia.
  - intros st2 _. apply bind_not_OutOfFuel; [apply writeArray_not_OutOfFuel|]. discriminate.
Qed.

Lemma mergePair_heads (cfg : Config) (E : Externals) (inRevise : bool) (candIdx : nat)
    (candidate : Cand.t) (mateIndex : Z) (mate : Mate.t) (astrayEDPenalty : Z)
    (fewerEndMatchProbability : float) (st st' : Scoring) :
  mergePair cfg E inRevise candIdx candidate mateIndex mate astrayEDPenalty
            fewerEndMatchProbability st = Ok st' ->
  scoringCandidates (pools st') = scoringCandidates (pools st).
Proof.
  unfold mergePair. intros H. bind_inv H as r Hr. destruct r as [p' anchorUpdate].
  assert (Hp' : scoringCandidates p' = scoringCandidates (pools st)).
  { destruct (findMergeAnchor _ _ _).
    - bind_inv Hr as pool' Hw. bind_inv Hr as anchor Hanchor.
      destruct (checkMerge _ _ _ _ _ _ _ _ _). bind_inv Hr as anchors' Hw'.
      injection Hr as <- _. reflexivity.
    - destruct (_ <=? _); [discriminate|]. bind_inv Hr as pool' Hw.
      injection Hr as <- _. reflexivity. }
  destruct (_ && _); injection H as <-; exact Hp'.
Qed.

Lemma scoreMates_heads (cfg : Config) (E : Externals) (fuel : nat) (inRevise : bool)
    (readLen_ : Z * Z) (more : Z) (candIdx : nat) (astrayEDPenalty compensatedScoreLimit : Z)
    (fewerEndMatchProbability : float) :
  forall (mateIndex : Z) (st st' : Scoring),
    scoreMates cfg E fuel inRevise readLen_ more candIdx astrayEDPenalty
               compensatedScoreLimit fewerEndMatchProbability mateIndex st = Ok st' ->
    scoringCandidates (pools st') = scoringCandidates (pools st).
Proof.
  induction fuel as [|fuel IH]; intros mateIndex st st' H; [discriminate|].
  cbn [scoreMates] in H.
  bind_inv H as candidate Hcand. bind_inv H as mate Hmate. bind_inv H as st1 Hst1.
  assert (H1 : scoringCandidates (pools st1) = scoringCandidates (pools st)).
  { destruct (negb _ && _); [|injection Hst1 as <-; reflexivity].
    bind_inv Hst1 as r Hr. destruct r as [[mate' p1] log1].
    assert (Hp1 : scoringCandidates p1 = scoringCandidates (pools st)).
    { destruct (_ || _); [|injection Hr as _ <- _; reflexivity].
      destruct (scoreLocation _ _ _ _ _ _ _ _) as [[score matchProbability] genomeOffset].
      bind_inv Hr as mates' Hw. injection Hr as _ <- _. reflexivity. }
    destruct (negb (Mate.score mate' =? NEG1)); [|injection Hst1 as <-; exact Hp1].
    apply mergePair_heads in Hst1. simpl in Hst1. congruence. }
  clear Hst1. destruct (mateIndex =? 0); [injection H as <-; exact H1|].
  bind_inv H as above Habove.
  destruct (negb (genomeLocationIsWithin _ _ (maxSpacing cfg)));
    [injection H as <-; exact H1|].
  apply IH in H. congruence.
Qed.

(** Scoring the head of list [k] takes it off that list. *)
Lemma scoreCandidate_pops (cfg : Config) (E : Externals) (inRevise : bool)
    (readLen_ : Z * Z) (more fewer k : Z) (candIdx : nat) (st st' : Scoring) :
  scoreCandidate cfg E inRevise readLen_ more fewer k candIdx st = Ok st' ->
  exists candidate,
    scoringCandidatePool (pools st) !! candIdx = Some candidate /\
    scoringCandidates (pools st')
    = <[Z.to_nat k := Cand.scoreListNext candidate]> (scoringCandidates (pools st)).
Proof.
  unfold scoreCandidate. intros H.
  bind_inv H as candidate Hcand. apply readArray_Ok in Hcand as [_ Hcand].
  rewrite Nat2Z.id in Hcand.
  destruct (scoreLocation _ _ _ _ _ _ _ _)
    as [[fewerEndScore fewerEndMatchProbability] fewerEndGenomeLocationOffset].
  bind_inv H as pool' Hw. bind_inv H as st2 Hst2. bind_inv H as heads' Hheads.
  apply writeArray_Ok in Hheads as (_ & _ & ->). injection H as <-.
  exists candidate. split; [exact Hcand|]. cbn. f_equal.
  destruct (negb _); [|injection Hst2 as <-; reflexivity].
  apply scoreMates_heads in Hst2. exact Hst2.
Qed.

Lemma listFrom_kept (p p' : Pools) (head : option nat) (n : nat) :
  keysKept p p' -> listFrom (scoringCandidatePool p) head n ->
  listFrom (scoringCandidatePool p') head n.
Proof.
  intros Hk H. induction H as [|i c n Hc _ IH]; [constructor|].
  destruct (keysKept_cand _ _ _ _ Hk Hc) as (c' & Hc' & Hkey).
  apply (listFrom_cons _ i c'); [exact Hc'|].
  unfold candidateKey in Hkey. injection Hkey as _ _ _ Hnext _. rewrite Hnext. exact IH.
Qed.

Lemma list_sum_insert (lens : list nat) (k n n' : nat) :
  lens !! k = Some n -> (list_sum (<[k := n']> lens) + n = list_sum lens + n')%nat.
Proof.
  revert k. induction lens as [|x rest IH]; intros k Hk; [discriminate|].
  destruct k as [|k]; simpl in *.
  - injection Hk as ->. lia.
  - specialize (IH k Hk). lia.
Qed.

(** The [while] loop of [align_phase_3_score] takes a candidate off a list or
    moves to the next list at each turn. *)
Lemma scoreLoop_not_OutOfFuel (cfg : Config) (E : Externals) (inRevise : bool)
    (readLen_ : Z * Z) (more fewer : Z) :
  forall (fuel : nat) (k : Z) (st : Scoring) (lens : list nat),
    0 <= k -> listsFrom (pools st) lens ->
    Z.of_nat (length (scoringCandidates (pools st))) < 2 ^ 32 ->
    (list_sum lens + (length (scoringCandidates (pools st)) - Z.to_nat k) < fuel)%nat ->
    scoreLoop cfg E fuel inRevise readLen_ more fewer k st <> OutOfFuel.
Proof.
  induction fuel as [|fuel IH]; intros k st lens Hk Hlists Hsize Hfuel; [lia|].
  cbn [scoreLoop]. destruct (_ && _); [|discriminate].
  apply bind_not_OutOfFuel; [apply readArray_not_OutOfFuel|]. intros head Hhead.
  apply readArray_Ok in Hhead as [_ Hhead].
  pose proof (lookup_lt_Some _ _ _ Hhead) as Hlt.
  destruct head as [candIdx|].
  - apply bind_not_OutOfFuel; [apply scoreCandidate_not_OutOfFuel|]. intros st' Hst'.
    pose proof (scoreCandidate_advances _ _ _ _ _ _ _ _ _ _ Hst') as (Hkept & _ & _ & _ & Hlen & _).
    apply scoreCandidate_pops in Hst' as (candidate & Hcand & Hheads').
    destruct (Forall2_lookup_l _ _ _ _ _ Hlists Hhead) as (n & Hn & Hlist).
    inversion Hlist as [|i c n' Hc Hnext]; subst.
    assert (c = candidate) as -> by congruence.
    apply (IH k st' (<[Z.to_nat k := n']> lens)); [exact Hk | | lia |].
    + unfold listsFrom. rewrite Hheads'. apply Forall2_insert.
      * eapply Forall2_impl; [exact Hlists|]. intros h m Hhm. eapply listFrom_kept; eassumption.
      * eapply listFrom_kept; eassumption.
    + pose proof (list_sum_insert lens (Z.to_nat k) (S n') n' Hn). lia.
  - rewrite wrap32_small by lia.
    apply (IH (k + 1) st lens); [lia | exact Hlists | exact Hsize | lia].
Qed.

(** X16: when every score list ends, the loop of [align_phase_3_score] ends
    too: given more turns than there are candidates on the lists and lists
    together, the call returns, soft-exits or faults on an index, but does
    not run on. *)
Theorem score_pass_ends
    (cfg : Config) (E : Externals) (fuel : nat) (readLen_ : Z * Z) (more fewer : Z)
    (p : Pools) (best : Z) (inRevise : bool) (lens : list nat) :
  listsFrom p lens ->
  Z.of_nat (length (scoringCandidates p)) < 2 ^ 32 ->
  (list_sum lens + length (scoringCandidates p) < fuel)%nat ->
  align_phase_3_score cfg E fuel readLen_ more fewer p best inRevise <> OutOfFuel.
Proof.
  intros Hlists Hsize Hfuel. unfold align_phase_3_score, scorePass.
  apply bind_not_OutOfFuel; [|discriminate].
  apply (scoreLoop_not_OutOfFuel _ _ _ _ _ _ _ _ _ lens); [lia | exact Hlists | exact Hsize|].
  simpl. lia.
Qed.

Lemma score_pass_ends_witness :
  align_phase_3_score sampleConfig (sampleExternals sharedMateScores) 11 (100, 100) 1 0
                      sharedMatePools 100 false <> OutOfFuel.
Proof.
  apply (score_pass_ends sampleConfig (sampleExternals sharedMateScores) 11 (100, 100) 1 0
           sharedMatePools 100 false [0; 0; 0; 2; 0; 0; 0; 0]%nat).
  - repeat constructor;
      repeat (eapply listFrom_cons; [reflexivity|]); constructor.
  - vm_compute. reflexivity.
  - vm_compute. lia.
Defined.

(** ** Phase 1: the seed lookups *)

Lemma recordDirection_frame (cfg : Config) (readLen_ next dir : Z)
    (found : Z * list GenomeLocation) (l l' : SeedLoop) :
  recordDirection cfg readLen_ next dir found l = Ok l' ->
  lookupsDone l' = lookupsDone l /\ lookupLog l' = lookupLog l.
Proof.
  unfold recordDirection. destruct found as [nHits hits]. intros H.
  destruct (nHits <? maxBigHits cfg).
  - bind_inv H as h Hh. injection H as <-. auto.
  - injection H as <-. auto.
Qed.

(** The seed loop of one read: the count of lookups never passes [maxSeeds],
    and each lookup counted is one seed handed to the index, of at most
    [seedLen] bases. *)
Lemma seedLoop_lookups (cfg : Config) (E : Externals) (data : list ascii)
    (readLen_ maxSeeds nPossibleSeeds : Z) :
  forall (fuel : nat) (l l' : SeedLoop),
    0 <= lookupsDone l <= wrap32 maxSeeds ->
    seedLoop cfg E fuel data readLen_ maxSeeds nPossibleSeeds l = Ok l' ->
    lookupsDone l <= lookupsDone l' <= wrap32 maxSeeds /\
    exists new,
      lookupLog l' = lookupLog l ++ new /\
      Z.of_nat (length new) = lookupsDone l' - lookupsDone l /\
      Forall (fun text => (length text <= Z.to_nat (seedLen cfg))%nat) new.
Proof.
  induction fuel as [|fuel IH]; intros l l' Hl H; [discriminate|].
  cbn [seedLoop] in H.
  assert (Hstay : forall l0, lookupsDone l0 = lookupsDone l -> lookupLog l0 = lookupLog l ->
            seedLoop cfg E fuel data readLen_ maxSeeds nPossibleSeeds l0 = Ok l' ->
            lookupsDone l <= lookupsDone l' <= wrap32 maxSeeds /\
            exists new,
              lookupLog l' = lookupLog l ++ new /\
              Z.of_nat (length new) = lookupsDone l' - lookupsDone l /\
              Forall (fun text => (length text <= Z.to_nat (seedLen cfg))%nat) new).
  { intros l0 Hd Hlog H0. apply IH in H0; [|rewrite Hd; exact Hl].
    rewrite Hd, Hlog in H0. exact H0. }
  destruct (Z.ltb_spec (lookupsDone l) (wrap32 nPossibleSeeds)) as [Hposs|Hposs];
    [destruct (Z.ltb_spec (lookupsDone l) (wrap32 maxSeeds)) as [Hmax|Hmax]|];
    cbn [andb] in H;
    try (injection H as <-; split; [lia|]; exists []; rewrite app_nil_r;
         split; [reflexivity|]; split; [simpl; lia | constructor]).
  destruct (if nPossibleSeeds <=? nextSeedToTest l then _ else _) as [l1 break] eqn:Hwrap.
  assert (Hl1 : lookupsDone l1 = lookupsDone l /\ lookupLog l1 = lookupLog l).
  { destruct (nPossibleSeeds <=? nextSeedToTest l); [|injection Hwrap as <- _; auto].
    destruct (seedLen cfg <=? _); injection Hwrap as <- _; auto. }
  destruct Hl1 as [Hd1 Hlog1].
  destruct break.
  - injection H as <-. rewrite Hd1, Hlog1. split; [lia|]. exists []. rewrite app_nil_r.
    split; [reflexivity|]. split; [simpl; lia | constructor].
  - bind_inv H as next Hnext.
    destruct (nPossibleSeeds <=? next);
      [eapply Hstay; [| |exact H]; [exact Hd1 | exact Hlog1]|].
    bind_inv H as bits Hbits.
    destruct (negb _); [eapply Hstay; [| |exact H]; [exact Hd1 | exact Hlog1]|].
    destruct (lookupSeed E _) as [forwardHits rcHits].
    bind_inv H as l4 Hl4. bind_inv H as l5 Hl5.
    apply recordDirection_frame in Hl4 as [Hd4 Hlog4].
    apply recordDirection_frame in Hl5 as [Hd5 Hlog5].
    cbn in Hd4, Hlog4. rewrite Hd1 in Hd4. rewrite Hlog1 in Hlog4.
    pose proof (wrap32_range maxSeeds) as Hrange.
    rewrite wrap32_small in Hd4 by lia.
    apply IH in H; [|cbn; rewrite Hd5, Hd4; lia].
    cbn in H. rewrite Hd5, Hd4, Hlog5, Hlog4 in H.
    destruct H as (Hbound & new & Hnew & Hcount & Hall).
    split; [lia|]. eexists (_ :: new). rewrite Hnew, <- app_assoc. split; [reflexivity|].
    split; [simpl length; lia|].
    apply Forall_cons. split; [|exact Hall]. rewrite length_take. lia.
Qed.

Lemma lookupSeeds_lookups (cfg : Config) (E : Externals) (fuel : nat) (maxSeeds whichRead : Z)
    (a a' : Aligner) (popularSeedsSkipped popularSeedsSkipped' : Z * Z) :
  0 <= get2 (countOfHashTableLookups (seeding a)) whichRead <= wrap32 maxSeeds ->
  lookupSeeds cfg E fuel maxSeeds whichRead (a, popularSeedsSkipped)
  = Ok (a', popularSeedsSkipped') ->
  arenas a' = arenas a /\ readLen a' = readLen a /\
  reads (seeding a') = reads (seeding a) /\
  exists count new,
    countOfHashTableLookups (seeding a')
    = set2 (countOfHashTableLookups (seeding a)) whichRead count /\
    get2 (countOfHashTableLookups (seeding a)) whichRead <= count <= wrap32 maxSeeds /\
    seedLookups (seeding a') = seedLookups (seeding a) ++ new /\
    Z.of_nat (length new) = count - get2 (countOfHashTableLookups (seeding a)) whichRead /\
    Forall (fun text => (length text <= Z.to_nat (seedLen cfg))%nat) new.
Proof.
  unfold lookupSeeds. intros Hcount H. bind_inv H as bits Hbits. bind_inv H as l Hl.
  injection H as <- _.
  apply seedLoop_lookups in Hl; [|exact Hcount].
  cbn in Hl. destruct Hl as (Hbound & new & Hnew & Hlen & Hall).
  cbn. split; [reflexivity|]. split; [reflexivity|]. split; [reflexivity|].
  exists (lookupsDone l), new. auto.
Qed.

Lemma prepareRead_frame (cfg : Config) (whichRead : Z) (a a' : Aligner)
    (skipped skipped' : Z * Z) (countOfNs countOfNs' : Z) :
  prepareRead cfg whichRead (a, skipped, countOfNs) = Ok (a', skipped', countOfNs') ->
  arenas a' = arenas a /\
  seedLookups (seeding a') = seedLookups (seeding a) /\
  countOfHashTableLookups (seeding a')
  = set2 (countOfHashTableLookups (seeding a)) whichRead 0.
Proof.
  unfold prepareRead. intros H. destruct (maxReadSize cfg <? _); [discriminate|].
  injection H as <- _ _. auto.
Qed.

(** X17: a call of [align_phase_1] that does not exit early hands at most
    [maxSeeds] seeds of each read to the index: the two lookup counts are each
    at most [maxSeeds], and the seeds handed over are as many as the two counts
    together, each of at most [seedLen] bases. *)
Theorem align_phase_1_looks_up_at_most_maxSeeds
    (cfg : Config) (E : Externals) (fuel : nat) (a a' : Aligner) (read0 read1 : Read.t)
    (popularSeedsSkipped popularSeedsSkipped' : Z * Z) :
  align_phase_1 cfg E fuel a read0 read1 popularSeedsSkipped
  = Ok (false, a', popularSeedsSkipped') ->
  let maxSeeds := wrap32 (maxSeedsToUse cfg E read0 read1) in
  let counts := countOfHashTableLookups (seeding a') in
  0 <= fst counts <= maxSeeds /\ 0 <= snd counts <= maxSeeds /\
  exists new,
    seedLookups (seeding a') = seedLookups (seeding a) ++ new /\
    Z.of_nat (length new) = fst counts + snd counts /\
    Forall (fun text => (length text <= Z.to_nat (seedLen cfg))%nat) new.
Proof.
  unfold align_phase_1. fold (maxSeedsToUse cfg E read0 read1). intros H.
  bind_inv H as heads Hheads.
  destruct (_ || _); [discriminate|].
  bind_inv H as st0 Hst0. destruct st0 as [[a0 pss0] n0].
  bind_inv H as st1 Hst1. destruct st1 as [[a1 pss1] countOfNs].
  destruct (maxK cfg <? countOfNs); [discriminate|].
  bind_inv H as st3 Hst3. destruct st3 as [a3 pss3]. injection H as <- _.
  apply prepareRead_frame in Hst0 as (_ & Hlog0' & Hcount0').
  apply prepareRead_frame in Hst1 as (_ & Hlog1' & Hcount1').
  rewrite Hcount0' in Hcount1'. rewrite Hlog0' in Hlog1'.
  cbn [seeding set_seeding set_arenas seedLookups] in Hlog1'.
  unfold lookupAllSeeds in Hst3. bind_inv Hst3 as st2 Hst2. destruct st2 as [a2 pss2].
  pose proof (wrap32_range (maxSeedsToUse cfg E read0 read1)) as Hrange.
  assert (Hzero : countOfHashTableLookups (seeding (reverseRead 1 (reverseRead 0 a1))) = (0, 0)).
  { cbn [reverseRead seeding set_seeding countOfHashTableLookups]. rewrite Hcount1'.
    reflexivity. }
  assert (Hlog : seedLookups (seeding (reverseRead 1 (reverseRead 0 a1)))
                 = seedLookups (seeding a)) by exact Hlog1'.
  apply lookupSeeds_lookups in Hst2; [|rewrite Hzero; cbn; lia].
  destruct Hst2 as (_ & _ & _ & count0 & new0 & Hc0 & Hb0 & Hlog0 & Hlen0 & Hall0).
  rewrite Hzero in Hc0, Hb0, Hlen0. rewrite Hlog in Hlog0. cbn in Hc0, Hb0, Hlen0.
  apply lookupSeeds_lookups in Hst3; [|rewrite Hc0; cbn; lia].
  destruct Hst3 as (_ & _ & _ & count1 & new1 & Hc1 & Hb1 & Hlog1 & Hlen1 & Hall1).
  rewrite Hc0 in Hc1, Hb1, Hlen1. cbn in Hc1, Hb1, Hlen1. rewrite Hlog0 in Hlog1.
  cbn [chooseReadWithMoreHits seeding set_readWithMoreHits]. rewrite Hc1.
  cbn [fst snd]. split; [lia|]. split; [lia|].
  exists (new0 ++ new1). rewrite Hlog1, <- app_assoc. split; [reflexivity|].
  split; [rewrite length_app; lia|]. apply Forall_app. auto.
Qed.

Lemma align_phase_1_looks_up_at_most_maxSeeds_witness :
  match align_phase_1 sampleConfig (sampleExternals (fun _ _ => 0)) 12 freshAligner
                      plainRead plainRead (0, 0) with
  | Ok (false, a', _) =>
    0 <= fst (countOfHashTableLookups (seeding a')) <= 4 /\
    0 <= snd (countOfHashTableLookups (seeding a')) <= 4
  | _ => False
  end.
Proof.
  destruct (align_phase_1 _ _ _ _ _ _ _) as [[[early a'] skipped]| | |] eqn:Hrun;
    try (vm_compute in Hrun; discriminate).
  destruct early; [vm_compute in Hrun; discriminate|].
  pose proof (align_phase_1_looks_up_at_most_maxSeeds _ _ _ _ _ _ _ _ _ Hrun) as (H0 & H1 & _).
  split; [exact H0 | exact H1].
Defined.

(** ** Phase 1: the reset *)

Lemma clearScoreLists_spec (n : nat) (k : Z) (heads heads' : list (option nat)) :
  clearScoreLists n k heads = Ok heads' ->
  length heads' = length heads /\
  (forall i : nat, k <= Z.of_nat i < k + Z.of_nat n -> heads' !! i = Some None) /\
  (forall i : nat, Z.of_nat i < k \/ k + Z.of_nat n <= Z.of_nat i -> heads' !! i = heads !! i).
Proof.
  revert k heads. induction n as [|n IH]; simpl; intros k heads H.
  - injection H as <-. split; [reflexivity|]. split; [intros; lia | auto].
  - bind_inv H as heads1 Hw. apply writeArray_Ok in Hw as (Hk & Hlt & ->).
    destruct (IH _ _ H) as (Hlen & Hin & Hout). rewrite length_insert in Hlen.
    split; [exact Hlen|]. split.
    + intros i Hi. destruct (Z.eq_dec (Z.of_nat i) k) as [Heq|Hne].
      * rewrite Hout by lia. replace i with (Z.to_nat k) by lia.
        apply list_lookup_insert_eq. exact Hlt.
      * apply Hin. lia.
    + intros i Hi. rewrite Hout by lia. apply list_lookup_insert_ne. lia.
Qed.

Lemma lookupSeeds_frame (cfg : Config) (E : Externals) (fuel : nat) (maxSeeds whichRead : Z)
    (a a' : Aligner) (skipped skipped' : Z * Z) :
  lookupSeeds cfg E fuel maxSeeds whichRead (a, skipped) = Ok (a', skipped') ->
  arenas a' = arenas a.
Proof.
  unfold lookupSeeds. intros H. bind_inv H as bits Hbits. bind_inv H as l Hl.
  injection H as <- _. reflexivity.
Qed.

(** X18: every call of [align_phase_1] that returns, early or not, leaves the
    three pools empty and the score lists 0 to [maxK + extraSearchDepth]
    empty, and touches neither the other score lists nor
    [maxUsedBestPossibleScoreList]; when it does not exit early,
    [readWithMoreHits] is 0 or 1, read 0 only if it has strictly more hits in
    total, and [readWithFewerHits] is the other read. *)
Theorem align_phase_1_resets_the_arenas
    (cfg : Config) (E : Externals) (fuel : nat) (a a' : Aligner) (read0 read1 : Read.t)
    (popularSeedsSkipped popularSeedsSkipped' : Z * Z) (early : bool) :
  align_phase_1 cfg E fuel a read0 read1 popularSeedsSkipped
  = Ok (early, a', popularSeedsSkipped') ->
  let total (r : Z) :=
    fst (get2 (totalHashTableHits (seeding a')) r)
    + snd (get2 (totalHashTableHits (seeding a')) r) in
  scoringCandidatePool (arenas a') = [] /\
  scoringMateCandidates (arenas a') = ([], []) /\
  mergeAnchorPool (arenas a') = [] /\
  length (scoringCandidates (arenas a')) = length (scoringCandidates (arenas a)) /\
  (forall k : nat, Z.of_nat k <= wrap32 (maxK cfg + extraSearchDepth cfg) ->
     scoringCandidates (arenas a') !! k = Some None) /\
  (forall k : nat, wrap32 (maxK cfg + extraSearchDepth cfg) < Z.of_nat k ->
     scoringCandidates (arenas a') !! k = scoringCandidates (arenas a) !! k) /\
  maxUsedBestPossibleScoreList (arenas a') = maxUsedBestPossibleScoreList (arenas a) /\
  (early = false ->
   readWithMoreHits a' = (if total 1 <? total 0 then 0 else 1) /\
   readWithFewerHits a' = 1 - readWithMoreHits a').
Proof.
  unfold align_phase_1. intros H. bind_inv H as heads Hheads.
  pose proof (wrap32_range (maxK cfg + extraSearchDepth cfg)) as Hrange.
  apply clearScoreLists_spec in Hheads as (Hlen & Hin & Hout).
  set (p := mkPools [] ([], []) [] heads _ _) in H.
  assert (Hp : forall x : Aligner, arenas x = p -> forall b : bool,
             (b = false ->
              readWithMoreHits x
              = (if fst (get2 (totalHashTableHits (seeding x)) 1)
                    + snd (get2 (totalHashTableHits (seeding x)) 1)
                    <? fst (get2 (totalHashTableHits (seeding x)) 0)
                       + snd (get2 (totalHashTableHits (seeding x)) 0) then 0 else 1) /\
              readWithFewerHits x = 1 - readWithMoreHits x) ->
             scoringCandidatePool (arenas x) = [] /\
             scoringMateCandidates (arenas x) = ([], []) /\
             mergeAnchorPool (arenas x) = [] /\
             length (scoringCandidates (arenas x)) = length (scoringCandidates (arenas a)) /\
             (forall k : nat, Z.of_nat k <= wrap32 (maxK cfg + extraSearchDepth cfg) ->
                scoringCandidates (arenas x) !! k = Some None) /\
             (forall k : nat, wrap32 (maxK cfg + extraSearchDepth cfg) < Z.of_nat k ->
                scoringCandidates (arenas x) !! k = scoringCandidates (arenas a) !! k) /\
             maxUsedBestPossibleScoreList (arenas x) = maxUsedBestPossibleScoreList (arenas a) /\
             (b = false ->
              readWithMoreHits x
              = (if fst (get2 (totalHashTableHits (seeding x)) 1)
                    + snd (get2 (totalHashTableHits (seeding x)) 1)
                    <? fst (get2 (totalHashTableHits (seeding x)) 0)
                       + snd (get2 (totalHashTableHits (seeding x)) 0) then 0 else 1) /\
              readWithFewerHits x = 1 - readWithMoreHits x)).
  { intros x -> b Hb. unfold p. cbn. do 3 (split; [reflexivity|]). split; [exact Hlen|].
    split; [intros k Hk; apply Hin; lia|]. split; [intros k Hk; apply Hout; lia|].
    split; [reflexivity | exact Hb]. }
  destruct (_ || _).
  - injection H as <- <- _. apply Hp; [reflexivity | discriminate].
  - bind_inv H as st0 Hst0. destruct st0 as [[a0 pss0] n0].
    bind_inv H as st1 Hst1. destruct st1 as [[a1 pss1] countOfNs].
    apply prepareRead_frame in Hst0 as (Harenas0 & _).
    apply prepareRead_frame in Hst1 as (Harenas1 & _).
    rewrite Harenas0 in Harenas1. cbn [arenas set_seeding set_arenas] in Harenas1.
    destruct (maxK cfg <? countOfNs).
    + injection H as <- <- _. apply Hp; [exact Harenas1 | discriminate].
    + bind_inv H as st3 Hst3. destruct st3 as [a3 pss3]. injection H as <- <- _.
      unfold lookupAllSeeds in Hst3. bind_inv Hst3 as st2 Hst2. destruct st2 as [a2 pss2].
      apply lookupSeeds_frame in Hst2. apply lookupSeeds_frame in Hst3.
      apply Hp.
      * cbn [chooseReadWithMoreHits arenas set_readWithMoreHits].
        rewrite Hst3, Hst2. exact Harenas1.
      * intros _. split; reflexivity.
Qed.

Lemma align_phase_1_resets_the_arenas_witness :
  match align_phase_1 sampleConfig (sampleExternals (fun _ _ => 0)) 12 freshAligner
                      plainRead plainRead (0, 0) with
  | Ok (_, a', _) =>
    scoringCandidatePool (arenas a') = [] /\
    scoringCandidates (arenas a') !! 7%nat = Some None /\ readWithMoreHits a' = 1
  | _ => False
  end.
Proof.
  destruct (align_phase_1 _ _ _ _ _ _ _) as [[[early a'] skipped]| | |] eqn:Hrun;
    try (vm_compute in Hrun; discriminate).
  pose proof (align_phase_1_resets_the_arenas _ _ _ _ _ _ _ _ _ _ Hrun)
    as (Hpool & _ & _ & _ & Hheads & _ & _ & Hmore).
  split; [exact Hpool|]. split; [apply Hheads; vm_compute; discriminate|].
  destruct early; [vm_compute in Hrun; discriminate|].
  destruct (Hmore eq_refl) as [-> _].
  vm_compute in Hrun. injection Hrun as <- _. reflexivity.
Defined.

(** ** Phase 4 *)

Lemma insertByKey_Permutation (key : Result.t -> Z) (r : Result.t) (l : list Result.t) :
  insertByKey key r l ≡ₚ r :: l.
Proof.
  induction l as [|x l IH]; [reflexivity|]. simpl. destruct (key r <=? key x); [reflexivity|].
  rewrite IH. apply Permutation_swap.
Qed.

Lemma sortByKey_Permutation (key : Result.t -> Z) (l : list Result.t) :
  sortByKey key l ≡ₚ l.
Proof.
  induction l as [|x l IH]; [reflexivity|]. simpl.
  rewrite insertByKey_Permutation. rewrite IH. reflexivity.
Qed.

Lemma firstN_take {A : Type} (P : A -> Prop) (n : nat) (l : list A) :
  firstN P n l <-> Forall P (take n l).
Proof.
  rewrite Forall_lookup. split.
  - intros H j y Hj. apply lookup_take_Some in Hj as [Hy Hlt]. exact (H j y Hlt Hy).
  - intros H j y Hlt Hy. apply (H j). apply lookup_take_Some. auto.
Qed.

Lemma qsortResults_firstN (P : Result.t -> Prop) (sort : list Result.t -> list Result.t)
    (n : Z) (m : nat) (l : list Result.t) :
  (forall k, sort k ≡ₚ k) -> (m <= Z.to_nat n)%nat ->
  firstN P (Z.to_nat n) l -> firstN P m (qsortResults sort n l).
Proof.
  intros Hperm Hm HP j y Hj Hy. unfold qsortResults in Hy.
  apply lookup_app_Some in Hy as [Hy|[Hlen Hy]].
  - apply list_elem_of_lookup_2 in Hy. rewrite Hperm in Hy.
    apply list_elem_of_lookup_1 in Hy as [i Hi].
    apply lookup_take_Some in Hi as [Hi Hlt]. exact (HP i y Hlt Hi).
  - rewrite Hperm, length_take in Hlen. rewrite lookup_drop in Hy.
    apply lookup_lt_Some in Hy. lia.
Qed.

Lemma adjustSecondaryResults_spec (cfg : Config) (X : Finishing)
    (inputReads : Read.t * Read.t) (count : nat) :
  forall (i best : Z) (l : list Result.t) (best' : Z) (l' : list Result.t),
  adjustSecondaryResults cfg X inputReads count i best l = Ok (best', l') ->
  0 <= i ->
  best' <= best /\
  (forall j, (j < Z.to_nat i)%nat -> l' !! j = l !! j) /\
  (forall j y, (Z.to_nat i <= j < Z.to_nat i + count)%nat -> l' !! j = Some y ->
               ignoreAlignmentAdjustmentsForOm X = false ->
               bothFound y = true -> best' <= Result.compensatedScore y).
Proof.
  induction count as [|count IH]; intros i best l best' l' H Hi; simpl in H.
  - injection H as <- <-. split; [lia|]. split; [reflexivity|]. intros; lia.
  - bind_inv H as r Hr.
    set (adjusted := AdjustAlignments X inputReads (recordScorePriorToClipping r)) in *.
    assert (Hstep : forall (b : Z) (w : Result.t) (l1 : list Result.t),
               writeArray l i w = Ok l1 ->
               adjustSecondaryResults cfg X inputReads count (i + 1) b l1 = Ok (best', l') ->
               b <= best ->
               (ignoreAlignmentAdjustmentsForOm X = false -> bothFound w = true ->
                b <= Result.compensatedScore w) ->
               best' <= best /\
               (forall j, (j < Z.to_nat i)%nat -> l' !! j = l !! j) /\
               (forall j y, (Z.to_nat i <= j < Z.to_nat i + S count)%nat ->
                            l' !! j = Some y ->
                            ignoreAlignmentAdjustmentsForOm X = false ->
                            bothFound y = true -> best' <= Result.compensatedScore y)).
    { intros b w l1 Hw Hrec Hb Hbw.
      apply writeArray_Ok in Hw as (_ & Hlt & ->).
      destruct (IH _ _ _ _ _ Hrec ltac:(lia)) as (Hle & Hsame & Hall).
      replace (Z.to_nat (i + 1)) with (S (Z.to_nat i)) in * by lia.
      split; [lia|]. split.
      - intros j Hj. rewrite Hsame by lia. apply list_lookup_insert_ne. lia.
      - intros j y Hj Hy Hign Hboth.
        destruct (decide (j = Z.to_nat i)) as [->|Hne].
        + rewrite Hsame in Hy by lia. rewrite list_lookup_insert_eq in Hy by exact Hlt.
          injection Hy as <-. specialize (Hbw Hign Hboth). lia.
        + apply (Hall j y); [lia | exact Hy | exact Hign | exact Hboth]. }
    destruct (bothFound adjusted && negb (ignoreAlignmentAdjustmentsForOm X)) eqn:Hcase.
    + bind_inv H as l1 Hl1. eapply Hstep; [exact Hl1 | exact H | lia |].
      intros _ _. cbn [Result.compensatedScore setCompensatedScore]. lia.
    + bind_inv H as l1 Hl1. eapply Hstep; [exact Hl1 | exact H | lia |].
      intros Hign Hboth. rewrite Hign, Hboth in Hcase. discriminate.
Qed.

Lemma cleanUpLoop_spec (P : Result.t -> Prop) (best maxED : Z) (fuel : nat) :
  forall (i n : Z) (l : list Result.t) (n' : Z) (l' : list Result.t),
  cleanUpLoop fuel best maxED i n l = Ok (n', l') ->
  0 <= i ->
  firstN P (Z.to_nat n) l ->
  firstN (fun r => tooFarOrNotFound best maxED r = false) (Z.to_nat i) l ->
  n' <= n /\ (i <= n -> i <= n') /\
  firstN P (Z.to_nat n') l' /\
  firstN (fun r => tooFarOrNotFound best maxED r = false) (Z.to_nat n') l'.
Proof.
  induction fuel as [|fuel IH]; intros i n l n' l' H Hi HP HQ; simpl in H; [discriminate|].
  destruct (Z.ltb_spec i n) as [Hlt|Hge].
  - bind_inv H as r Hr. apply readArray_Ok in Hr as [_ Hr].
    destruct (tooFarOrNotFound best maxED r) eqn:Hfar.
    + bind_inv H as last Hlast. bind_inv H as l1 Hl1.
      apply readArray_Ok in Hlast as [_ Hlast].
      apply writeArray_Ok in Hl1 as (_ & Hlen & ->).
      destruct (IH _ _ _ _ _ H Hi) as (Hle & Hge & HP' & HQ').
      * intros j y Hj Hy. destruct (decide (j = Z.to_nat i)) as [->|Hne].
        -- rewrite list_lookup_insert_eq in Hy by exact Hlen. injection Hy as <-.
           apply (HP (Z.to_nat (n - 1))); [lia | exact Hlast].
        -- rewrite list_lookup_insert_ne in Hy by lia. apply (HP j); [lia | exact Hy].
      * intros j y Hj Hy. rewrite list_lookup_insert_ne in Hy by lia.
        apply (HQ j); [lia | exact Hy].
      * split; [lia|]. split; [lia|]. split; assumption.
    + destruct (IH _ _ _ _ _ H ltac:(lia) HP) as (Hle & Hge & HP' & HQ').
      * intros j y Hj Hy. destruct (decide (j = Z.to_nat i)) as [->|Hne].
        -- rewrite Hr in Hy. injection Hy as <-. exact Hfar.
        -- apply (HQ j); [lia | exact Hy].
      * split; [lia|]. split; [lia|]. split; assumption.
  - injection H as <- <-. split; [lia|]. split; [lia|]. split; [exact HP|].
    intros j y Hj Hy. apply (HQ j); [lia | exact Hy].
Qed.

Lemma countHitsPerContig_found (X : Finishing) (epoch : Z) (count : nat) (i : Z)
    (l : list Result.t) (counts counts' : list (Z * Z)) :
  countHitsPerContig X epoch count i l counts = Ok (true, counts') -> (0 < count)%nat.
Proof. destruct count; [discriminate | lia]. Qed.

Lemma keepHitsPerContig_spec (P : Result.t -> Prop) (X : Finishing) (primary : Z)
    (count : nat) :
  forall (source current currentCount dest : Z) (l : list Result.t)
         (dest' : Z) (l' : list Result.t),
  keepHitsPerContig X primary count source current currentCount dest l = Ok (dest', l') ->
  0 <= dest <= source ->
  firstN P (Z.to_nat source + count) l ->
  dest <= dest' <= dest + Z.of_nat count /\
  firstN P (Z.to_nat source + count) l'.
Proof.
  induction count as [|count IH]; intros source current currentCount dest l dest' l' H Hd HP;
    simpl in H.
  - injection H as <- <-. split; [lia | exact HP].
  - bind_inv H as r Hr. apply readArray_Ok in Hr as [_ Hr].
    replace (Z.to_nat source + S count)%nat with (Z.to_nat (source + 1) + count)%nat in *
      by lia.
    destruct (_ <=? _).
    + bind_inv H as l1 Hl1. apply writeArray_Ok in Hl1 as (_ & Hlen & ->).
      destruct (IH _ _ _ _ _ _ _ H ltac:(lia)) as (Hle & HP').
      * intros j y Hj Hy. destruct (decide (j = Z.to_nat dest)) as [->|Hne].
        -- rewrite list_lookup_insert_eq in Hy by exact Hlen. injection Hy as <-.
           apply (HP (Z.to_nat source)); [lia | exact Hr].
        -- rewrite list_lookup_insert_ne in Hy by lia. apply (HP j); [lia | exact Hy].
      * split; [lia | exact HP'].
    + destruct (IH _ _ _ _ _ _ _ H ltac:(lia) HP) as (Hle & HP').
      split; [lia | exact HP'].
Qed.

(** What the first three steps of phase 4 (best result, adjustment, clean-up)
    and its per-contig limit leave in the buffer. *)
Lemma align_phase_4_steps (cfg : Config) (X : Finishing) (counts : ContigCounts)
    (read0 read1 : Read.t) (maxED maxReturn : Z) (pss : Z * Z) (best : Z) (prob : float)
    (n : Z) (l : list Result.t) (bestResult : Result.t) (out : Finished) :
  align_phase_4 cfg X counts read0 read1 maxED maxReturn pss best prob n l bestResult
    = Ok out ->
  finNSecondaryResults out <= maxReturn /\ finNSecondaryResults out <= n /\
  ((forall k, compareByContigAndScore_qsort X k ≡ₚ k) ->
   (forall k, compareByScore_qsort X k ≡ₚ k) ->
   firstN (fun r => tooFarOrNotFound (finBestCompensatedScore out) maxED r = false /\
                    (ignoreAlignmentAdjustmentsForOm X = false ->
                     finBestCompensatedScore out <= Result.compensatedScore r))
          (Z.to_nat (finNSecondaryResults out)) (finSecondaryResults out)).
Proof.
  intros H. unfold align_phase_4 in H.
  bind_inv H as adjusted Hadj. destruct adjusted as [[best1 l1] bestResult1].
  bind_inv H as cleaned Hclean. destruct cleaned as [n1 l2].
  bind_inv H as limited Hlim. destruct limited as [[n2 l3] counts'].
  set (Q := fun (b : Z) (r : Result.t) =>
              ignoreAlignmentAdjustmentsForOm X = false -> bothFound r = true ->
              b <= Result.compensatedScore r).
  assert (HQ1 : firstN (Q best1) (Z.to_nat n) l1).
  { destruct (ignoreAlignmentAdjustmentsForOm X) eqn:Hign; cbn [negb] in Hadj.
    - intros j y _ _ Hf. discriminate.
    - destruct (bothFound _ && true); bind_inv Hadj as res Hres; destruct res as [b l0];
        injection Hadj as <- <- _;
        apply adjustSecondaryResults_spec in Hres as (_ & _ & Hall); try lia;
        intros j y Hj Hy Hf Hboth; apply (Hall j y); auto; lia. }
  apply (cleanUpLoop_spec (Q best1)) in Hclean as (Hn1 & _ & HQ2 & HF2);
    [|lia|exact HQ1|intros j y Hj; lia].
  set (R := fun r => tooFarOrNotFound best1 maxED r = false /\
                     (ignoreAlignmentAdjustmentsForOm X = false ->
                      best1 <= Result.compensatedScore r)).
  assert (HR2 : firstN R (Z.to_nat n1) l2).
  { intros j y Hj Hy. pose proof (HF2 j y Hj Hy) as Hf. split; [exact Hf|].
    intros Hign. apply (HQ2 j y Hj Hy Hign).
    unfold tooFarOrNotFound in Hf. unfold bothFound.
    destruct (isNotFound (fst (Result.status y))), (isNotFound (snd (Result.status y)));
      rewrite ?orb_true_r in Hf; try discriminate. reflexivity. }
  assert (Hlimited : n2 <= n1 /\
            ((forall k, compareByContigAndScore_qsort X k ≡ₚ k) ->
             firstN R (Z.to_nat n2) l3)).
  { destruct ((0 <? maxSecondaryAlignmentsPerContig X) && _).
    - bind_inv Hlim as counts1 Hc1. bind_inv Hlim as counted Hcounted.
      destruct counted as [[|] counts2].
      + bind_inv Hlim as kept Hkept. destruct kept as [dest l4].
        injection Hlim as <- <- _. cbn [fst snd].
        apply countHitsPerContig_found in Hcounted.
        split.
        * apply (keepHitsPerContig_spec (fun _ => True)) in Hkept as (Hle & _);
            [lia | lia | intros j y _ _; exact I].
        * intros Hperm.
          apply (keepHitsPerContig_spec R) in Hkept as (Hle & HR4); [|lia|].
          -- intros j y Hj Hy. apply (HR4 j y); [lia | exact Hy].
          -- cbn [Z.to_nat Nat.add]. apply qsortResults_firstN; [exact Hperm | lia | exact HR2].
      + injection Hlim as <- <- _. split; [lia | intros _; exact HR2].
    - injection Hlim as <- <- _. split; [lia | intros _; exact HR2]. }
  destruct Hlimited as [Hn2 HR3].
  destruct (Z.ltb_spec maxReturn n2) as [Hmany|Hfew]; injection H as <-;
    cbn [finNSecondaryResults finSecondaryResults finBestCompensatedScore].
  - split; [lia|]. split; [lia|]. intros Hperm1 Hperm2.
    apply qsortResults_firstN; [exact Hperm2 | lia | exact (HR3 Hperm1)].
  - split; [lia|]. split; [lia|]. intros Hperm1 _. exact (HR3 Hperm1).
Qed.

(** X19. Phase 4 never reports more secondary results than
    [maxSecondaryResultsToReturn], and never more than it was given. *)
Theorem align_phase_4_returns_at_most_maxSecondaryResultsToReturn (cfg : Config)
    (X : Finishing) (counts : ContigCounts) (read0 read1 : Read.t) (maxED maxReturn : Z)
    (pss : Z * Z) (best : Z) (prob : float) (n : Z) (l : list Result.t)
    (bestResult : Result.t) (out : Finished) :
  align_phase_4 cfg X counts read0 read1 maxED maxReturn pss best prob n l bestResult
    = Ok out ->
  finNSecondaryResults out <= maxReturn /\ finNSecondaryResults out <= n.
Proof.
  intros H. apply align_phase_4_steps in H as (H1 & H2 & _). split; assumption.
Qed.

Lemma align_phase_4_returns_at_most_maxSecondaryResultsToReturn_witness :
  match align_phase_4 sampleConfig sampleFinishing freshCounts plainRead plainRead 3 2
                      (0, 0) 2 1%float 5 fiveResults (foundResult 2100 2) with
  | Ok out => finNSecondaryResults out = 2
  | _ => False
  end.
Proof.
  destruct (align_phase_4 _ _ _ _ _ _ _ _ _ _ _ _ _) as [out| | |] eqn:Hrun;
    try (vm_compute in Hrun; discriminate).
  pose proof (align_phase_4_returns_at_most_maxSecondaryResultsToReturn
                _ _ _ _ _ _ _ _ _ _ _ _ _ _ Hrun) as [Hle _].
  vm_compute in Hrun. injection Hrun as <-. reflexivity.
Defined.

(** X20. Every secondary result that phase 4 reports has both reads found and a
    compensated score of at most the final best compensated score plus
    [maxEditDistanceForSecondaryResults], provided the two sorts only permute;
    when alignments are adjusted, none of them scores below the final best
    compensated score. *)
Theorem align_phase_4_keeps_only_qualifying_results (cfg : Config)
    (X : Finishing) (counts : ContigCounts) (read0 read1 : Read.t) (maxED maxReturn : Z)
    (pss : Z * Z) (best : Z) (prob : float) (n : Z) (l : list Result.t)
    (bestResult : Result.t) (out : Finished) :
  (forall k, compareByContigAndScore_qsort X k ≡ₚ k) ->
  (forall k, compareByScore_qsort X k ≡ₚ k) ->
  align_phase_4 cfg X counts read0 read1 maxED maxReturn pss best prob n l bestResult
    = Ok out ->
  allKeptQualify (finBestCompensatedScore out) maxED (finNSecondaryResults out)
                 (finSecondaryResults out) /\
  (ignoreAlignmentAdjustmentsForOm X = false ->
   Forall (fun r => finBestCompensatedScore out <= Result.compensatedScore r)
          (take (Z.to_nat (finNSecondaryResults out)) (finSecondaryResults out))).
Proof.
  intros Hperm1 Hperm2 H. apply align_phase_4_steps in H as (_ & _ & H).
  specialize (H Hperm1 Hperm2). split.
  - apply firstN_take. intros j y Hj Hy. apply (H j y Hj Hy).
  - intros Hign. apply firstN_take. intros j y Hj Hy. apply (H j y Hj Hy). exact Hign.
Qed.

Lemma align_phase_4_keeps_only_qualifying_results_witness :
  match align_phase_4 sampleConfig adjustingFinishing freshCounts plainRead plainRead 1 10
                      (0, 0) 2 1%float 5 fiveResults (foundResult 2100 2) with
  | Ok out =>
    allKeptQualify 2 1 (finNSecondaryResults out) (finSecondaryResults out) /\
    finNSecondaryResults out = 3
  | _ => False
  end.
Proof.
  destruct (align_phase_4 _ _ _ _ _ _ _ _ _ _ _ _ _) as [out| | |] eqn:Hrun;
    try (vm_compute in Hrun; discriminate).
  pose proof (align_phase_4_keeps_only_qualifying_results
                _ adjustingFinishing _ _ _ _ _ _ _ _ _ _ _ _
                (fun k => sortByKey_Permutation _ k) (fun k => sortByKey_Permutation _ k)
                Hrun) as [Hall _].
  vm_compute in Hrun. injection Hrun as <-. split; [exact Hall | reflexivity].
Defined.

(** *** The per-contig limit *)

Lemma hitsOn_nonneg (X : Finishing) (c : Z) (l : list Result.t) : 0 <= hitsOn X c l.
Proof. unfold hitsOn. lia. Qed.

Lemma hitsOn_app (X : Finishing) (c : Z) (l k : list Result.t) :
  hitsOn X c (l ++ k) = hitsOn X c l + hitsOn X c k.
Proof. unfold hitsOn. rewrite List.filter_app, length_app. lia. Qed.

Lemma hitsOn_take_S (X : Finishing) (c : Z) (l : list Result.t) (i : nat) (r : Result.t) :
  l !! i = Some r ->
  hitsOn X c (take (S i) l) = hitsOn X c (take i l) + (if contigOf X r =? c then 1 else 0).
Proof.
  intros H. rewrite (take_S_r _ _ _ H), hitsOn_app. f_equal.
  unfold hitsOn. simpl. destruct (contigOf X r =? c); reflexivity.
Qed.

Lemma hitsOn_take_le (X : Finishing) (c : Z) (l : list Result.t) (m : nat) :
  hitsOn X c (take m l) <= hitsOn X c l.
Proof.
  rewrite <- (take_drop m l) at 2. rewrite hitsOn_app.
  pose proof (hitsOn_nonneg X c (drop m l)). lia.
Qed.

Lemma hitsOn_Permutation (X : Finishing) (c : Z) (l k : list Result.t) :
  l ≡ₚ k -> hitsOn X c l = hitsOn X c k.
Proof.
  unfold hitsOn. intros H. f_equal.
  induction H as [|x l k _ IH|x y l|l k m _ IH1 _ IH2]; simpl.
  - reflexivity.
  - destruct (contigOf X x =? c); simpl; congruence.
  - destruct (contigOf X x =? c), (contigOf X y =? c); reflexivity.
  - congruence.
Qed.

Lemma hitsOn_zero (X : Finishing) (c : Z) (l : list Result.t) :
  (forall i x, l !! i = Some x -> contigOf X x <> c) -> hitsOn X c l = 0.
Proof.
  unfold hitsOn. induction l as [|x l IH]; intros H; [reflexivity|]. simpl.
  destruct (Z.eqb_spec (contigOf X x) c) as [Heq|_].
  - exfalso. exact (H 0%nat x eq_refl Heq).
  - apply IH. intros i y Hy. exact (H (S i) y Hy).
Qed.

Lemma hitsOn_qsortResults (X : Finishing) (c : Z) (sort : list Result.t -> list Result.t)
    (n : Z) (m : nat) (l : list Result.t) :
  (forall k, sort k ≡ₚ k) -> (m <= Z.to_nat n)%nat ->
  hitsOn X c (take m (qsortResults sort n l)) <= hitsOn X c (take (Z.to_nat n) l).
Proof.
  intros Hperm Hm. unfold qsortResults. rewrite take_app, hitsOn_app.
  pose proof (hitsOn_take_le X c (sort (take (Z.to_nat n) l)) m) as H1.
  rewrite (hitsOn_Permutation X c _ _ (Hperm _)) in H1.
  assert (take (m - length (sort (take (Z.to_nat n) l)))
               (drop (Z.to_nat n) l) = []) as ->.
  { rewrite (Permutation_length (Hperm _)), length_take.
    destruct (le_lt_dec m (Z.to_nat n `min` length l)) as [Hle|Hgt].
    - replace (m - _)%nat with 0%nat by lia. reflexivity.
    - rewrite drop_ge by lia. apply take_nil. }
  change (hitsOn X c []) with 0. lia.
Qed.

Lemma countedOn_insert (epoch : Z) (counts : list (Z * Z)) (c0 hits c : Z) :
  0 <= c0 -> (Z.to_nat c0 < length counts)%nat ->
  countedOn epoch (<[Z.to_nat c0 := (hits, epoch)]> counts) c
  = if c =? c0 then hits else countedOn epoch counts c.
Proof.
  intros H0 Hlen. unfold countedOn, readArray.
  destruct (Z.eqb_spec c c0) as [->|Hne].
  - destruct (Z.ltb_spec c0 0); [lia|].
    rewrite list_lookup_insert_eq by exact Hlen. cbn [fst snd]. rewrite Z.eqb_refl.
    reflexivity.
  - destruct (Z.ltb_spec c 0); [reflexivity|].
    rewrite list_lookup_insert_ne by lia. reflexivity.
Qed.

Lemma countHitsPerContig_spec (X : Finishing) (primary epoch : Z) (count : nat) :
  forall (i : Z) (l : list Result.t) (counts : list (Z * Z)) (any : bool)
         (counts' : list (Z * Z)),
  countHitsPerContig X epoch count i l counts = Ok (any, counts') ->
  0 <= i -> maxSecondaryAlignmentsPerContig X < 2 ^ 31 - 1 ->
  (forall c, countedOn epoch counts c
             = hitsOn X c (take (Z.to_nat i) l) + (if c =? primary then 1 else 0)) ->
  (forall c, countedOn epoch counts c <= maxSecondaryAlignmentsPerContig X) ->
  Forall (fun entry => snd entry <= epoch) counts ->
  Forall (fun entry => snd entry <= epoch) counts' /\
  (any = false ->
   forall c, hitsOn X c (take (Z.to_nat i + count) l) + (if c =? primary then 1 else 0)
             <= maxSecondaryAlignmentsPerContig X).
Proof.
  induction count as [|count IH]; intros i l counts any counts' H Hi Hcap Hinv Hle Hbehind;
    simpl in H.
  - injection H as <- <-. split; [exact Hbehind|]. intros _ c.
    rewrite Nat.add_0_r, <- Hinv. apply Hle.
  - bind_inv H as r Hr. apply readArray_Ok in Hr as [_ Hr].
    bind_inv H as entry Hentry. pose proof Hentry as Hread.
    apply readArray_Ok in Hentry as [Hc0 Hentry].
    set (c0 := getContigNumAtLocation X (fst (Result.location r))) in *.
    assert (Hhits : (if negb (snd entry =? epoch) then 0 else fst entry)
                    = countedOn epoch counts c0).
    { unfold countedOn. rewrite Hread. destruct (snd entry =? epoch); reflexivity. }
    rewrite Hhits in H.
    pose proof (Hinv c0) as Hh. pose proof (Hle c0) as Hhle.
    pose proof (hitsOn_nonneg X c0 (take (Z.to_nat i) l)) as Hnn.
    assert (0 <= countedOn epoch counts c0) as Hh0 by (destruct (c0 =? primary); lia).
    rewrite int32_small in H by lia.
    bind_inv H as counts1 Hw. apply writeArray_Ok in Hw as (_ & Hlen & ->).
    assert (Hbehind1 : Forall (fun entry => snd entry <= epoch)
                              (<[Z.to_nat c0 := (countedOn epoch counts c0 + 1, epoch)]>
                                 counts)).
    { apply Forall_insert; [exact Hbehind | cbn; lia]. }
    destruct (Z.ltb_spec (maxSecondaryAlignmentsPerContig X)
                         (countedOn epoch counts c0 + 1)) as [Hmany|Hfew].
    + injection H as <- <-. split; [exact Hbehind1 | discriminate].
    + replace (Z.to_nat i + S count)%nat with (Z.to_nat (i + 1) + count)%nat by lia.
      apply (IH _ _ _ _ _ H); [lia | exact Hcap | | | exact Hbehind1].
      * intros c. rewrite (countedOn_insert _ _ _ _ _ Hc0 Hlen).
        replace (Z.to_nat (i + 1)) with (S (Z.to_nat i)) by lia.
        rewrite (hitsOn_take_S _ _ _ _ _ Hr). change (contigOf X r) with c0.
        rewrite (Z.eqb_sym c0 c). destruct (Z.eqb_spec c c0) as [->|Hne].
        -- lia.
        -- rewrite Hinv. lia.
      * intros c. rewrite (countedOn_insert _ _ _ _ _ Hc0 Hlen).
        destruct (c =? c0); [lia | apply Hle].
Qed.

Lemma groupedByContig_fresh (X : Finishing) (L : list Result.t) (N s : nat)
    (r' r : Result.t) :
  groupedByContig X (take N L) -> (0 < s < N)%nat ->
  L !! (s - 1)%nat = Some r' -> L !! s = Some r -> contigOf X r <> contigOf X r' ->
  hitsOn X (contigOf X r) (take s L) = 0.
Proof.
  intros Hgrouped Hs Hprev Hhere Hne. apply hitsOn_zero. intros i x Hx Hc.
  apply lookup_take_Some in Hx as [Hx Hi].
  apply Hne. symmetry. rewrite <- Hc.
  apply (Hgrouped i (s - 1)%nat s x r' r); [lia | | | | exact Hc];
    apply lookup_take_Some; split; auto; lia.
Qed.

Lemma keepHitsPerContig_limits (X : Finishing) (primary : Z) (L : list Result.t) (N : nat)
    (count : nat) :
  forall (source current currentCount dest : Z) (l : list Result.t)
         (dest' : Z) (l' : list Result.t),
  keepHitsPerContig X primary count source current currentCount dest l = Ok (dest', l') ->
  (Z.to_nat source + count = N)%nat -> Z.of_nat N < 2 ^ 31 - 1 ->
  groupedByContig X (take N L) ->
  0 <= dest <= source ->
  (forall j, (Z.to_nat source <= j)%nat -> l !! j = L !! j) ->
  (forall c, hitsOn X c (take (Z.to_nat dest) l) <= hitsOn X c (take (Z.to_nat source) L)) ->
  (forall c, hitsOn X c (take (Z.to_nat dest) l) + (if c =? primary then 1 else 0)
             <= maxSecondaryAlignmentsPerContig X) ->
  hitsOn X current (take (Z.to_nat dest) l) + (if current =? primary then 1 else 0)
    <= currentCount ->
  0 <= currentCount <= source + 1 ->
  (0 < source ->
   exists r, L !! (Z.to_nat source - 1)%nat = Some r /\ contigOf X r = current) ->
  forall c, hitsOn X c (take (Z.to_nat dest') l') + (if c =? primary then 1 else 0)
            <= maxSecondaryAlignmentsPerContig X.
Proof.
  induction count as [|count IH];
    intros source current currentCount dest l dest' l' H HN Hsmall Hgrouped Hd Hrest
           Hsub Hcap Hcur Hcount Hprev; simpl in H.
  - injection H as <- <-. exact Hcap.
  - bind_inv H as r Hr. apply readArray_Ok in Hr as [_ Hr].
    assert (HrL : L !! Z.to_nat source = Some r) by (rewrite <- Hrest by lia; exact Hr).
    fold (contigOf X r) in H. set (c0 := contigOf X r) in *.
    set (restarted := if negb (c0 =? current)
                      then (if c0 =? primary then 1 else 0) else currentCount) in *.
    assert (Hrestarted :
              hitsOn X c0 (take (Z.to_nat dest) l) + (if c0 =? primary then 1 else 0)
                <= restarted /\ 0 <= restarted <= source + 1).
    { unfold restarted. destruct (Z.eqb_spec c0 current) as [Heq|Hne]; cbn [negb].
      - rewrite Heq. split; [exact Hcur | exact Hcount].
      - assert (hitsOn X c0 (take (Z.to_nat source) L) = 0) as Hzero.
        { destruct (Z.eq_dec source 0) as [->|Hpos]; [reflexivity|].
          destruct Hprev as (r' & Hr' & Hcr'); [lia|].
          apply (groupedByContig_fresh X L N _ r' r Hgrouped); auto; [lia|].
          fold c0. rewrite Hcr'. exact Hne. }
        pose proof (Hsub c0). pose proof (hitsOn_nonneg X c0 (take (Z.to_nat dest) l)).
        destruct (c0 =? primary); lia. }
    destruct Hrestarted as [Hkept Hrange].
    rewrite int32_small in H by lia.
    assert (Hprev' : 0 < source + 1 ->
                     exists r0, L !! (Z.to_nat (source + 1) - 1)%nat = Some r0 /\
                                contigOf X r0 = c0).
    { intros _. exists r. replace (Z.to_nat (source + 1) - 1)%nat with (Z.to_nat source)
        by lia. split; [exact HrL | reflexivity]. }
    assert (Hgrow : forall c, hitsOn X c (take (Z.to_nat (source + 1)) L)
                              = hitsOn X c (take (Z.to_nat source) L)
                                + (if c0 =? c then 1 else 0)).
    { intros c. replace (Z.to_nat (source + 1)) with (S (Z.to_nat source)) by lia.
      apply hitsOn_take_S. exact HrL. }
    destruct (Z.leb_spec (restarted + 1) (maxSecondaryAlignmentsPerContig X)) as [Hkeep|Hdrop].
    + bind_inv H as l1 Hw. apply writeArray_Ok in Hw as (_ & Hlen & ->).
      assert (Hk1 : forall c, hitsOn X c (take (Z.to_nat (dest + 1))
                                               (<[Z.to_nat dest := r]> l))
                              = hitsOn X c (take (Z.to_nat dest) l)
                                + (if c0 =? c then 1 else 0)).
      { intros c. replace (Z.to_nat (dest + 1)) with (S (Z.to_nat dest)) by lia.
        rewrite (hitsOn_take_S X c _ _ r) by (apply list_lookup_insert_eq; exact Hlen).
        rewrite take_insert_ge by lia. reflexivity. }
      apply (IH _ _ _ _ _ _ _ H); try lia; try assumption.
      * intros j Hj. rewrite list_lookup_insert_ne by lia. apply Hrest. lia.
      * intros c. rewrite Hk1, Hgrow. pose proof (Hsub c). lia.
      * intros c. rewrite Hk1. destruct (Z.eqb_spec c0 c) as [<-|Hne].
        -- lia.
        -- pose proof (Hcap c). lia.
      * rewrite Hk1, Z.eqb_refl. lia.
    + apply (IH _ _ _ _ _ _ _ H); try lia; try assumption.
      * intros j Hj. apply Hrest. lia.
      * intros c. rewrite Hgrow. pose proof (Hsub c). destruct (c0 =? c); lia.
Qed.

Lemma cleanUpLoop_length (best maxED : Z) (fuel : nat) :
  forall (i n : Z) (l : list Result.t) (n' : Z) (l' : list Result.t),
  cleanUpLoop fuel best maxED i n l = Ok (n', l') ->
  0 <= i -> (Z.to_nat i <= length l)%nat ->
  (Z.to_nat n' <= length l')%nat.
Proof.
  induction fuel as [|fuel IH]; intros i n l n' l' H Hi Hlen; simpl in H; [discriminate|].
  destruct (Z.ltb_spec i n) as [Hlt|Hge].
  - bind_inv H as r Hr. apply readArray_Ok in Hr as [_ Hr]. apply lookup_lt_Some in Hr.
    destruct (tooFarOrNotFound best maxED r).
    + bind_inv H as last Hlast. bind_inv H as l1 Hl1.
      apply writeArray_Ok in Hl1 as (_ & _ & ->).
      apply (IH _ _ _ _ _ H Hi). rewrite length_insert. exact Hlen.
    + apply (IH _ _ _ _ _ H); lia.
  - injection H as <- <-. lia.
Qed.

Lemma insertByKey_ascending (key : Result.t -> Z) (r : Result.t) (l : list Result.t) :
  ascending key l -> ascending key (insertByKey key r l).
Proof.
  induction l as [|x l IH]; intros H; simpl.
  - split; [apply Forall_nil; exact I | exact I].
  - destruct H as [Hx Hl]. destruct (Z.leb_spec (key r) (key x)) as [Hle|Hgt].
    + split; [|split; assumption]. apply Forall_cons. split; [exact Hle|].
      eapply Forall_impl; [exact Hx|]. intros y Hy. cbn in Hy. lia.
    + split; [|apply IH; exact Hl]. rewrite insertByKey_Permutation.
      apply Forall_cons. split; [lia | exact Hx].
Qed.

Lemma sortByKey_ascending (key : Result.t -> Z) (l : list Result.t) :
  ascending key (sortByKey key l).
Proof.
  induction l as [|x l IH]; [exact I|]. simpl. apply insertByKey_ascending. exact IH.
Qed.

Lemma ascending_lookup (key : Result.t -> Z) (l : list Result.t) :
  ascending key l ->
  forall (i j : nat) (x y : Result.t),
    (i <= j)%nat -> l !! i = Some x -> l !! j = Some y -> key x <= key y.
Proof.
  induction l as [|z l IH]; intros H i j x y Hij Hx Hy; [discriminate|].
  destruct H as [Hz Hl]. destruct i as [|i], j as [|j]; try lia.
  - injection Hx as <-. injection Hy as <-. lia.
  - injection Hx as <-. rewrite Forall_lookup in Hz. exact (Hz j y Hy).
  - apply (IH Hl i j x y); [lia | exact Hx | exact Hy].
Qed.

Lemma sortByKey_grouped (X : Finishing) (l : list Result.t) :
  groupedByContig X (sortByKey (contigOf X) l).
Proof.
  intros i j k ri rj rk Hijk Hi Hj Hk Heq.
  pose proof (ascending_lookup _ _ (sortByKey_ascending (contigOf X) l)) as Hasc.
  pose proof (Hasc i j ri rj ltac:(lia) Hi Hj).
  pose proof (Hasc j k rj rk ltac:(lia) Hj Hk). lia.
Qed.

(** X21. With a per-contig limit in force and a best result that was found,
    no contig keeps more secondary results than
    [maxSecondaryAlignmentsPerContig], the primary result counting as one on
    its own contig, provided the sort by contig groups the results of a contig
    and both sorts only permute.  The contig counters stay behind the epoch. *)
Theorem align_phase_4_limits_the_results_per_contig (cfg : Config)
    (X : Finishing) (counts : ContigCounts) (read0 read1 : Read.t) (maxED maxReturn : Z)
    (pss : Z * Z) (best : Z) (prob : float) (n : Z) (l : list Result.t)
    (bestResult : Result.t) (out : Finished) :
  0 < maxSecondaryAlignmentsPerContig X < 2 ^ 31 - 1 ->
  n < 2 ^ 31 - 1 ->
  0 <= contigCountEpoch counts < 2 ^ 31 - 1 ->
  countsBehind counts ->
  (forall k, compareByContigAndScore_qsort X k ≡ₚ k) ->
  (forall k, groupedByContig X (compareByContigAndScore_qsort X k)) ->
  (forall k, compareByScore_qsort X k ≡ₚ k) ->
  align_phase_4 cfg X counts read0 read1 maxED maxReturn pss best prob n l bestResult
    = Ok out ->
  fst (Result.status (finBestResult out)) <> NotFound ->
  countsBehind (finCounts out) /\
  forall c,
    hitsOn X c (take (Z.to_nat (finNSecondaryResults out)) (finSecondaryResults out))
    + (if c =? contigOf X (finBestResult out) then 1 else 0)
    <= maxSecondaryAlignmentsPerContig X.
Proof.
  intros Hcap Hn Hepoch Hbehind Hperm1 Hgrouped Hperm2 H Hfound.
  unfold align_phase_4 in H.
  bind_inv H as adjusted Hadj. destruct adjusted as [[best1 l1] bestResult1].
  bind_inv H as cleaned Hclean. destruct cleaned as [n1 l2].
  bind_inv H as limited Hlim. destruct limited as [[n2 l3] counts'].
  assert (Hbest : finBestResult out = bestResult1 /\ finCounts out = counts').
  { destruct (maxReturn <? n2); injection H as <-; split; reflexivity. }
  destruct Hbest as [Hbest Hcounts']. rewrite Hbest in *. rewrite Hcounts'.
  pose proof (cleanUpLoop_length _ _ _ _ _ _ _ _ Hclean ltac:(lia) ltac:(simpl; lia))
    as Hlen2.
  apply (cleanUpLoop_spec (fun _ => True)) in Hclean as (Hn1 & _ & _ & _);
    [|lia|intros j y _ _; exact I|intros j y Hj; simpl in Hj; lia].
  assert (Hnot : isNotFound (fst (Result.status bestResult1)) = false).
  { destruct (fst (Result.status bestResult1)); try reflexivity. contradiction. }
  destruct (Z.ltb_spec 0 (maxSecondaryAlignmentsPerContig X)) as [_|]; [|lia].
  rewrite Hnot in Hlim. cbn [negb andb] in Hlim.
  bind_inv Hlim as counts1 Hc1. apply writeArray_Ok in Hc1 as (Hp0 & Hplen & ->).
  bind_inv Hlim as counted Hcounted. destruct counted as [any counts2].
  rewrite int32_small in * by lia.
  set (epoch := contigCountEpoch counts + 1) in *.
  fold (contigOf X bestResult1) in *. set (primary := contigOf X bestResult1) in *.
  assert (Hstale : forall c, countedOn epoch (hitsPerContigCounts counts) c = 0).
  { intros c. unfold countedOn. destruct (readArray _ c) as [entry| | |] eqn:Hread;
      try reflexivity.
    apply readArray_Ok in Hread as [_ Hread]. unfold countsBehind in Hbehind.
    rewrite Forall_lookup in Hbehind. specialize (Hbehind _ _ Hread).
    destruct (Z.eqb_spec (snd entry) epoch); [unfold epoch in *; lia | reflexivity]. }
  assert (Hpos : any = true -> (0 < Z.to_nat n1)%nat).
  { intros ->. exact (countHitsPerContig_found _ _ _ _ _ _ _ Hcounted). }
  apply (countHitsPerContig_spec X primary) in Hcounted as (Hbehind2 & Hcounted);
    [|lia|lia| | |].
  2: { intros c. rewrite (countedOn_insert _ _ _ _ _ Hp0 Hplen), Hstale.
       change (hitsOn X c (take (Z.to_nat 0) l2)) with 0. destruct (c =? primary); lia. }
  2: { intros c. rewrite (countedOn_insert _ _ _ _ _ Hp0 Hplen), Hstale.
       destruct (c =? primary); lia. }
  2: { apply Forall_insert; [|cbn; lia].
       eapply Forall_impl; [exact Hbehind|]. intros entry He. cbn in He.
       unfold epoch. lia. }
  assert (Hlimited : counts' = mkContigCounts epoch counts2 /\ n2 <= n1 /\
            forall c, hitsOn X c (take (Z.to_nat n2) l3) + (if c =? primary then 1 else 0)
                      <= maxSecondaryAlignmentsPerContig X).
  { destruct any.
    - bind_inv Hlim as kept Hkept. destruct kept as [dest l4].
      injection Hlim as <- <- <-. cbn [fst snd]. specialize (Hpos eq_refl).
      split; [reflexivity|]. split.
      + apply (keepHitsPerContig_spec (fun _ => True)) in Hkept as (Hle & _);
          [lia | lia | intros j y _ _; exact I].
      + set (L := qsortResults (compareByContigAndScore_qsort X) n1 l2) in *.
        assert (HL : take (Z.to_nat n1) L
                     = compareByContigAndScore_qsort X (take (Z.to_nat n1) l2)).
        { unfold L, qsortResults. apply take_app_length'.
          rewrite (Permutation_length (Hperm1 _)), length_take. lia. }
        intros c.
        apply (keepHitsPerContig_limits X primary L (Z.to_nat n1) _ _ _ _ _ _ _ _ Hkept).
        * reflexivity.
        * lia.
        * rewrite HL. apply Hgrouped.
        * lia.
        * intros j _. reflexivity.
        * intros c1. reflexivity.
        * intros c1. change (hitsOn X c1 (take (Z.to_nat 0) L)) with 0.
          destruct (c1 =? primary); lia.
        * change (hitsOn X (-1) (take (Z.to_nat 0) L)) with 0.
          destruct (Z.eqb_spec (-1) primary); lia.
        * lia.
        * lia.
    - injection Hlim as <- <- <-. split; [reflexivity|]. split; [lia|].
      intros c. rewrite Nat.add_0_l in Hcounted. apply Hcounted. reflexivity. }
  destruct Hlimited as (-> & Hn2 & Hlimit).
  split.
  { unfold countsBehind. cbn [contigCountEpoch hitsPerContigCounts]. exact Hbehind2. }
  intros c.
  destruct (Z.ltb_spec maxReturn n2) as [Hmany|Hfew]; injection H as <-;
    cbn [finNSecondaryResults finSecondaryResults].
  - pose proof (hitsOn_qsortResults X c (compareByScore_qsort X) n2 (Z.to_nat maxReturn) l3
                                    Hperm2 ltac:(lia)).
    pose proof (Hlimit c). lia.
  - apply Hlimit.
Qed.

Lemma align_phase_4_limits_the_results_per_contig_witness :
  match align_phase_4 sampleConfig sampleFinishing freshCounts plainRead plainRead 3 10
                      (0, 0) 2 1%float 5 fiveResults (foundResult 2100 2) with
  | Ok out =>
    finNSecondaryResults out = 3 /\
    hitsOn sampleFinishing 0
           (take (Z.to_nat (finNSecondaryResults out)) (finSecondaryResults out)) + 0 <= 2
  | _ => False
  end.
Proof.
  destruct (align_phase_4 _ _ _ _ _ _ _ _ _ _ _ _ _) as [out| | |] eqn:Hrun;
    try (vm_compute in Hrun; discriminate).
  assert (Hfound : fst (Result.status (finBestResult out)) <> NotFound).
  { vm_compute in Hrun. injection Hrun as <-. discriminate. }
  assert (Hbehind : countsBehind freshCounts).
  { unfold countsBehind. cbn. repeat (apply Forall_cons; split; [cbn; lia|]).
    apply Forall_nil. exact I. }
  pose proof (align_phase_4_limits_the_results_per_contig
                sampleConfig sampleFinishing freshCounts plainRead plainRead 3 10 (0, 0) 2
                1%float 5 fiveResults (foundResult 2100 2) out
                ltac:(cbn; lia) ltac:(lia) ltac:(cbn; lia) Hbehind
                (fun k => sortByKey_Permutation _ k)
                (fun k => sortByKey_grouped sampleFinishing k)
                (fun k => sortByKey_Permutation _ k)
                Hrun Hfound) as [_ Hlimit].
  split; [vm_compute in Hrun; injection Hrun as <-; reflexivity|].
  specialize (Hlimit 0).
  replace (0 =? contigOf sampleFinishing (finBestResult out)) with false in Hlimit
    by (vm_compute in Hrun; injection Hrun as <-; reflexivity).
  exact Hlimit.
Defined.

(** ** Phase 2: the invariant *)
















































(** ** Scoring one location *)

(** X25. When the two Landau-Vishkin scorers keep to the limit they are given,
    [scoreLocation] reports either -1 or a score of at most [scoreLimit] (the
    assertion of line 1420); a score of -1 always comes with match
    probability 0, and a location outside the genome always scores -1 and
    leaves [genomeLocationOffset] alone. *)
Theorem scoreLocation_stays_within_the_limit (E : Externals) (readLen_ : Z * Z)
    (whichRead direction : Z) (location : GenomeLocation) (seedOffset limit offset0 : Z) :
  scorerContract E -> 0 <= limit < 2 ^ 31 ->
  let result := scoreLocation E readLen_ whichRead direction location seedOffset limit
                              offset0 in
  (fst (fst result) = NEG1 \/ 0 <= fst (fst result) <= limit) /\
  (fst (fst result) = NEG1 -> snd (fst result) = 0%float) /\
  (getSubstringIsNull E location (get2 readLen_ whichRead + MAX_K E) = true ->
   result = (NEG1, 0%float, offset0)).
Proof.
  intros Hcontract Hlimit result. split; [|split].
  - apply scoreLocation_bounded; assumption.
  - unfold result, scoreLocation. destruct (getSubstringIsNull E _ _); [reflexivity|].
    destruct (landauVishkin E _ _ _ _ _) as [score1 matchProb1].
    destruct (score1 =? -1); [reflexivity|].
    destruct (reverseLandauVishkin E _ _ _ _ _) as [[score2 matchProb2] offset].
    destruct (score2 =? -1); [reflexivity|].
    destruct (Z.eqb_spec (wrap32 (score1 + score2)) NEG1) as [Heq|Hne]; cbn [fst snd].
    + reflexivity.
    + intros Hbad. contradiction.
  - unfold result, scoreLocation. intros ->. reflexivity.
Qed.

Lemma scoreLocation_stays_within_the_limit_witness :
  let result := scoreLocation (sampleExternals (fun _ _ => 0)) (100, 100) 0 0 3000 0 5 0 in
  (fst (fst result) = NEG1 \/ 0 <= fst (fst result) <= 5) /\
  (fst (fst result) = NEG1 -> snd (fst result) = 0%float) /\
  (getSubstringIsNull (sampleExternals (fun _ _ => 0)) 3000
                      (get2 (100, 100) 0 + MAX_K (sampleExternals (fun _ _ => 0))) = true ->
   result = (NEG1, 0%float, 0)).
Proof.
  exact (scoreLocation_stays_within_the_limit
           (sampleExternals (fun _ _ => 0)) (100, 100) 0 0 3000 0 5 0
           (sampleExternals_contract _ (fun _ _ => Z.le_refl 0)) ltac:(lia)).
Defined.

(** ** SmarterPairedEndAligner.h *)

(** X26. On [unsigned] locations [distance] is the absolute difference: it
    never wraps around, does not depend on the order of its arguments, and is
    0 only for equal locations. *)
Theorem distance_is_the_absolute_difference (a b : Z) :
  0 <= a < 2 ^ 32 -> 0 <= b < 2 ^ 32 ->
  Smarter.distance a b = Z.abs (a - b) /\
  Smarter.distance a b = Smarter.distance b a /\
  (Smarter.distance a b = 0 <-> a = b).
Proof.
  intros Ha Hb. unfold Smarter.distance.
  destruct (Z.ltb_spec b a), (Z.ltb_spec a b); try lia;
    rewrite ?wrap32_small by lia; repeat split; try lia.
Qed.

Lemma distance_is_the_absolute_difference_witness :
  Smarter.distance 10 4000000000 = Z.abs (10 - 4000000000) /\
  Smarter.distance 10 4000000000 = Smarter.distance 4000000000 10 /\
  (Smarter.distance 10 4000000000 = 0 <-> 10 = 4000000000).
Proof.
  exact (distance_is_the_absolute_difference 10 4000000000 ltac:(lia) ltac:(lia)).
Defined.

(** X27. [compareCandidates] is a strict weak ordering, as [std::sort] needs:
    no candidate comes before itself, coming before is transitive, and so is
    being neither before nor after. *)
Theorem compareCandidates_is_a_strict_weak_ordering :
  (forall c, Smarter.compareCandidates c c = false) /\
  (forall c1 c2 c3,
     Smarter.compareCandidates c1 c2 = true -> Smarter.compareCandidates c2 c3 = true ->
     Smarter.compareCandidates c1 c3 = true) /\
  (forall c1 c2 c3,
     Smarter.compareCandidates c1 c2 = false -> Smarter.compareCandidates c2 c1 = false ->
     Smarter.compareCandidates c2 c3 = false -> Smarter.compareCandidates c3 c2 = false ->
     Smarter.compareCandidates c1 c3 = false /\ Smarter.compareCandidates c3 c1 = false).
Proof.
  unfold Smarter.compareCandidates. split; [|split].
  - intros c. apply Z.ltb_irrefl.
  - intros c1 c2 c3 H12 H23. apply Z.ltb_lt in H12, H23. apply Z.ltb_lt. lia.
  - intros c1 c2 c3 H12 H21 H23 H32. apply Z.ltb_ge in H12, H21, H23, H32.
    split; apply Z.ltb_ge; lia.
Qed.

(** ** Phase 2 followed by scoring *)



(** ** Phase 2: the order of the mates *)














(** ** Phase 2 ends *)



















































